(** * multi-peer-mesh: the peer-session orchestrator

    A shallow embedding of [src/MultiPeerMesh.js] (class [MultiPeerMesh]) and
    of its older socket.io binding (class [SimplePeerMesh]), followed by the
    properties of the orchestrator: peer-map uniqueness, full-mesh
    detection, message fan-out, [join]'s bounded wait and teardown.

    The two collaborators of the orchestrator are outside of the repository
    and are modelled by what the orchestrator does to them and reads from
    them:
    - the transport object ([simple-peer]'s [Peer]) is a record of its
      [connected] / [destroyed] flags and of the calls it has taken; a call
      it refuses raises, and the raise leaves the orchestrator's method;
    - the signaling channel ([multi-signal-server]) is its [roomCount]
      property, a destroyed flag and the list of requests sent to it. *)

From Stdlib Require Import ZArith List String Ascii Bool Lia DecimalString.
Import ListNotations.
Open Scope string_scope.
Open Scope list_scope.

(** ** The JavaScript runtime, as far as the orchestrator uses it *)

Set Warnings "-register-all".

Module JS.

#[local] Open Scope string_scope.

(** Payloads handed to [broadcast] / [send]: plain JSON data (numbers are
    the integers; no [undefined], functions, cycles or [toJSON] members,
    for which [JSON.stringify] gives no text or raises).  [JObj] lists the
    own enumerable properties of an object in the order [JSON.stringify]
    visits them.  [JStr] is the only value whose [typeof] is ['string']. *)
Inductive JsValue : Type :=
| JNull
| JBool (b : bool)
| JNum (n : Z)
| JStr (s : string)
| JArr (items : list JsValue)
| JObj (fields : list (string * JsValue)).




Definition dquote : string := String (ascii_of_nat 34) EmptyString.
Definition backslash : string := String (ascii_of_nat 92) EmptyString.

Definition hex_digit (n : nat) : ascii :=
  if Nat.ltb n 10 then ascii_of_nat (48 + n) else ascii_of_nat (87 + n).

(** One code unit of [QuoteJSONString]. *)
Definition escape_char (c : ascii) : string :=
  let n := nat_of_ascii c in
  if Nat.eqb n 8 then backslash ++ "b"
  else if Nat.eqb n 9 then backslash ++ "t"
  else if Nat.eqb n 10 then backslash ++ "n"
  else if Nat.eqb n 12 then backslash ++ "f"
  else if Nat.eqb n 13 then backslash ++ "r"
  else if Nat.eqb n 34 then backslash ++ dquote
  else if Nat.eqb n 92 then backslash ++ backslash
  else if Nat.ltb n 32 then
    backslash ++ "u00" ++
    String (hex_digit (Nat.div n 16)) (String (hex_digit (Nat.modulo n 16)) EmptyString)
  else String c EmptyString.

Fixpoint escape (s : string) : string :=
  match s with
  | EmptyString => EmptyString
  | String c rest => escape_char c ++ escape rest
  end.

Definition quote (s : string) : string := dquote ++ escape s ++ dquote.

(** [JSON.stringify] on [plain] data (no indentation argument). *)
Fixpoint JSON_stringify (v : JsValue) : string :=
  match v with
  | JNull => "null"
  | JBool true => "true"
  | JBool false => "false"
  | JNum n => NilZero.string_of_int (Z.to_int n)
  | JStr s => quote s
  | JArr items => "[" ++ String.concat "," (map JSON_stringify items) ++ "]"
  | JObj fields =>
      "{" ++ String.concat ","
               (map (fun kv => quote (fst kv) ++ ":" ++ JSON_stringify (snd kv)) fields)
          ++ "}"
  end.

(** An object used as a dictionary: own string-keyed properties in
    insertion order, the order [for ... in] visits them.  The keys are the
    identities the relay hands out (socket ids): none is an array index or
    the name of a member of [Object.prototype]. *)
Section Obj.
Context {V : Type}.

Definition obj := list (string * V).

Fixpoint get (k : string) (o : obj) : option V :=
  match o with
  | [] => None
  | (k', v) :: rest => if String.eqb k' k then Some v else get k rest
  end.

Definition hasOwnProperty (k : string) (o : obj) : bool :=
  match get k o with Some _ => true | None => false end.

(** [o[k] = v]: an existing property keeps its place, a new one is
    added last. *)
Fixpoint set (k : string) (v : V) (o : obj) : obj :=
  match o with
  | [] => [(k, v)]
  | (k', v') :: rest =>
      if String.eqb k' k then (k', v) :: rest else (k', v') :: set k v rest
  end.

(** [delete o[k]] *)
Fixpoint delete (k : string) (o : obj) : obj :=
  match o with
  | [] => []
  | (k', v') :: rest =>
      if String.eqb k' k then delete k rest else (k', v') :: delete k rest
  end.

Definition keys (o : obj) : list string := map fst o.
Definition values (o : obj) : list V := map snd o.
End Obj.
Arguments obj V : clear implicits.

(** What a call can end in: a normal return or a thrown exception. *)
Inductive JsError : Type :=
| TypeError (what : string)
| PeerError (what : string).

Inductive Completion (A : Type) : Type :=
| Normal (a : A)
| Throw (e : JsError).
Arguments Normal {A} a.
Arguments Throw {A} e.

(** A promise, as seen by whoever awaits it.  Settling is final. *)
Inductive Promise : Type := Pending | Fulfilled | Rejected.

Definition resolve (p : Promise) : Promise :=
  match p with Pending => Fulfilled | _ => p end.
Definition reject (p : Promise) : Promise :=
  match p with Pending => Rejected | _ => p end.

End JS.
Import JS.

(** ** The transport object ([simple-peer]'s [Peer])

    Opaque to the orchestrator.  The record keeps the constructor options,
    the two flags the orchestrator and the transport itself change, and the
    calls the transport accepted, each in call order.

    The transport refuses some calls by raising, as [simple-peer] does:
    [send] unless its data channel is open, which is taken to be exactly
    while [connected] holds, and [send], [addStream] and [removeStream]
    once it is destroyed.  A live transport is taken to accept the streams
    it is given.  [write] comes from the stream interface and buffers. *)

Module Transport.

Definition Stream := string.
Definition Payload := string.

Record Peer : Type := mkPeer {
  socketId : string;              (* the identity its listeners close over *)
  initiator : bool;               (* options.initiator *)
  trickle : bool;                 (* options.trickle *)
  stream : option Stream;         (* options.stream *)
  connected : bool;
  destroyed : bool;
  signalled : list Payload;       (* peer.signal(data) *)
  sent : list string;             (* peer.send(text) *)
  written : list JsValue;         (* peer.write(chunk) *)
  added : list Stream;            (* peer.addStream(stream) *)
  removed : list Stream           (* peer.removeStream(stream) *)
}.

(** [new Peer(options)] *)
Definition new_Peer (id : string) (init trick : bool) (st : option Stream) : Peer :=
  mkPeer id init trick st false false [] [] [] [] [].

Definition Peer_signal (d : Payload) (p : Peer) : Peer :=
  mkPeer (socketId p) (initiator p) (trickle p) (stream p) (connected p) (destroyed p)
         (signalled p ++ [d]) (sent p) (written p) (added p) (removed p).


(** The object after a [send] it accepted. *)
Definition record_send (m : string) (p : Peer) : Peer :=
  mkPeer (socketId p) (initiator p) (trickle p) (stream p) (connected p) (destroyed p)
         (signalled p) (sent p ++ [m]) (written p) (added p) (removed p).

(** [peer.send(text)] *)
Definition Peer_send (m : string) (p : Peer) : Completion Peer :=
  if destroyed p then Throw (PeerError "cannot send after peer is destroyed")
  else if connected p then Normal (record_send m p)
  else Throw (PeerError "data channel is not open").

Definition Peer_write (m : JsValue) (p : Peer) : Peer :=
  mkPeer (socketId p) (initiator p) (trickle p) (stream p) (connected p) (destroyed p)
         (signalled p) (sent p) (written p ++ [m]) (added p) (removed p).

(** The object after an [addStream] it accepted. *)
Definition record_addStream (st : Stream) (p : Peer) : Peer :=
  mkPeer (socketId p) (initiator p) (trickle p) (stream p) (connected p) (destroyed p)
         (signalled p) (sent p) (written p) (added p ++ [st]) (removed p).

(** [peer.addStream(stream)] *)
Definition Peer_addStream (st : Stream) (p : Peer) : Completion Peer :=
  if destroyed p then Throw (PeerError "cannot addStream after peer is destroyed")
  else Normal (record_addStream st p).

(** The object after a [removeStream] it accepted. *)
Definition record_removeStream (st : Stream) (p : Peer) : Peer :=
  mkPeer (socketId p) (initiator p) (trickle p) (stream p) (connected p) (destroyed p)
         (signalled p) (sent p) (written p) (added p) (removed p ++ [st]).

(** [peer.removeStream(stream)] *)
Definition Peer_removeStream (st : Stream) (p : Peer) : Completion Peer :=
  if destroyed p then Throw (PeerError "cannot removeStream after peer is destroyed")
  else Normal (record_removeStream st p).

(** The transport closes: by [peer.destroy()] or by itself. *)
Definition Peer_close (p : Peer) : Peer :=
  mkPeer (socketId p) (initiator p) (trickle p) (stream p) false true
         (signalled p) (sent p) (written p) (added p) (removed p).

(** The transport finishes its handshake. *)
Definition Peer_open (p : Peer) : Peer :=
  mkPeer (socketId p) (initiator p) (trickle p) (stream p) true (destroyed p)
         (signalled p) (sent p) (written p) (added p) (removed p).

(** [peer.destroy()].  The orchestrator expects a second destroy to raise
    (its [catch] says: peer might already be destroyed error); the model
    takes that worst case. *)
Definition Peer_destroy (p : Peer) : Completion Peer :=
  if destroyed p then Throw (PeerError "already destroyed")
  else Normal (Peer_close p).

(** The store of transport objects: every [Peer] ever constructed, at the
    index it was allocated at.  The peer map holds indices into it, so an
    object dropped from the map lives on and can still notify. *)
Definition Heap := list Peer.

Definition alloc (p : Peer) (h : Heap) : nat * Heap := (List.length h, h ++ [p]).

Fixpoint update (r : nat) (f : Peer -> Peer) (h : Heap) : Heap :=
  match h, r with
  | [], _ => []
  | p :: rest, O => f p :: rest
  | p :: rest, S r' => p :: update r' f rest
  end.

Definition is_connected (h : Heap) (r : nat) : bool :=
  match nth_error h r with Some p => connected p | None => false end.

(** The object at [r] is closed. *)
Definition is_closed (h : Heap) (r : nat) : bool :=
  match nth_error h r with Some p => destroyed p | None => false end.

Definition is_alive (h : Heap) (r : nat) : bool :=
  match nth_error h r with Some p => negb (destroyed p) | None => false end.

(** A call on the object at [r]: the store afterwards, and the raise if
    the transport refused. *)
Definition call_peer (call : Peer -> Completion Peer) (r : nat) (h : Heap)
  : Heap * option JsError :=
  match nth_error h r with
  | Some p => match call p with
              | Normal p' => (update r (fun _ => p') h, None)
              | Throw e => (h, Some e)
              end
  | None => (h, None)
  end.

(** [for (let peer in this.peers) this.peers[peer].call(...)]: the entries
    in the order of the map; a raise leaves the loop at once, with the
    entries before it served and those behind it not. *)
Fixpoint for_each_peer (call : Peer -> Completion Peer) (entries : obj nat) (h : Heap)
  : Heap * option JsError :=
  match entries with
  | [] => (h, None)
  | kv :: rest =>
      match call_peer call (snd kv) h with
      | (h', None) => for_each_peer call rest h'
      | (h', Some e) => (h', Some e)
      end
  end.

(** [try { peer.destroy() } catch (e) { }] on the object at [r] *)
Definition try_destroy (r : nat) (h : Heap) : Heap :=
  match nth_error h r with
  | Some p => match Peer_destroy p with
              | Normal p' => update r (fun _ => p') h
              | Throw _ => h
              end
  | None => h
  end.

End Transport.
Import Transport.

(** ** [MultiPeerMesh] (src/MultiPeerMesh.js) *)

Module MultiPeerMesh.

(** What the orchestrator emits to the application ([this.emit]). *)
Inductive Notification : Type :=
| NRoomCount (n : Z)
| NSocketId (id : string)
| NConnect (id : string)
| NDisconnect (id : string)
| NData (id : string) (data : string)
| NStream (id : string) (st : Stream)
| NTrack (id : string) (track : string) (st : Stream)
| NError (id : string) (cause : string) (init : bool)
| NFullConnect.

Definition event_name (n : Notification) : string :=
  match n with
  | NRoomCount _ => "room-count"
  | NSocketId _ => "socket-id"
  | NConnect _ => "connect"
  | NDisconnect _ => "disconnect"
  | NData _ _ => "data"
  | NStream _ _ => "stream"
  | NTrack _ _ _ => "track"
  | NError _ _ _ => "error"
  | NFullConnect => "full-connect"
  end.

Definition is_full_connect (n : Notification) : bool :=
  match n with NFullConnect => true | _ => false end.

(** What the orchestrator asks of the signaling channel. *)
Inductive Request : Type :=
| RCreate (app room password : string) (hidden : bool)
| RJoin (app room password : string)
| RMessage (id kind : string) (data : Payload).

(** One call of [waitFor(event, timeout)]: the [once] listener it
    registered, the timer it armed and the promise it returned. *)
Record Wait : Type := mkWait {
  w_event : string;
  w_listening : bool;     (* the once-listener is still registered *)
  w_timer : bool;         (* the reject timer is still armed *)
  w_promise : Promise
}.

(** One call of [join]: where its [async] body stands. *)
Inductive Join : Type :=
| JAwaitRoomCount               (* at: await this.signal.waitFor('room-count', 5000) *)
| JRoomCountTimeout             (* that wait was rejected; the body threw *)
| JSoleOccupant                 (* roomCount === 1: returned *)
| JAwaitFullConnect (w : nat).  (* at: await this.waitFor('full-connect', 10000) *)

Record Mesh : Type := mkMesh {
  appName : string;
  trickle_option : bool;
  room : string;
  broadcastedStream : option Stream;
  heap : Heap;
  peers : obj nat;                (* this.peers: identity -> transport object *)
  roomCount : option Z;           (* this.signal.roomCount; None is undefined *)
  signalDestroyed : bool;         (* this.signal.destroy() was called *)
  requests : list Request;
  waits : list Wait;
  joins : list Join;
  emitted : list Notification;
  checks : nat                    (* ghost: evaluations of isFullyConnected() so far *)
}.

(** Modelled from the spec: the [roomCount] property of the signaling
    channel (package [multi-signal-server], not in the repository) "is
    undefined until the first relay update". *)
Definition signal_roomCount_unset : option Z := None.

(** [new MultiPeerMesh(appName, trickle)] *)
Definition constructor (app : string) (trick : bool) : Mesh :=
  mkMesh app trick "" None [] [] signal_roomCount_unset false [] [] [] [] 0.

Definition with_room (x : string) (s : Mesh) : Mesh :=
  mkMesh (appName s) (trickle_option s) x (broadcastedStream s) (heap s) (peers s)
         (roomCount s) (signalDestroyed s) (requests s) (waits s) (joins s) (emitted s) (checks s).
Definition with_broadcastedStream (x : option Stream) (s : Mesh) : Mesh :=
  mkMesh (appName s) (trickle_option s) (room s) x (heap s) (peers s)
         (roomCount s) (signalDestroyed s) (requests s) (waits s) (joins s) (emitted s) (checks s).
Definition with_heap (x : Heap) (s : Mesh) : Mesh :=
  mkMesh (appName s) (trickle_option s) (room s) (broadcastedStream s) x (peers s)
         (roomCount s) (signalDestroyed s) (requests s) (waits s) (joins s) (emitted s) (checks s).
Definition with_peers (x : obj nat) (s : Mesh) : Mesh :=
  mkMesh (appName s) (trickle_option s) (room s) (broadcastedStream s) (heap s) x
         (roomCount s) (signalDestroyed s) (requests s) (waits s) (joins s) (emitted s) (checks s).
Definition with_roomCount (x : option Z) (s : Mesh) : Mesh :=
  mkMesh (appName s) (trickle_option s) (room s) (broadcastedStream s) (heap s) (peers s)
         x (signalDestroyed s) (requests s) (waits s) (joins s) (emitted s) (checks s).
Definition with_signalDestroyed (x : bool) (s : Mesh) : Mesh :=
  mkMesh (appName s) (trickle_option s) (room s) (broadcastedStream s) (heap s) (peers s)
         (roomCount s) x (requests s) (waits s) (joins s) (emitted s) (checks s).
Definition with_requests (x : list Request) (s : Mesh) : Mesh :=
  mkMesh (appName s) (trickle_option s) (room s) (broadcastedStream s) (heap s) (peers s)
         (roomCount s) (signalDestroyed s) x (waits s) (joins s) (emitted s) (checks s).
Definition with_waits (x : list Wait) (s : Mesh) : Mesh :=
  mkMesh (appName s) (trickle_option s) (room s) (broadcastedStream s) (heap s) (peers s)
         (roomCount s) (signalDestroyed s) (requests s) x (joins s) (emitted s) (checks s).
Definition with_joins (x : list Join) (s : Mesh) : Mesh :=
  mkMesh (appName s) (trickle_option s) (room s) (broadcastedStream s) (heap s) (peers s)
         (roomCount s) (signalDestroyed s) (requests s) (waits s) x (emitted s) (checks s).
Definition with_emitted (x : list Notification) (s : Mesh) : Mesh :=
  mkMesh (appName s) (trickle_option s) (room s) (broadcastedStream s) (heap s) (peers s)
         (roomCount s) (signalDestroyed s) (requests s) (waits s) (joins s) x (checks s).
Definition with_checks (x : nat) (s : Mesh) : Mesh :=
  mkMesh (appName s) (trickle_option s) (room s) (broadcastedStream s) (heap s) (peers s)
         (roomCount s) (signalDestroyed s) (requests s) (waits s) (joins s) (emitted s) x.

(** Modelled from the spec: the room count of the channel is the "last
    relay-broadcast total occupancy including self; mutated only by relay
    updates"; the channel stores it before it notifies its listeners. *)
Definition signal_update_roomCount (n : Z) (s : Mesh) : Mesh :=
  with_roomCount (Some n) s.

(** Modelled from the spec: [this.signal.destroy()] "tears down the
    signaling channel"; the model records that it was called. *)
Definition signal_destroy (s : Mesh) : Mesh :=
  with_signalDestroyed true s.

(** *** The event emitter and [waitFor] *)

(** The [once] listener of a wait, when [ev] is emitted: it unregisters,
    clears the timer and resolves the promise. *)
Definition once_fire (ev : string) (w : Wait) : Wait :=
  if w_listening w && String.eqb (w_event w) ev
  then mkWait (w_event w) false false (resolve (w_promise w))
  else w.

(** [this.emit(...)].  The listeners of the application are outside the
    model, which keeps the log of what was emitted; the listeners the
    orchestrator registers itself, the [once] listeners of [waitFor], run. *)
Definition emit (n : Notification) (s : Mesh) : Mesh :=
  with_waits (map (once_fire (event_name n)) (waits s))
             (with_emitted (emitted s ++ [n]) s).

(** [waitFor(event, timeout)]; [timeout = None] is [false].  Returns the
    index of the new wait. *)
Definition waitFor (ev : string) (timeout : option Z) (s : Mesh) : nat * Mesh :=
  (List.length (waits s),
   with_waits (waits s ++ [mkWait ev true (match timeout with Some _ => true | None => false end)
                                  Pending]) s).

(** The timer of wait [w] fires: [reject(...)].  The listener stays. *)
Definition timer_fire (w : Wait) : Wait :=
  if w_timer w
  then mkWait (w_event w) (w_listening w) false (reject (w_promise w))
  else w.

Fixpoint update_nth {A : Type} (i : nat) (f : A -> A) (l : list A) : list A :=
  match l, i with
  | [], _ => []
  | x :: rest, O => f x :: rest
  | x :: rest, S i' => x :: update_nth i' f rest
  end.

(** *** Peers *)

Definition request (r : Request) (s : Mesh) : Mesh :=
  with_requests (requests s ++ [r]) s.

(** [getConnectedPeerCount()] *)
Definition getConnectedPeerCount (s : Mesh) : nat :=
  List.length (filter (fun kv => is_connected (heap s) (snd kv)) (peers s)).

(** [isFullyConnected()]: [peerCount + 1 >= this.signal.roomCount]; a
    comparison with [undefined] is false. *)
Definition isFullyConnected (s : Mesh) : bool :=
  match roomCount s with
  | Some n => (n <=? Z.of_nat (getConnectedPeerCount s) + 1)%Z
  | None => false
  end.

(** [checkFullConnect()] *)
Definition checkFullConnect (s : Mesh) : Mesh :=
  let s1 := with_checks (S (checks s)) s in
  if isFullyConnected s then emit NFullConnect s1 else s1.

(** [createPeer(socketId, initiator)]: the new object's index.  Its
    listeners are the [peer_on_*] handlers below.  The [wrtc] option is
    passed through to the transport and is not modelled. *)
Definition createPeer (id : string) (init : bool) (s : Mesh) : nat * Mesh :=
  let (r, h) := alloc (new_Peer id init (trickle_option s) (broadcastedStream s)) (heap s) in
  (r, with_heap h s).

Definition peer_on_error (id : string) (init : bool) (cause : string) (s : Mesh) : Mesh :=
  emit (NError id cause init) s.

Definition peer_on_signal (id : string) (data : Payload) (s : Mesh) : Mesh :=
  request (RMessage id "signal" data) s.

Definition peer_on_connect (id : string) (s : Mesh) : Mesh :=
  checkFullConnect (emit (NConnect id) s).

Definition peer_on_data (id : string) (data : string) (s : Mesh) : Mesh :=
  emit (NData id data) s.

Definition peer_on_stream (id : string) (st : Stream) (s : Mesh) : Mesh :=
  emit (NStream id st) s.

Definition peer_on_track (id : string) (track : string) (st : Stream) (s : Mesh) : Mesh :=
  emit (NTrack id track st) s.

Definition peer_on_close (s : Mesh) : Mesh := s.

(** *** Listeners on the signaling channel (registered by [connect]) *)

(** [join], resumed after its room-count wait resolved with [n]:
    [this.checkFullConnect(); if (roomCount !== 1) await this.waitFor('full-connect', 10000)] *)
Definition join_resume (n : Z) (s : Mesh) : Join * Mesh :=
  let s1 := checkFullConnect s in
  if (n =? 1)%Z then (JSoleOccupant, s1)
  else let (w, s2) := waitFor "full-connect" (Some 10000%Z) s1 in
       (JAwaitFullConnect w, s2).

(** Every [join] waiting for the room count resumes, in call order. *)
Fixpoint resume_joins (n : Z) (js : list Join) (s : Mesh) : list Join * Mesh :=
  match js with
  | [] => ([], s)
  | JAwaitRoomCount :: rest =>
      let (j, s1) := join_resume n s in
      let (rest', s2) := resume_joins n rest s1 in
      (j :: rest', s2)
  | j :: rest =>
      let (rest', s1) := resume_joins n rest s in
      (j :: rest', s1)
  end.

(** ['room-count'], after the channel stored the count; then the [join]s
    whose [this.signal.waitFor('room-count', 5000)] it resolved go on. *)
Definition on_room_count (n : Z) (s : Mesh) : Mesh :=
  let s1 := signal_update_roomCount n s in
  let s2 := checkFullConnect (emit (NRoomCount n) s1) in
  let (js, s3) := resume_joins n (joins s2) s2 in
  with_joins js s3.

Definition on_socket_id (id : string) (s : Mesh) : Mesh :=
  emit (NSocketId id) s.

(** ['initialize']: [this.peers[socketId] = this.createPeer(socketId, true)] *)
Definition on_initialize (id : string) (s : Mesh) : Mesh :=
  let (r, s1) := createPeer id true s in
  with_peers (set id r (peers s1)) s1.

(** ['destroy'] *)
Definition on_destroy (id : string) (s : Mesh) : Mesh :=
  match get id (peers s) with
  | Some r =>
      let s1 := with_heap (try_destroy r (heap s)) s in
      let s2 := with_peers (delete id (peers s1)) s1 in
      emit (NDisconnect id) s2
  | None => s
  end.

(** ['signal'] *)
Definition on_signal (id : string) (data : Payload) (s : Mesh) : Mesh :=
  let s1 := if hasOwnProperty id (peers s) then s
            else let (r, s') := createPeer id false s in
                 with_peers (set id r (peers s')) s' in
  match get id (peers s1) with
  | Some r => with_heap (update r (Peer_signal data) (heap s1)) s1
  | None => s1
  end.

(** *** The public operations *)

(** [create(room, password, hidden)] *)
Definition create (rm pw : string) (hidden : bool) (s : Mesh) : Mesh :=
  request (RCreate (appName s) rm pw hidden) s.

(** [join(room, password)] up to its first [await]. *)
Definition join (rm pw : string) (s : Mesh) : Mesh :=
  let s1 := with_room rm (request (RJoin (appName s) rm pw) s) in
  with_joins (joins s1 ++ [JAwaitRoomCount]) s1.

(** [typeof message === 'string' ? message : JSON.stringify(message)] *)
Definition encode (m : JsValue) : string :=
  match m with
  | JStr text => text
  | _ => JSON_stringify m
  end.

(** What a call of the application ends in: the state it leaves, and the
    raise that ended it, if one did.  Nothing here catches a raise of the
    transport, so it reaches the caller. *)
Definition Outcome : Type := (Mesh * option JsError)%type.

Definition served (s : Mesh) (r : Heap * option JsError) : Outcome :=
  (with_heap (fst r) s, snd r).

(** [broadcast(message)].  The entries of [this.peers] are transport
    objects, never [null]: the loop body runs for every own property, and
    the message is encoded anew for each. *)
Definition broadcast (m : JsValue) (s : Mesh) : Outcome :=
  served s (for_each_peer (Peer_send (encode m)) (peers s) (heap s)).

(** [send(id, message)] *)
Definition send (id : string) (m : JsValue) (s : Mesh) : Outcome :=
  match get id (peers s) with
  | Some r => served s (call_peer (Peer_send (encode m)) r (heap s))
  | None => (s, None)
  end.

(** [broadcastStream(stream)] *)
Definition broadcastStream (st : Stream) (s : Mesh) : Outcome :=
  let s1 := with_broadcastedStream (Some st) s in
  served s1 (for_each_peer (Peer_addStream st) (peers s1) (heap s1)).

(** The argument of [hasOwnProperty] in [sendStream] / [removeStream]:
    [id && this.peers[id] !== null].  An empty [id] is falsy and is the
    value of the conjunction; otherwise the value is the comparison, which
    is [true] for a transport object and for [undefined] alike, and the
    property key of [true] is the string ["true"]. *)
Definition stream_check_key (id : string) : string :=
  if String.eqb id "" then "" else "true".

(** [sendStream(id, stream)] *)
Definition sendStream (id : string) (st : Stream) (s : Mesh) : Outcome :=
  if hasOwnProperty (stream_check_key id) (peers s) then
    match get id (peers s) with
    | Some r => served s (call_peer (Peer_addStream st) r (heap s))
    | None => (s, Some (TypeError "this.peers[id] is undefined"))
    end
  else (s, None).

(** [removeStream(id, stream)] *)
Definition removeStream (id : string) (st : Stream) (s : Mesh) : Outcome :=
  if hasOwnProperty (stream_check_key id) (peers s) then
    match get id (peers s) with
    | Some r => served s (call_peer (Peer_removeStream st) r (heap s))
    | None => (s, Some (TypeError "this.peers[id] is undefined"))
    end
  else (s, None).

(** [broadcastRemoveStream(stream)] *)
Definition broadcastRemoveStream (st : Stream) (s : Mesh) : Outcome :=
  let s1 := with_broadcastedStream None s in
  served s1 (for_each_peer (Peer_removeStream st) (peers s1) (heap s1)).

(** One turn of the loop of [destroy()] *)
Definition destroy_entry (s : Mesh) (kv : string * nat) : Mesh :=
  let s1 := with_heap (try_destroy (snd kv) (heap s)) s in
  with_peers (delete (fst kv) (peers s1)) s1.

(** [destroy()] *)
Definition destroy (s : Mesh) : Mesh :=
  let s1 := signal_destroy s in
  fold_left destroy_entry (peers s1) s1.

(** *** Everything that can happen to an orchestrator after [connect] *)

Inductive Event : Type :=
(* from the signaling channel *)
| RelayRoomCount (n : Z)
| RelaySocketId (id : string)
| RelayInitialize (id : string)
| RelayDestroy (id : string)
| RelaySignal (id : string) (data : Payload)
(* from the transport object at index r *)
| PeerSignals (r : nat) (data : Payload)
| PeerConnects (r : nat)
| PeerData (r : nat) (data : string)
| PeerStream (r : nat) (st : Stream)
| PeerTrack (r : nat) (track : string) (st : Stream)
| PeerErrors (r : nat) (cause : string)
| PeerCloses (r : nat)
(* timers *)
| RoomCountTimeout (j : nat)
| WaitTimeout (w : nat)
(* calls of the application *)
| CallCreate (rm pw : string) (hidden : bool)
| CallJoin (rm pw : string)
| CallBroadcast (m : JsValue)
| CallSend (id : string) (m : JsValue)
| CallBroadcastStream (st : Stream)
| CallSendStream (id : string) (st : Stream)
| CallRemoveStream (id : string) (st : Stream)
| CallBroadcastRemoveStream (st : Stream)
| CallDestroy.

(** A notification of the transport object at [r]: only a constructed
    object that is not destroyed notifies; [k] is its listener, given the
    identity and role the listener closes over. *)
Definition from_peer (r : nat) (s : Mesh) (k : Peer -> Mesh) : Mesh :=
  match nth_error (heap s) r with
  | Some p => if destroyed p then s else k p
  | None => s
  end.

(** Modelled from the spec: the channel's own [waitFor('room-count', 5000)]
    is a wait "bounded by a configurable timeout" that "fails with a
    Timeout condition"; the [join] awaiting it then throws. *)
Definition room_count_timeout (j : Join) : Join :=
  match j with JAwaitRoomCount => JRoomCountTimeout | _ => j end.

(** What an event does: the state it leaves and, for a call of the
    application, the raise that ended it. *)
Definition perform (s : Mesh) (e : Event) : Outcome :=
  match e with
  | RelayRoomCount n => (on_room_count n s, None)
  | RelaySocketId id => (on_socket_id id s, None)
  | RelayInitialize id => (on_initialize id s, None)
  | RelayDestroy id => (on_destroy id s, None)
  | RelaySignal id data => (on_signal id data s, None)
  | PeerSignals r data =>
      (from_peer r s (fun p => peer_on_signal (socketId p) data s), None)
  | PeerConnects r =>
      (from_peer r s (fun p =>
         peer_on_connect (socketId p) (with_heap (update r Peer_open (heap s)) s)), None)
  | PeerData r data =>
      (from_peer r s (fun p => peer_on_data (socketId p) data s), None)
  | PeerStream r st =>
      (from_peer r s (fun p => peer_on_stream (socketId p) st s), None)
  | PeerTrack r track st =>
      (from_peer r s (fun p => peer_on_track (socketId p) track st s), None)
  | PeerErrors r cause =>
      (from_peer r s (fun p => peer_on_error (socketId p) (initiator p) cause s), None)
  | PeerCloses r =>
      (from_peer r s (fun p =>
         peer_on_close (with_heap (update r Peer_close (heap s)) s)), None)
  | RoomCountTimeout j => (with_joins (update_nth j room_count_timeout (joins s)) s, None)
  | WaitTimeout w => (with_waits (update_nth w timer_fire (waits s)) s, None)
  | CallCreate rm pw hidden => (create rm pw hidden s, None)
  | CallJoin rm pw => (join rm pw s, None)
  | CallBroadcast m => broadcast m s
  | CallSend id m => send id m s
  | CallBroadcastStream st => broadcastStream st s
  | CallSendStream id st => sendStream id st s
  | CallRemoveStream id st => removeStream id st s
  | CallBroadcastRemoveStream st => broadcastRemoveStream st s
  | CallDestroy => (destroy s, None)
  end.

(** How the event ends for whoever caused it. *)
Definition step (s : Mesh) (e : Event) : Completion Mesh :=
  match perform s e with
  | (s', None) => Normal s'
  | (_, Some err) => Throw err
  end.

(** The state after an event, whether it ended in a raise or not: what
    was done before a raise stays done. *)
Definition after (s : Mesh) (e : Event) : Mesh := fst (perform s e).

Definition run (s : Mesh) (es : list Event) : Mesh := fold_left after es s.

(** The notifications an event adds to the log. *)
Definition fresh (s : Mesh) (e : Event) : list Notification :=
  skipn (List.length (emitted s)) (emitted (after s e)).

(** The promise [join] call number [j] returned. *)
Definition joinPromise (s : Mesh) (j : nat) : Promise :=
  match nth_error (joins s) j with
  | Some JSoleOccupant => Fulfilled
  | Some JRoomCountTimeout => Rejected
  | Some (JAwaitFullConnect w) =>
      match nth_error (waits s) w with
      | Some wt => w_promise wt
      | None => Pending
      end
  | Some JAwaitRoomCount | None => Pending
  end.

End MultiPeerMesh.

(** ** [SimplePeerMesh] (the socket.io binding)

    The same peer map, counting and full-connect check over a socket that
    the class owns itself; [roomCount] is a field of the orchestrator and
    starts at [-1].  [join] and the listener registry ([on] / [off] /
    [fire]) are not needed below: [fired] is the log of [fire] calls. *)

Module SimplePeerMesh.

Inductive Fired : Type :=
| FRoomCount (n : Z)
| FConnect (id : string)
| FDisconnect (id : string)
| FFullConnect.

Record Mesh : Type := mkMesh {
  heap : Heap;
  peers : obj nat;
  roomCount : Z;
  fired : list Fired
}.

Definition constructor : Mesh := mkMesh [] [] (-1)%Z [].

Definition fire (f : Fired) (s : Mesh) : Mesh :=
  mkMesh (heap s) (peers s) (roomCount s) (fired s ++ [f]).

Definition with_heap (h : Heap) (s : Mesh) : Mesh :=
  mkMesh h (peers s) (roomCount s) (fired s).

Definition with_peers (ps : obj nat) (s : Mesh) : Mesh :=
  mkMesh (heap s) ps (roomCount s) (fired s).

Definition with_roomCount (n : Z) (s : Mesh) : Mesh :=
  mkMesh (heap s) (peers s) n (fired s).

(** [getConnectedPeerCount()] *)
Definition getConnectedPeerCount (s : Mesh) : nat :=
  List.length (filter (fun kv => is_connected (heap s) (snd kv)) (peers s)).

(** [checkFullConnect()] *)
Definition checkFullConnect (s : Mesh) : Mesh :=
  let peerCount := getConnectedPeerCount s in
  if (roomCount s <=? Z.of_nat peerCount + 1)%Z then fire FFullConnect s else s.

(** [createPeer(socketId, initiator)] *)
Definition createPeer (id : string) (init : bool) (s : Mesh) : nat * Mesh :=
  let (r, h) := alloc (new_Peer id init true None) (heap s) in
  (r, with_heap h s).

Definition on_roomCount (n : Z) (s : Mesh) : Mesh :=
  checkFullConnect (fire (FRoomCount n) (with_roomCount n s)).

Definition on_initialize (id : string) (s : Mesh) : Mesh :=
  let (r, s1) := createPeer id true s in
  with_peers (set id r (peers s1)) s1.

(** ['destroy']: no [try] around [peer.destroy()] here. *)
Definition on_destroy (id : string) (s : Mesh) : Completion Mesh :=
  match get id (peers s) with
  | Some r =>
      match nth_error (heap s) r with
      | Some p =>
          match Peer_destroy p with
          | Normal p' =>
              let s1 := with_heap (update r (fun _ => p') (heap s)) s in
              Normal (fire (FDisconnect id) (with_peers (delete id (peers s1)) s1))
          | Throw e => Throw e
          end
      | None => Normal s
      end
  | None => Normal s
  end.

Definition on_signal (id : string) (data : Payload) (s : Mesh) : Mesh :=
  let s1 := if hasOwnProperty id (peers s) then s
            else let (r, s') := createPeer id false s in
                 with_peers (set id r (peers s')) s' in
  match get id (peers s1) with
  | Some r => with_heap (update r (Peer_signal data) (heap s1)) s1
  | None => s1
  end.

Definition peer_on_connect (id : string) (s : Mesh) : Mesh :=
  checkFullConnect (fire (FConnect id) s).

(** [broadcast(message)]: [write] on every entry, nothing encoded. *)
Definition broadcast (m : JsValue) (s : Mesh) : Mesh :=
  with_heap (fold_left (fun h kv => update (snd kv) (Peer_write m) h)
                       (peers s) (heap s)) s.

Inductive Event : Type :=
| SocketRoomCount (n : Z)
| SocketInitialize (id : string)
| SocketDestroy (id : string)
| SocketSignal (id : string) (data : Payload)
| PeerConnects (r : nat)
| PeerCloses (r : nat)
| CallBroadcast (m : JsValue).

Definition step (s : Mesh) (e : Event) : Completion Mesh :=
  match e with
  | SocketRoomCount n => Normal (on_roomCount n s)
  | SocketInitialize id => Normal (on_initialize id s)
  | SocketDestroy id => on_destroy id s
  | SocketSignal id data => Normal (on_signal id data s)
  | PeerConnects r =>
      match nth_error (heap s) r with
      | Some p =>
          if destroyed p then Normal s
          else Normal (peer_on_connect (socketId p)
                         (with_heap (update r Peer_open (heap s)) s))
      | None => Normal s
      end
  | PeerCloses r =>
      match nth_error (heap s) r with
      | Some p =>
          if destroyed p then Normal s
          else Normal (with_heap (update r Peer_close (heap s)) s)
      | None => Normal s
      end
  | CallBroadcast m => Normal (broadcast m s)
  end.

Definition after (s : Mesh) (e : Event) : Mesh :=
  match step s e with
  | Normal s' => s'
  | Throw _ => s
  end.

Definition run (s : Mesh) (es : list Event) : Mesh := fold_left after es s.

End SimplePeerMesh.

(** ** [getServerRooms] (src/MultiPeerMesh.js)

    The relay's room list is fetched over HTTP.  [fetch] followed by
    [response.json()] is a function of the address: [None] when either
    promise is rejected (no connection, a body that is not JSON), the
    parsed value otherwise.  Strings are sequences of bytes; the last
    code unit of a string is ['/'] exactly when its last byte is. *)

Module ServerRooms.
Import JS.
#[local] Open Scope string_scope.

(** [url[url.length - 1]], [undefined] for the empty string. *)
Fixpoint last_code_unit (url : string) : option ascii :=
  match url with
  | EmptyString => None
  | String c EmptyString => Some c
  | String _ rest => last_code_unit rest
  end.

(** The address asked for. *)
Definition rooms_address (url : string) : string :=
  let url := match last_code_unit url with
             | Some c => if Ascii.eqb c "/"%char then url else url ++ "/"
             | None => url ++ "/"
             end in
  url ++ "rooms".

(** [room.appName === appName] for one element of the response.  Reading
    a property of [null] raises; every other value has no [appName] of its
    own unless it is an object with that member. *)
Definition is_own_room (appName : string) (room : JsValue) : Completion bool :=
  match room with
  | JNull => Throw (TypeError "room is null")
  | JObj fields =>
      match get "appName" fields with
      | Some (JStr a) => Normal (String.eqb a appName)
      | _ => Normal false
      end
  | _ => Normal false
  end.

(** [Array.prototype.filter] with that callback: elements in order, the
    first raise ends it. *)
Fixpoint filter_rooms (appName : string) (rooms : list JsValue)
  : Completion (list JsValue) :=
  match rooms with
  | [] => Normal []
  | room :: rest =>
      match is_own_room appName room with
      | Throw e => Throw e
      | Normal keep =>
          match filter_rooms appName rest with
          | Throw e => Throw e
          | Normal kept => Normal (if keep then room :: kept else kept)
          end
      end
  end.

(** [getServerRooms(url)]: the value its promise is fulfilled with.  A
    response that is no array has no [filter] to call, which raises as
    well; [catch] turns every raise into [null]. *)
Definition getServerRooms (fetch : string -> option JsValue) (appName url : string)
  : JsValue :=
  match fetch (rooms_address url) with
  | Some (JArr rooms) =>
      match filter_rooms appName rooms with
      | Normal kept => JArr kept
      | Throw _ => JNull
      end
  | _ => JNull
  end.

(** A room of the application: an object whose [appName] is the
    application's name. *)
Definition own_room (appName : string) (room : JsValue) : bool :=
  match room with
  | JObj fields =>
      match get "appName" fields with
      | Some (JStr a) => String.eqb a appName
      | _ => false
      end
  | _ => false
  end.

Definition is_null (v : JsValue) : bool :=
  match v with JNull => true | _ => false end.

End ServerRooms.

(** ** [SimplePeerMesh]: [join] and the listener registry

    [_events] maps an event name to the array of its listeners.  A
    listener is a function object; [indexOf] tells two of them apart by
    identity.  The registry holds functions of the application and the
    closures that [join] creates.  A function of the application is taken
    not to call back into the orchestrator; what it does elsewhere is not
    modelled.  [called] is the log of the calls made, in order. *)

Module Registry.
Import JS Transport.

Inductive Listener : Type :=
| Handler (f : nat)
| roomCountEventCallback (j : nat)
| fullConnectEventCallback (j : nat) (k : nat).

Definition Listener_eqb (a b : Listener) : bool :=
  match a, b with
  | Handler f, Handler f' => Nat.eqb f f'
  | roomCountEventCallback j, roomCountEventCallback j' => Nat.eqb j j'
  | fullConnectEventCallback j k, fullConnectEventCallback j' k' =>
      Nat.eqb j j' && Nat.eqb k k'
  | _, _ => false
  end.

(** [mesh]: the peer map, the room count and the log of [fire] calls.
    [promises]: the promise returned by each call of [join], in call
    order; [j] in a closure is the place of its promise.  [closures]
    numbers the [fullConnectEventCallback] closures created so far. *)
Record Mesh : Type := mkMesh {
  mesh : SimplePeerMesh.Mesh;
  _events : obj (list Listener);
  joined : list string;
  promises : list Promise;
  closures : nat;
  called : list Listener
}.

Definition constructor : Mesh :=
  mkMesh SimplePeerMesh.constructor [] [] [] 0 [].

Definition with_mesh (m : SimplePeerMesh.Mesh) (s : Mesh) : Mesh :=
  mkMesh m (_events s) (joined s) (promises s) (closures s) (called s).

Definition with_events (ev : obj (list Listener)) (s : Mesh) : Mesh :=
  mkMesh (mesh s) ev (joined s) (promises s) (closures s) (called s).

Definition with_promises (ps : list Promise) (s : Mesh) : Mesh :=
  mkMesh (mesh s) (_events s) (joined s) ps (closures s) (called s).

(** [this._events[event]], empty when there is none. *)
Definition listeners (event : string) (s : Mesh) : list Listener :=
  match get event (_events s) with
  | Some arr => arr
  | None => []
  end.

(** [arr.indexOf(fun)] *)
Fixpoint indexOf (f : Listener) (arr : list Listener) : Z :=
  match arr with
  | [] => (-1)%Z
  | g :: rest =>
      if Listener_eqb g f then 0%Z
      else let i := indexOf f rest in
           if (i <? 0)%Z then (-1)%Z else (i + 1)%Z
  end.

(** [arr.splice(start, 1)]: a negative [start] counts from the end. *)
Definition splice (start : Z) (arr : list Listener) : list Listener :=
  let len := Z.of_nat (List.length arr) in
  let from := if (start <? 0)%Z then Z.max (len + start) 0 else Z.min start len in
  firstn (Z.to_nat from) arr ++ skipn (S (Z.to_nat from)) arr.

(** [off(event, fun)] *)
Definition off (event : string) (f : Listener) (s : Mesh) : Mesh :=
  match get event (_events s) with
  | Some arr => with_events (set event (splice (indexOf f arr) arr) (_events s)) s
  | None => s
  end.

(** [on(event, fun)] *)
Definition on (event : string) (f : Listener) (s : Mesh) : Mesh :=
  with_events (set event (listeners event s ++ [f]) (_events s)) s.

(** [resolve()] of the promise of the [j]-th [join]. *)
Definition resolve_join (j : nat) (s : Mesh) : Mesh :=
  with_promises (MultiPeerMesh.update_nth j resolve (promises s)) s.

(** One call of a listener.  The bodies are those of the two closures of
    [join]; every run of [roomCountEventCallback] creates a new
    [fullConnectEventCallback]. *)
Definition call (f : Listener) (s : Mesh) : Mesh :=
  let s := mkMesh (mesh s) (_events s) (joined s) (promises s) (closures s)
                  (called s ++ [f]) in
  match f with
  | Handler _ => s
  | roomCountEventCallback j =>
      let s1 :=
        if (SimplePeerMesh.roomCount (mesh s) =? 1)%Z then resolve_join j s
        else
          let k := closures s in
          on "fullConnect" (fullConnectEventCallback j k)
             (mkMesh (mesh s) (_events s) (joined s) (promises s) (S k) (called s)) in
      off "roomCount" (roomCountEventCallback j) s1
  | fullConnectEventCallback j k =>
      off "fullConnect" (fullConnectEventCallback j k) (resolve_join j s)
  end.

(** The loop of [fire]: [for (let fun of this._events[event])] reads the
    array anew at every step, at the next index, until the index is past
    its end.  The array of an event is created once and then changed in
    place, so reading it from [_events] gives the array the loop runs
    over.  The result is the index the loop stopped at and the state. *)
Fixpoint fire_from (fuel : nat) (event : string) (i : nat) (s : Mesh) : nat * Mesh :=
  match fuel with
  | O => (i, s)
  | S fuel' =>
      match nth_error (listeners event s) i with
      | Some f => fire_from fuel' event (S i) (call f s)
      | None => (i, s)
      end
  end.

Definition is_roomCountEventCallback (f : Listener) : bool :=
  match f with roomCountEventCallback _ => true | _ => false end.

(** Steps that are enough for the loop from index [i]: every listener
    left, and one more for each that may add one. *)
Definition steps_left (event : string) (i : nat) (s : Mesh) : nat :=
  let rest := skipn i (listeners event s) in
  List.length rest + List.length (filter is_roomCountEventCallback rest).

Definition event_name (f : SimplePeerMesh.Fired) : string :=
  match f with
  | SimplePeerMesh.FRoomCount _ => "roomCount"
  | SimplePeerMesh.FConnect _ => "connect"
  | SimplePeerMesh.FDisconnect _ => "disconnect"
  | SimplePeerMesh.FFullConnect => "fullConnect"
  end.

(** [fire(event, ...parameters)], for any event name. *)
Definition fire_event (event : string) (s : Mesh) : Mesh :=
  snd (fire_from (steps_left event 0 s) event 0 s).

(** [fire] of one of the four events of the mesh, which [fired] logs. *)
Definition fire (f : SimplePeerMesh.Fired) (s : Mesh) : Mesh :=
  fire_event (event_name f) (with_mesh (SimplePeerMesh.fire f (mesh s)) s).

(** What else a transport object notifies; [createPeer] passes each on by
    a [fire] under the same name. *)
Inductive PeerNotice : Type := OnError | OnData | OnStream | OnTrack.

Definition notice_name (what : PeerNotice) : string :=
  match what with
  | OnError => "error"
  | OnData => "data"
  | OnStream => "stream"
  | OnTrack => "track"
  end.

(** [checkFullConnect()] *)
Definition checkFullConnect (s : Mesh) : Mesh :=
  let peerCount := SimplePeerMesh.getConnectedPeerCount (mesh s) in
  if (SimplePeerMesh.roomCount (mesh s) <=? Z.of_nat peerCount + 1)%Z
  then fire SimplePeerMesh.FFullConnect s else s.

(** The socket's ['roomCount'] listener. *)
Definition on_roomCount (n : Z) (s : Mesh) : Mesh :=
  checkFullConnect
    (fire (SimplePeerMesh.FRoomCount n)
          (with_mesh (SimplePeerMesh.with_roomCount n (mesh s)) s)).

(** The socket's ['destroy'] listener. *)
Definition on_destroy (id : string) (s : Mesh) : Completion Mesh :=
  let m := mesh s in
  match get id (SimplePeerMesh.peers m) with
  | Some r =>
      match nth_error (SimplePeerMesh.heap m) r with
      | Some p =>
          match Peer_destroy p with
          | Normal p' =>
              let m1 := SimplePeerMesh.with_heap
                          (update r (fun _ => p') (SimplePeerMesh.heap m)) m in
              let m2 := SimplePeerMesh.with_peers
                          (delete id (SimplePeerMesh.peers m1)) m1 in
              Normal (fire (SimplePeerMesh.FDisconnect id) (with_mesh m2 s))
          | Throw e => Throw e
          end
      | None => Normal s
      end
  | None => Normal s
  end.

(** A peer's ['connect'] listener. *)
Definition peer_on_connect (id : string) (s : Mesh) : Mesh :=
  checkFullConnect (fire (SimplePeerMesh.FConnect id) s).

(** [join(room)]: the place of the promise it returns, and the state. *)
Definition join (room : string) (s : Mesh) : nat * Mesh :=
  let j := List.length (promises s) in
  (j, on "roomCount" (roomCountEventCallback j)
         (mkMesh (mesh s) (_events s) (joined s ++ [room])
                 (promises s ++ [Pending]) (closures s) (called s))).

Inductive Event : Type :=
| Socket (e : SimplePeerMesh.Event)
| PeerNotifies (r : nat) (what : PeerNotice)
| CallJoin (room : string)
| CallOn (event : string) (f : nat)
| CallOff (event : string) (f : nat).

Definition step (s : Mesh) (e : Event) : Completion Mesh :=
  match e with
  | Socket (SimplePeerMesh.SocketRoomCount n) => Normal (on_roomCount n s)
  | Socket (SimplePeerMesh.SocketDestroy id) => on_destroy id s
  | Socket (SimplePeerMesh.PeerConnects r) =>
      match nth_error (SimplePeerMesh.heap (mesh s)) r with
      | Some p =>
          if destroyed p then Normal s
          else Normal (peer_on_connect (socketId p)
                         (with_mesh (SimplePeerMesh.with_heap
                                       (update r Peer_open (SimplePeerMesh.heap (mesh s)))
                                       (mesh s)) s))
      | None => Normal s
      end
  | Socket e' =>
      match SimplePeerMesh.step (mesh s) e' with
      | Normal m => Normal (with_mesh m s)
      | Throw err => Throw err
      end
  | PeerNotifies r what =>
      match nth_error (SimplePeerMesh.heap (mesh s)) r with
      | Some p =>
          if destroyed p then Normal s
          else Normal (fire_event (notice_name what) s)
      | None => Normal s
      end
  | CallJoin room => Normal (snd (join room s))
  | CallOn event f => Normal (on event (Handler f) s)
  | CallOff event f => Normal (off event (Handler f) s)
  end.

Definition after (s : Mesh) (e : Event) : Mesh :=
  match step s e with
  | Normal s' => s'
  | Throw _ => s
  end.

Definition run (s : Mesh) (es : list Event) : Mesh := fold_left after es s.

(** The calls made since an earlier state. *)
Definition calls_since (s s' : Mesh) : list Listener :=
  skipn (List.length (called s)) (called s').

Definition is_Handler (f : Listener) : bool :=
  match f with Handler _ => true | _ => false end.

(** [arr] without the first occurrence of [f]. *)
Fixpoint remove_first (f : Listener) (arr : list Listener) : list Listener :=
  match arr with
  | [] => []
  | g :: rest => if Listener_eqb g f then rest else g :: remove_first f rest
  end.

(** The events of a history that the mesh handles without the registry's
    help: those of the socket, and the connects and closes of peers. *)
Definition socket_events (es : list Event) : list SimplePeerMesh.Event :=
  flat_map (fun e => match e with Socket e' => [e'] | _ => [] end) es.

(** The [join] whose closure a listener is. *)
Definition owner (f : Listener) : option nat :=
  match f with
  | Handler _ => None
  | roomCountEventCallback j => Some j
  | fullConnectEventCallback j _ => Some j
  end.

(** The state with further calls logged. *)
Definition log_calls (fs : list Listener) (s : Mesh) : Mesh :=
  mkMesh (mesh s) (_events s) (joined s) (promises s) (closures s) (called s ++ fs).

End Registry.

(** ** The vocabulary of the properties *)

(** The entries of a peer map filed under one identity. *)
Definition entries_of (id : string) (o : obj nat) : list (string * nat) :=
  filter (fun kv => String.eqb (fst kv) id) o.

Module MeshSpec.
Import MultiPeerMesh.

(** The waits are those of [join]: on full-connect, with a timer that stays
    armed as long as the promise is pending. *)
Definition full_connect_wait (wt : Wait) : Prop :=
  w_event wt = "full-connect" /\ (w_promise wt = Pending -> w_timer wt = true).

(** What holds in every state the events can lead to: one entry per
    identity, one transport object per entry, every entry's object
    allocated, every wait one of [join]'s, every [join] past its room-count
    wait pointing at its wait. *)
Record Inv (s : Mesh) : Prop := mkInv {
  inv_keys : NoDup (keys (peers s));
  inv_refs : NoDup (values (peers s));
  inv_bound : forall r, In r (values (peers s)) -> r < List.length (heap s);
  inv_waits : Forall full_connect_wait (waits s);
  inv_joins : forall j w,
      nth_error (joins s) j = Some (JAwaitFullConnect w) -> w < List.length (waits s)
}.

(** The events whose handler calls [checkFullConnect]: a room-count update
    and the connect notification of a live transport object. *)
Definition evaluating (s : Mesh) (e : Event) : bool :=
  match e with
  | RelayRoomCount _ => true
  | PeerConnects r => is_alive (heap s) r
  | _ => false
  end.

(** From [s] to [s'] the log grew by some other notifications followed by
    one full-connect per check made, if the predicate holds in [s'], and
    by none if it does not. *)
Definition log_shape (s s' : Mesh) : Prop :=
  checks s <= checks s' /\
  exists pre,
    filter is_full_connect pre = [] /\
    emitted s' = emitted s ++ pre ++
      repeat NFullConnect (if isFullyConnected s' then checks s' - checks s else 0).

(** How one wait can change: its event stays, and a settled promise stays
    as settled. *)
Definition wait_le (wt wt' : Wait) : Prop :=
  w_event wt' = w_event wt /\
  (w_promise wt <> Pending -> w_promise wt' = w_promise wt).

Definition waits_le (ws ws' : list Wait) : Prop :=
  forall w wt, nth_error ws w = Some wt ->
               exists wt', nth_error ws' w = Some wt' /\ wait_le wt wt'.

(** From [ws] to [ws'] no wait on full-connect became fulfilled. *)
Definition quiet_waits (ws ws' : list Wait) : Prop :=
  waits_le ws ws' /\
  forall w wt',
    nth_error ws' w = Some wt' -> w_event wt' = "full-connect" ->
    w_promise wt' = Fulfilled ->
    exists wt, nth_error ws w = Some wt /\ w_promise wt = Fulfilled.

(** The edge-triggered discipline: an event handled while the predicate
    already holds announces nothing. *)
Definition edge_triggered : Prop :=
  forall app trick es e,
    let s := run (constructor app trick) es in
    isFullyConnected s = true -> ~ In NFullConnect (fresh s e).

(** Recomputation on departure: the relay's destroy of a connected entry
    is followed by a fresh evaluation of the predicate. *)
Definition rechecked_on_departure : Prop :=
  forall app trick es id r,
    let s := run (constructor app trick) es in
    get id (peers s) = Some r -> is_connected (heap s) r = true ->
    checks s < checks (after s (RelayDestroy id)).




(** Waiting for the count it was told: a [join] resumed by a room count
    [N > 1] is fulfilled only by an event after which the connected count
    is at least [N - 1]. *)
Definition join_waits_for_told_count : Prop :=
  forall app trick es N es' e j,
    let s0 := run (constructor app trick) es in
    let s := run (after s0 (RelayRoomCount N)) es' in
    nth_error (joins s0) j = Some JAwaitRoomCount -> (1 < N)%Z ->
    joinPromise s j = Pending -> joinPromise (after s e) j = Fulfilled ->
    (N - 1 <= Z.of_nat (getConnectedPeerCount (after s e)))%Z.

(** Clean cancellation: a wait rejected by its timeout has no listener
    left. *)
Definition timeout_unregisters_listener : Prop :=
  forall app trick es w wt,
    let s := after (run (constructor app trick) es) (WaitTimeout w) in
    nth_error (waits s) w = Some wt -> w_promise wt = Rejected ->
    w_listening wt = false.

(** Cancellation by teardown: [destroy()] leaves no wait pending. *)
Definition teardown_cancels_waits : Prop :=
  forall app trick es w wt,
    let s := after (run (constructor app trick) es) CallDestroy in
    nth_error (waits s) w = Some wt -> w_promise wt <> Pending.

End MeshSpec.

(** Further vocabulary of [MultiPeerMesh]: transport objects in and out
    of the peer map. *)
Module MeshSpecMore.
Import MultiPeerMesh.

(** Two states of one transport object: what it was constructed with is
    the same. *)
Definition same_object (p p' : Peer) : Prop :=
  socketId p' = socketId p /\ initiator p' = initiator p /\
  trickle p' = trickle p /\ stream p' = stream p.

(** Every object of [h] is still in [h'], at its index. *)
Definition heap_le (h h' : Heap) : Prop :=
  forall r p, nth_error h r = Some p ->
              exists p', nth_error h' r = Some p' /\ same_object p p'.

(** The object an event allocates, if it allocates one. *)
Definition allocated (s : Mesh) (e : Event) : option Peer :=
  match e with
  | RelayInitialize id =>
      Some (new_Peer id true (trickle_option s) (broadcastedStream s))
  | RelaySignal id data =>
      if hasOwnProperty id (peers s) then None
      else Some (Peer_signal data
                   (new_Peer id false (trickle_option s) (broadcastedStream s)))
  | _ => None
  end.

(** The entry under an identity holds an object made for that identity. *)
Definition tagged (s : Mesh) : Prop :=
  forall id r, get id (peers s) = Some r ->
               exists p, nth_error (heap s) r = Some p /\ socketId p = id.

(** The object at [r] is destroyed. *)
Definition closed_at (h : Heap) (r : nat) : Prop :=
  exists p, nth_error h r = Some p /\ destroyed p = true.

(** A loop over the peer map from [s] to [s'] that ends as [outcome]:
    the map is kept and no object outside it touched; when the transport
    accepts the call on every entry's object, the loop returns normally
    with each of them served; otherwise it ends in a raise at the first
    entry whose object refuses, with the entries before it served and
    that one and those behind it left as they were. *)
Definition serves_until_refusal (accepts : Peer -> bool) (accepted : Peer -> Peer)
           (s s' : Mesh) (outcome : Completion Mesh) : Prop :=
  peers s' = peers s /\
  (forall r, ~ In r (values (peers s)) -> nth_error (heap s') r = nth_error (heap s) r) /\
  ((forall id r p, get id (peers s) = Some r -> nth_error (heap s) r = Some p ->
                   accepts p = true) ->
   outcome = Normal s' /\
   forall id r p, get id (peers s) = Some r -> nth_error (heap s) r = Some p ->
                  nth_error (heap s') r = Some (accepted p)) /\
  (forall before id r behind p,
      peers s = before ++ (id, r) :: behind ->
      (forall id' r' p', In (id', r') before -> nth_error (heap s) r' = Some p' ->
                         accepts p' = true) ->
      nth_error (heap s) r = Some p -> accepts p = false ->
      (exists err, outcome = Throw err) /\
      (forall id' r' p', In (id', r') before -> nth_error (heap s) r' = Some p' ->
                         nth_error (heap s') r' = Some (accepted p')) /\
      nth_error (heap s') r = Some p /\
      (forall id' r', In (id', r') behind ->
                      nth_error (heap s') r' = nth_error (heap s) r')).


(** The object is not closed. *)
Definition is_live (p : Peer) : bool := negb (destroyed p).

(** A [join] still at its room-count wait. *)
Definition awaiting_room_count (j : Join) : bool :=
  match j with JAwaitRoomCount => true | _ => false end.

End MeshSpecMore.

(** The vocabulary of [SimplePeerMesh]. *)
Module SimpleSpec.
Import SimplePeerMesh.


End SimpleSpec.

(** The vocabulary of the listener registry. *)
Module RegistrySpec.
Import Registry.

(** What is left of the loop of [fire] over [l], counted as in
    [steps_left]. *)
Definition weight (l : list Listener) : nat :=
  List.length l + List.length (filter is_roomCountEventCallback l).

(** From [s] to [s'] the promise of the [j]-th [join] stays or goes from
    pending to fulfilled, and stays unless a callback of that [join] was
    called. *)
Definition settles (j : nat) (s s' : Mesh) : Prop :=
  exists calls,
    called s' = called s ++ calls /\
    forall p, nth_error (promises s) j = Some p ->
              exists p', nth_error (promises s') j = Some p' /\
                         (p' = p \/ (p = Pending /\ p' = Fulfilled)) /\
                         ((forall f, In f calls -> owner f <> Some j) -> p' = p).

(** No callback of the [j]-th [join] is registered for any event. *)
Definition unregistered (j : nat) (s : Mesh) : Prop :=
  forall ev f, In f (listeners ev s) -> owner f <> Some j.

(** The closures of [join] are registered where [join] puts them: a
    room-count callback for ['roomCount'], a full-connect callback for
    ['fullConnect']. *)
Definition placed (s : Mesh) : Prop :=
  forall ev f, In f (listeners ev s) ->
               match f with
               | Handler _ => True
               | roomCountEventCallback _ => ev = "roomCount"
               | fullConnectEventCallback _ _ => ev = "fullConnect"
               end.

(** The test of [checkFullConnect], on the room count in force. *)
Definition complete (m : SimplePeerMesh.Mesh) : bool :=
  (SimplePeerMesh.roomCount m <=? Z.of_nat (SimplePeerMesh.getConnectedPeerCount m) + 1)%Z.

(** The promise of the [j]-th [join] and the number of promises. *)
Definition promises_at (j : nat) (s : Mesh) : option Promise * nat :=
  (nth_error (promises s) j, List.length (promises s)).

End RegistrySpec.

(** * Properties *)

(** ** Objects used as dictionaries *)

Section ObjFacts.
Context {V : Type}.
Implicit Types (o : obj V) (k : string) (v : V).

Lemma get_set_eq k v o : get k (set k v o) = Some v.
Proof.
  induction o as [|[k' v'] rest IH]; simpl.
  - now rewrite String.eqb_refl.
  - destruct (String.eqb k' k) eqn:E; simpl; rewrite E; auto.
Qed.

Lemma get_set_ne k k' v o : k <> k' -> get k' (set k v o) = get k' o.
Proof.
  intros Hne. induction o as [|[k0 v0] rest IH]; simpl.
  - destruct (String.eqb_spec k k'); congruence.
  - destruct (String.eqb_spec k0 k) as [->|Hk]; simpl.
    + destruct (String.eqb_spec k k'); congruence.
    + destruct (String.eqb_spec k0 k'); auto.
Qed.

Lemma get_delete_eq k o : get k (delete k o) = None.
Proof.
  induction o as [|[k' v'] rest IH]; simpl; auto.
  destruct (String.eqb k' k) eqn:E; simpl; auto. now rewrite E.
Qed.

Lemma get_delete_ne k k' o : k <> k' -> get k' (delete k o) = get k' o.
Proof.
  intros Hne. induction o as [|[k0 v0] rest IH]; simpl; auto.
  destruct (String.eqb_spec k0 k) as [->|Hk]; simpl.
  - destruct (String.eqb_spec k k'); congruence.
  - destruct (String.eqb_spec k0 k'); auto.
Qed.

Lemma get_In k v o : get k o = Some v -> In (k, v) o.
Proof.
  induction o as [|[k' v'] rest IH]; simpl; try discriminate.
  destruct (String.eqb_spec k' k) as [->|Hk]; intros H.
  - left. congruence.
  - right. auto.
Qed.

Lemma In_get k v o : NoDup (keys o) -> In (k, v) o -> get k o = Some v.
Proof.
  induction o as [|[k' v'] rest IH]; simpl; intros Hnd Hin; [tauto|].
  inversion Hnd as [|? ? Hnotin Hnd']; subst.
  destruct Hin as [Heq|Hin].
  - inversion Heq; subst. now rewrite String.eqb_refl.
  - destruct (String.eqb_spec k' k) as [->|Hk]; auto.
    exfalso. apply Hnotin. change (In (fst (k, v)) (map fst rest)). now apply in_map.
Qed.

Lemma In_set kv k v o : In kv (set k v o) -> kv = (k, v) \/ In kv o.
Proof.
  induction o as [|[k' v'] rest IH]; simpl.
  - intros [H|[]]; auto.
  - destruct (String.eqb_spec k' k) as [->|Hk]; simpl; intros [H|H]; auto.
    destruct (IH H); auto.
Qed.

Lemma In_delete kv k o : In kv (delete k o) -> In kv o /\ fst kv <> k.
Proof.
  induction o as [|[k' v'] rest IH]; simpl; [tauto|].
  destruct (String.eqb_spec k' k) as [->|Hk]; simpl.
  - intros H. destruct (IH H). auto.
  - intros [H|H]; [subst; auto | destruct (IH H); auto].
Qed.

Lemma keys_set_In k' k v o : In k' (keys (set k v o)) -> k' = k \/ In k' (keys o).
Proof.
  unfold keys. intros H. apply in_map_iff in H as [kv [<- Hin]].
  apply In_set in Hin as [->|Hin]; auto. right. now apply in_map.
Qed.

Lemma values_set_In v' k v o : In v' (values (set k v o)) -> v' = v \/ In v' (values o).
Proof.
  unfold values. intros H. apply in_map_iff in H as [kv [<- Hin]].
  apply In_set in Hin as [->|Hin]; auto. right. now apply in_map.
Qed.

Lemma NoDup_keys_set k v o : NoDup (keys o) -> NoDup (keys (set k v o)).
Proof.
  induction o as [|[k' v'] rest IH]; simpl; intros Hnd.
  - constructor; [intros [] | constructor].
  - inversion Hnd as [|? ? Hnotin Hnd']; subst.
    destruct (String.eqb_spec k' k) as [->|Hk]; simpl.
    + now constructor.
    + constructor; auto. intros Hin. apply keys_set_In in Hin as [->|Hin]; auto.
Qed.

Lemma NoDup_keys_delete k o : NoDup (keys o) -> NoDup (keys (delete k o)).
Proof.
  induction o as [|[k' v'] rest IH]; simpl; intros Hnd; auto.
  inversion Hnd as [|? ? Hnotin Hnd']; subst.
  destruct (String.eqb_spec k' k) as [->|Hk]; simpl; auto.
  constructor; auto. intros Hin. apply Hnotin.
  unfold keys in *. apply in_map_iff in Hin as [kv [<- Hin]].
  apply In_delete in Hin as [Hin _]. now apply in_map.
Qed.

Lemma NoDup_values_set k v o :
  NoDup (values o) -> ~ In v (values o) -> NoDup (values (set k v o)).
Proof.
  induction o as [|[k' v'] rest IH]; simpl; intros Hnd Hfresh.
  - constructor; [intros [] | constructor].
  - inversion Hnd as [|? ? Hnotin Hnd']; subst.
    destruct (String.eqb_spec k' k) as [->|Hk]; simpl.
    + constructor; auto.
    + constructor; auto. intros Hin. apply values_set_In in Hin as [->|Hin]; auto.
Qed.

Lemma NoDup_values_delete k o : NoDup (values o) -> NoDup (values (delete k o)).
Proof.
  induction o as [|[k' v'] rest IH]; simpl; intros Hnd; auto.
  inversion Hnd as [|? ? Hnotin Hnd']; subst.
  destruct (String.eqb_spec k' k) as [->|Hk]; simpl; auto.
  constructor; auto. intros Hin. apply Hnotin.
  unfold values in *. apply in_map_iff in Hin as [kv [<- Hin]].
  apply In_delete in Hin as [Hin _]. now apply in_map.
Qed.

(** With one entry per key, the entries under [k] are at most one. *)
Lemma NoDup_keys_count k o :
  NoDup (keys o) -> List.length (filter (fun kv => String.eqb (fst kv) k) o) <= 1.
Proof.
  induction o as [|[k' v'] rest IH]; simpl; intros Hnd; [lia|].
  inversion Hnd as [|? ? Hnotin Hnd']; subst.
  destruct (String.eqb_spec k' k) as [->|Hk]; simpl; auto.
  assert (filter (fun kv => String.eqb (fst kv) k) rest = []) as ->; [|simpl; lia].
  destruct (filter _ rest) as [|kv l] eqn:E; auto.
  exfalso. apply Hnotin.
  assert (In kv (filter (fun kv => String.eqb (fst kv) k) rest)) as Hin by (rewrite E; now left).
  apply filter_In in Hin as [Hin Hk].
  apply String.eqb_eq in Hk. subst k. now apply in_map.
Qed.

End ObjFacts.

(** ** The store of transport objects *)

Lemma update_at r f (h : Heap) p :
  nth_error h r = Some p -> update r (fun _ => f p) h = update r f h.
Proof.
  revert r. induction h as [|q rest IH]; intros [|r] H; simpl in *; try congruence.
  now rewrite IH.
Qed.

Lemma update_absent r f (h : Heap) : nth_error h r = None -> update r f h = h.
Proof.
  revert r. induction h as [|q rest IH]; intros [|r] H; simpl in *; try congruence.
  now rewrite IH.
Qed.

Lemma update_length r f (h : Heap) : List.length (update r f h) = List.length h.
Proof.
  revert r. induction h as [|p rest IH]; intros [|r]; simpl; auto.
Qed.

Lemma nth_error_update_eq r f (h : Heap) :
  nth_error (update r f h) r = option_map f (nth_error h r).
Proof.
  revert r. induction h as [|p rest IH]; intros [|r]; simpl; auto.
Qed.

Lemma nth_error_update_ne r r' f (h : Heap) :
  r <> r' -> nth_error (update r f h) r' = nth_error h r'.
Proof.
  revert r r'. induction h as [|p rest IH]; intros [|r] [|r'] Hne; simpl; auto; try lia.
Qed.

Lemma update_nth_length {A} i (f : A -> A) (l : list A) :
  List.length (MultiPeerMesh.update_nth i f l) = List.length l.
Proof.
  revert i. induction l as [|x rest IH]; intros [|i]; simpl; auto.
Qed.

Lemma nth_error_update_nth_eq {A} i (f : A -> A) (l : list A) :
  nth_error (MultiPeerMesh.update_nth i f l) i = option_map f (nth_error l i).
Proof.
  revert i. induction l as [|x rest IH]; intros [|i]; simpl; auto.
Qed.

Lemma nth_error_update_nth_ne {A} i i' (f : A -> A) (l : list A) :
  i <> i' -> nth_error (MultiPeerMesh.update_nth i f l) i' = nth_error l i'.
Proof.
  revert i i'. induction l as [|x rest IH]; intros [|i] [|i'] Hne; simpl; auto; try lia.
Qed.

Lemma try_destroy_length r (h : Heap) : List.length (try_destroy r h) = List.length h.
Proof.
  unfold try_destroy. destruct (nth_error h r) as [p|]; auto.
  destruct (Peer_destroy p); auto using update_length.
Qed.

(** ** Calls the transport may refuse *)

Lemma Peer_send_accepted m p p' : Peer_send m p = Normal p' -> p' = record_send m p.
Proof.
  unfold Peer_send. destruct (destroyed p); [discriminate|].
  destruct (connected p); [|discriminate]. congruence.
Qed.

Lemma Peer_addStream_accepted st p p' :
  Peer_addStream st p = Normal p' -> p' = record_addStream st p.
Proof. unfold Peer_addStream. destruct (destroyed p); [discriminate|congruence]. Qed.

Lemma Peer_removeStream_accepted st p p' :
  Peer_removeStream st p = Normal p' -> p' = record_removeStream st p.
Proof. unfold Peer_removeStream. destruct (destroyed p); [discriminate|congruence]. Qed.

Lemma call_peer_length call r (h : Heap) :
  List.length (fst (call_peer call r h)) = List.length h.
Proof.
  unfold call_peer. destruct (nth_error h r) as [p|]; [|reflexivity].
  destruct (call p); simpl; [apply update_length | reflexivity].
Qed.

Lemma call_peer_ne call r r' (h : Heap) :
  r' <> r -> nth_error (fst (call_peer call r h)) r' = nth_error h r'.
Proof.
  intros Hne. unfold call_peer. destruct (nth_error h r) as [p|]; [|reflexivity].
  destruct (call p); simpl; [|reflexivity].
  apply nth_error_update_ne. congruence.
Qed.

(** What the call leaves at [r]: the object as the transport accepted the
    call, or as it was. *)
Lemma call_peer_eq call r (h : Heap) p :
  nth_error h r = Some p ->
  call_peer call r h =
  match call p with
  | Normal p' => (update r (fun _ => p') h, None)
  | Throw e => (h, Some e)
  end.
Proof. intros H. unfold call_peer. now rewrite H. Qed.

Lemma call_peer_at call r (h : Heap) p :
  nth_error h r = Some p ->
  nth_error (fst (call_peer call r h)) r =
  Some match call p with Normal p' => p' | Throw _ => p end.
Proof.
  intros H. rewrite (call_peer_eq _ _ _ _ H). destruct (call p); simpl; [|exact H].
  now rewrite nth_error_update_eq, H.
Qed.

Lemma for_each_peer_length call (l : obj nat) : forall h : Heap,
  List.length (fst (for_each_peer call l h)) = List.length h.
Proof.
  induction l as [|kv rest IH]; simpl; intros h; [reflexivity|].
  pose proof (call_peer_length call (snd kv) h) as Hl.
  destruct (call_peer call (snd kv) h) as [h' [e|]]; simpl in *; [exact Hl|].
  now rewrite IH.
Qed.

Lemma for_each_peer_outside call (l : obj nat) r : forall h : Heap,
  ~ In r (values l) ->
  nth_error (fst (for_each_peer call l h)) r = nth_error h r.
Proof.
  induction l as [|kv rest IH]; simpl; intros h Hnot; [reflexivity|].
  pose proof (call_peer_ne call (snd kv) r h) as Hne.
  destruct (call_peer call (snd kv) h) as [h' [e|]]; simpl in *.
  - apply Hne. intros ->. tauto.
  - rewrite IH by tauto. apply Hne. intros ->. tauto.
Qed.

(** A property of objects that accepted calls keep is kept by the store. *)
Lemma call_peer_keeps {A} (field : Peer -> A) call r (h : Heap) r' :
  (forall p p', call p = Normal p' -> field p' = field p) ->
  option_map field (nth_error (fst (call_peer call r h)) r')
  = option_map field (nth_error h r').
Proof.
  intros Hcall. destruct (Nat.eq_dec r' r) as [->|Hne].
  - destruct (nth_error h r) as [p|] eqn:E.
    + rewrite (call_peer_at _ _ _ _ E). simpl.
      destruct (call p) as [p'|] eqn:Ec; [|reflexivity].
      now rewrite (Hcall _ _ Ec).
    + unfold call_peer. rewrite E. simpl. now rewrite E.
  - now rewrite call_peer_ne.
Qed.

Lemma for_each_peer_keeps {A} (field : Peer -> A) call (l : obj nat) r' :
  (forall p p', call p = Normal p' -> field p' = field p) ->
  forall h : Heap,
    option_map field (nth_error (fst (for_each_peer call l h)) r')
    = option_map field (nth_error h r').
Proof.
  intros Hcall. induction l as [|kv rest IH]; simpl; intros h; [reflexivity|].
  pose proof (call_peer_keeps field call (snd kv) h r' Hcall) as Hk.
  destruct (call_peer call (snd kv) h) as [h' [e|]]; simpl in *; [exact Hk|].
  now rewrite IH.
Qed.

Lemma is_connected_field (h : Heap) r :
  is_connected h r = match option_map connected (nth_error h r) with
                     | Some b => b
                     | None => false
                     end.
Proof. unfold is_connected. now destruct (nth_error h r). Qed.

Lemma call_peer_connected call r (h : Heap) r' :
  (forall p p', call p = Normal p' -> connected p' = connected p) ->
  is_connected (fst (call_peer call r h)) r' = is_connected h r'.
Proof.
  intros H. now rewrite !is_connected_field, (call_peer_keeps connected call r h r' H).
Qed.

Lemma for_each_peer_connected call (l : obj nat) (h : Heap) r' :
  (forall p p', call p = Normal p' -> connected p' = connected p) ->
  is_connected (fst (for_each_peer call l h)) r' = is_connected h r'.
Proof.
  intros H. now rewrite !is_connected_field, (for_each_peer_keeps connected call l r' H h).
Qed.

Lemma Peer_send_connected m p p' : Peer_send m p = Normal p' -> connected p' = connected p.
Proof. intros H. now rewrite (Peer_send_accepted _ _ _ H). Qed.

Lemma Peer_addStream_connected st p p' :
  Peer_addStream st p = Normal p' -> connected p' = connected p.
Proof. intros H. now rewrite (Peer_addStream_accepted _ _ _ H). Qed.

Lemma Peer_removeStream_connected st p p' :
  Peer_removeStream st p = Normal p' -> connected p' = connected p.
Proof. intros H. now rewrite (Peer_removeStream_accepted _ _ _ H). Qed.

Lemma Peer_send_destroyed m p p' : Peer_send m p = Normal p' -> destroyed p' = destroyed p.
Proof. intros H. now rewrite (Peer_send_accepted _ _ _ H). Qed.

Lemma Peer_addStream_destroyed st p p' :
  Peer_addStream st p = Normal p' -> destroyed p' = destroyed p.
Proof. intros H. now rewrite (Peer_addStream_accepted _ _ _ H). Qed.

Lemma Peer_removeStream_destroyed st p p' :
  Peer_removeStream st p = Normal p' -> destroyed p' = destroyed p.
Proof. intros H. now rewrite (Peer_removeStream_accepted _ _ _ H). Qed.

Lemma for_each_peer_app call (l1 l2 : obj nat) : forall h : Heap,
  for_each_peer call (l1 ++ l2) h =
  match for_each_peer call l1 h with
  | (h', None) => for_each_peer call l2 h'
  | (h', Some e) => (h', Some e)
  end.
Proof.
  induction l1 as [|kv rest IH]; simpl; intros h; [reflexivity|].
  destruct (call_peer call (snd kv) h) as [h' [e|]]; [reflexivity | apply IH].
Qed.

(** When the transport accepts the call on the object of every entry, the
    loop runs to its end and every entry's object has taken the call. *)
Lemma for_each_peer_all_accepted call (l : obj nat) : forall h : Heap,
  NoDup (values l) ->
  (forall r, In r (values l) ->
             exists p p', nth_error h r = Some p /\ call p = Normal p') ->
  snd (for_each_peer call l h) = None /\
  forall r p, In r (values l) -> nth_error h r = Some p ->
              exists p', call p = Normal p' /\
                         nth_error (fst (for_each_peer call l h)) r = Some p'.
Proof.
  induction l as [|[k r0] rest IH]; intros h Hnd Hacc.
  - split; [reflexivity | intros r p []].
  - simpl in Hnd. inversion Hnd as [|? ? Hnotin Hnd']; subst.
    destruct (Hacc r0 (or_introl eq_refl)) as (p0 & p0' & Hp0 & Hc0).
    simpl for_each_peer. rewrite (call_peer_eq _ _ _ _ Hp0), Hc0.
    set (h1 := update r0 (fun _ => p0') h).
    assert (Hsame : forall r, r <> r0 -> nth_error h1 r = nth_error h r).
    { intros r Hne. apply nth_error_update_ne. congruence. }
    destruct (IH h1 Hnd') as [Hend Hserved].
    { intros r Hr. assert (r <> r0) by (intros ->; contradiction).
      rewrite Hsame by assumption. apply Hacc. now right. }
    split; [exact Hend|].
    intros r p [<-|Hr] Hp.
    + simpl in Hp. exists p0'. split; [congruence|]. simpl snd.
      rewrite for_each_peer_outside by assumption.
      unfold h1. now rewrite nth_error_update_eq, Hp0.
    + assert (r <> r0) by (intros ->; contradiction).
      apply Hserved; [assumption|]. now rewrite Hsame.
Qed.

(** When the transport refuses the call on the object of one entry and
    accepts it on those before, the loop ends there: the entries before
    are served as by a loop over them alone, and the raise is the
    transport's. *)
Lemma for_each_peer_first_refusal call (before behind : obj nat) k r (h : Heap) p e :
  NoDup (values (before ++ (k, r) :: behind)) ->
  (forall r', In r' (values before) ->
              exists p p', nth_error h r' = Some p /\ call p = Normal p') ->
  nth_error h r = Some p -> call p = Throw e ->
  for_each_peer call (before ++ (k, r) :: behind) h
  = (fst (for_each_peer call before h), Some e).
Proof.
  intros Hnd Hacc Hp Hc. unfold values in Hnd. rewrite map_app in Hnd. simpl in Hnd.
  pose proof (NoDup_remove_2 _ _ _ Hnd) as Hr.
  assert (Hnd1 : NoDup (values before)).
  { apply NoDup_remove_1 in Hnd. now apply NoDup_app_remove_r in Hnd. }
  destruct (for_each_peer_all_accepted call before h Hnd1 Hacc) as [Hend _].
  rewrite for_each_peer_app.
  pose proof (for_each_peer_outside call before r h) as Hout.
  destruct (for_each_peer call before h) as [h1 raised]. simpl in *. subst raised.
  rewrite (call_peer_eq call r h1 p), Hc; [reflexivity|].
  rewrite Hout; [exact Hp|]. intros Hin. apply Hr. apply in_or_app. now left.
Qed.


Lemma NoDup_app_apart {A} (l1 l2 : list A) x :
  NoDup (l1 ++ l2) -> In x l2 -> ~ In x l1.
Proof.
  induction l1 as [|y l1 IH]; simpl; intros Hnd Hx; [tauto|].
  inversion Hnd as [|? ? Hnotin Hnd']; subst.
  intros [->|Hin]; [|now apply (IH Hnd' Hx)].
  apply Hnotin. apply in_or_app. now right.
Qed.


(** An update that leaves [connected] alone leaves [is_connected] alone. *)
Lemma is_connected_update r f (h : Heap) r' :
  (forall p, connected (f p) = connected p) ->
  is_connected (update r f h) r' = is_connected h r'.
Proof.
  intros Hf. unfold is_connected. destruct (Nat.eq_dec r r') as [<-|Hne].
  - rewrite nth_error_update_eq. destruct (nth_error h r); simpl; auto.
  - now rewrite nth_error_update_ne.
Qed.

(** An update that can only clear [connected] can only clear
    [is_connected]. *)
Lemma is_connected_update_le r f (h : Heap) r' :
  (forall p, connected (f p) = true -> connected p = true) ->
  is_connected (update r f h) r' = true -> is_connected h r' = true.
Proof.
  intros Hf. unfold is_connected. destruct (Nat.eq_dec r r') as [<-|Hne].
  - rewrite nth_error_update_eq. destruct (nth_error h r); simpl; auto.
  - now rewrite nth_error_update_ne.
Qed.

Lemma is_connected_try_destroy r (h : Heap) r' :
  is_connected (try_destroy r h) r' = true -> is_connected h r' = true.
Proof.
  unfold try_destroy. destruct (nth_error h r) as [p|] eqn:E; auto.
  unfold Peer_destroy. destruct (destroyed p); auto.
  apply is_connected_update_le. simpl. discriminate.
Qed.

(** A fresh object is not connected: allocation changes no
    [is_connected]. *)
Lemma is_connected_alloc id init trick st (h : Heap) r :
  is_connected (h ++ [new_Peer id init trick st]) r = is_connected h r.
Proof.
  unfold is_connected. destruct (Nat.lt_ge_cases r (List.length h)) as [Hlt|Hge].
  - now rewrite nth_error_app1.
  - rewrite nth_error_app2 by lia.
    replace (nth_error h r) with (@None Peer) by (symmetry; now apply nth_error_None).
    destruct (r - List.length h) as [|[|n]]; reflexivity.
Qed.

(** Counting the entries that satisfy a test. *)
Lemma filter_length_le {A} (f g : A -> bool) (l : list A) :
  (forall x, In x l -> f x = true -> g x = true) ->
  List.length (filter f l) <= List.length (filter g l).
Proof.
  induction l as [|x rest IH]; simpl; intros H; auto.
  assert (IH' := IH (fun y Hy => H y (or_intror Hy))).
  destruct (f x) eqn:Ef.
  - rewrite (H x (or_introl eq_refl) Ef). simpl. lia.
  - destruct (g x); simpl; lia.
Qed.

Lemma filter_length_ext {A} (f g : A -> bool) (l : list A) :
  (forall x, In x l -> f x = g x) ->
  List.length (filter f l) = List.length (filter g l).
Proof.
  intros H. apply Nat.le_antisymm; apply filter_length_le; intros x Hx E.
  - now rewrite <- H.
  - now rewrite H.
Qed.

Lemma filter_set_length_le (f : string * nat -> bool) k v (o : obj nat) :
  f (k, v) = false ->
  List.length (filter f (set k v o)) <= List.length (filter f o).
Proof.
  intros Hf. induction o as [|[k' v'] rest IH]; simpl.
  - rewrite Hf. simpl. lia.
  - destruct (String.eqb_spec k' k) as [->|Hk]; simpl.
    + rewrite Hf. destruct (f (k, v')); simpl; lia.
    + destruct (f (k', v')); simpl; lia.
Qed.

Lemma filter_delete_length_le (f : string * nat -> bool) k (o : obj nat) :
  List.length (filter f (delete k o)) <= List.length (filter f o).
Proof.
  induction o as [|[k' v'] rest IH]; simpl; auto.
  destruct (String.eqb k' k); simpl; destruct (f (k', v')); simpl; lia.
Qed.

(** ** [MultiPeerMesh]: what each operation leaves alone *)

Module MeshProps.
Import MultiPeerMesh MeshSpec.

(** The predicate reads the peer map, the objects in it and the room
    count, nothing else: there is no stored answer. *)
Lemma getConnectedPeerCount_ext s s' :
  heap s' = heap s -> peers s' = peers s ->
  getConnectedPeerCount s' = getConnectedPeerCount s.
Proof. unfold getConnectedPeerCount. now intros -> ->. Qed.

Lemma isFullyConnected_ext s s' :
  heap s' = heap s -> peers s' = peers s -> roomCount s' = roomCount s ->
  isFullyConnected s' = isFullyConnected s.
Proof.
  intros Hh Hp Hr. unfold isFullyConnected.
  now rewrite Hr, (getConnectedPeerCount_ext s s' Hh Hp).
Qed.

Lemma checkFullConnect_heap s : heap (checkFullConnect s) = heap s.
Proof. unfold checkFullConnect. now destruct (isFullyConnected s). Qed.

Lemma checkFullConnect_peers s : peers (checkFullConnect s) = peers s.
Proof. unfold checkFullConnect. now destruct (isFullyConnected s). Qed.

Lemma checkFullConnect_roomCount s : roomCount (checkFullConnect s) = roomCount s.
Proof. unfold checkFullConnect. now destruct (isFullyConnected s). Qed.

Lemma checkFullConnect_joins s : joins (checkFullConnect s) = joins s.
Proof. unfold checkFullConnect. now destruct (isFullyConnected s). Qed.

Lemma checkFullConnect_signalDestroyed s :
  signalDestroyed (checkFullConnect s) = signalDestroyed s.
Proof. unfold checkFullConnect. now destruct (isFullyConnected s). Qed.

Lemma checkFullConnect_checks s : checks (checkFullConnect s) = S (checks s).
Proof. unfold checkFullConnect. now destruct (isFullyConnected s). Qed.

Lemma checkFullConnect_emitted s :
  emitted (checkFullConnect s) =
  emitted s ++ (if isFullyConnected s then [NFullConnect] else []).
Proof.
  unfold checkFullConnect. destruct (isFullyConnected s); simpl; auto.
  now rewrite app_nil_r.
Qed.

Lemma checkFullConnect_waits s :
  waits (checkFullConnect s) =
  if isFullyConnected s then map (once_fire "full-connect") (waits s) else waits s.
Proof. unfold checkFullConnect. now destruct (isFullyConnected s). Qed.

Lemma checkFullConnect_full s :
  isFullyConnected (checkFullConnect s) = isFullyConnected s.
Proof.
  apply isFullyConnected_ext;
    auto using checkFullConnect_heap, checkFullConnect_peers, checkFullConnect_roomCount.
Qed.

(** The resumed [join]s touch the waits, the log and the ghost counter. *)
Lemma join_resume_frame n s j s' :
  join_resume n s = (j, s') ->
  heap s' = heap s /\ peers s' = peers s /\ roomCount s' = roomCount s /\
  joins s' = joins s /\ signalDestroyed s' = signalDestroyed s.
Proof.
  unfold join_resume. destruct (n =? 1)%Z; simpl; intros H; inversion H; subst; simpl;
    repeat split;
    auto using checkFullConnect_heap, checkFullConnect_peers, checkFullConnect_roomCount,
               checkFullConnect_joins, checkFullConnect_signalDestroyed.
Qed.

Lemma resume_joins_frame n js : forall s js' s',
  resume_joins n js s = (js', s') ->
  heap s' = heap s /\ peers s' = peers s /\ roomCount s' = roomCount s /\
  joins s' = joins s /\ signalDestroyed s' = signalDestroyed s.
Proof.
  induction js as [|j rest IH]; simpl; intros s js' s' H.
  - inversion H; subst. auto.
  - destruct j.
    + destruct (join_resume n s) as [j1 s1] eqn:E1.
      destruct (resume_joins n rest s1) as [rest' s2] eqn:E2.
      inversion H; subst.
      apply join_resume_frame in E1 as (? & ? & ? & ? & ?).
      apply IH in E2 as (? & ? & ? & ? & ?).
      repeat split; congruence.
    + destruct (resume_joins n rest s) as [rest' s2] eqn:E2.
      inversion H; subst. eauto.
    + destruct (resume_joins n rest s) as [rest' s2] eqn:E2.
      inversion H; subst. eauto.
    + destruct (resume_joins n rest s) as [rest' s2] eqn:E2.
      inversion H; subst. eauto.
Qed.

Lemma resume_joins_length n js : forall s js' s',
  resume_joins n js s = (js', s') -> List.length js' = List.length js.
Proof.
  induction js as [|j rest IH]; simpl; intros s js' s' H.
  - now inversion H.
  - destruct j.
    + destruct (join_resume n s) as [j1 s1] eqn:E1.
      destruct (resume_joins n rest s1) as [rest' s2] eqn:E2.
      inversion H; subst; simpl; f_equal; eauto.
    + destruct (resume_joins n rest s) as [rest' s2] eqn:E2.
      inversion H; subst; simpl; f_equal; eauto.
    + destruct (resume_joins n rest s) as [rest' s2] eqn:E2.
      inversion H; subst; simpl; f_equal; eauto.
    + destruct (resume_joins n rest s) as [rest' s2] eqn:E2.
      inversion H; subst; simpl; f_equal; eauto.
Qed.

Lemma on_room_count_heap n s : heap (on_room_count n s) = heap s.
Proof.
  unfold on_room_count, signal_update_roomCount.
  destruct (resume_joins n _ _) as [js s3] eqn:E.
  apply resume_joins_frame in E as (Hh & _). simpl. rewrite Hh.
  now rewrite checkFullConnect_heap.
Qed.

Lemma on_room_count_peers n s : peers (on_room_count n s) = peers s.
Proof.
  unfold on_room_count, signal_update_roomCount.
  destruct (resume_joins n _ _) as [js s3] eqn:E.
  apply resume_joins_frame in E as (_ & Hp & _). simpl. rewrite Hp.
  now rewrite checkFullConnect_peers.
Qed.

Lemma on_room_count_roomCount n s : roomCount (on_room_count n s) = Some n.
Proof.
  unfold on_room_count, signal_update_roomCount.
  destruct (resume_joins n _ _) as [js s3] eqn:E.
  apply resume_joins_frame in E as (_ & _ & Hr & _). simpl. rewrite Hr.
  now rewrite checkFullConnect_roomCount.
Qed.




Lemma fold_update_connected (f : Peer -> Peer) (l : obj nat) r : forall h : Heap,
  (forall p, connected (f p) = connected p) ->
  is_connected (fold_left (fun h kv => update (snd kv) f h) l h) r = is_connected h r.
Proof.
  induction l as [|kv rest IH]; simpl; intros h Hf; auto.
  rewrite IH by assumption. now apply is_connected_update.
Qed.

(** [destroy()]'s loop *)
Lemma fold_destroy_entry_heap_length (l : obj nat) : forall s,
  List.length (heap (fold_left destroy_entry l s)) = List.length (heap s).
Proof.
  induction l as [|kv rest IH]; simpl; intros s; auto.
  rewrite IH. simpl. apply try_destroy_length.
Qed.

Lemma fold_destroy_entry_peers (l : obj nat) : forall s,
  peers (fold_left destroy_entry l s) =
  fold_left (fun o kv => delete (fst kv) o) l (peers s).
Proof.
  induction l as [|kv rest IH]; simpl; intros s; auto.
Qed.

Lemma delete_absent {V} k (o : obj V) : ~ In k (keys o) -> delete k o = o.
Proof.
  induction o as [|[k' v'] rest IH]; simpl; intros Hnot; auto.
  destruct (String.eqb_spec k' k) as [->|Hk]; [tauto|].
  f_equal. tauto.
Qed.

Lemma fold_delete_nil {V} (l : obj V) :
  fold_left (fun (o : obj V) kv => delete (fst kv) o) l [] = [].
Proof. induction l as [|kv rest IH]; simpl; auto. Qed.

(** Deleting every key of an object, in order, leaves it empty. *)
Lemma fold_delete_all {V} (l : obj V) : forall o : obj V,
  (forall kv, In kv o -> In (fst kv) (keys l)) ->
  fold_left (fun o kv => delete (fst kv) o) l o = [].
Proof.
  induction l as [|[k v] rest IH]; simpl; intros o Hsub.
  - destruct o as [|kv o']; auto. destruct (Hsub kv (or_introl eq_refl)).
  - apply IH. intros kv Hin. apply In_delete in Hin as [Hin Hne].
    destruct (Hsub kv Hin) as [Heq|Hin']; auto. congruence.
Qed.

Lemma destroy_peers s : peers (destroy s) = [].
Proof.
  unfold destroy, signal_destroy. rewrite fold_destroy_entry_peers. simpl.
  apply fold_delete_all. intros kv Hin. unfold keys. now apply in_map.
Qed.

Lemma fold_destroy_entry_frame (l : obj nat) : forall s,
  let s' := fold_left destroy_entry l s in
  roomCount s' = roomCount s /\ waits s' = waits s /\ joins s' = joins s /\
  emitted s' = emitted s /\ checks s' = checks s /\
  signalDestroyed s' = signalDestroyed s /\ requests s' = requests s /\
  broadcastedStream s' = broadcastedStream s /\ room s' = room s /\
  appName s' = appName s /\ trickle_option s' = trickle_option s.
Proof.
  induction l as [|kv rest IH]; simpl; intros s.
  - repeat split.
  - destruct (IH (destroy_entry s kv)) as (?&?&?&?&?&?&?&?&?&?&?).
    repeat split; simpl in *; congruence.
Qed.

Lemma fold_destroy_entry_connected (l : obj nat) r : forall s,
  is_connected (heap (fold_left destroy_entry l s)) r = true ->
  is_connected (heap s) r = true.
Proof.
  induction l as [|kv rest IH]; simpl; intros s H; auto.
  apply IH in H. simpl in H. now apply is_connected_try_destroy in H.
Qed.

(** ** [MultiPeerMesh]: the invariant of the peer map, the waits and the joins *)

Lemma once_fire_event ev wt : w_event (once_fire ev wt) = w_event wt.
Proof. unfold once_fire. now destruct (w_listening wt && String.eqb (w_event wt) ev). Qed.

Lemma timer_fire_event wt : w_event (timer_fire wt) = w_event wt.
Proof. unfold timer_fire. now destruct (w_timer wt). Qed.

Lemma Forall_once_fire ev ws :
  Forall full_connect_wait ws -> Forall full_connect_wait (map (once_fire ev) ws).
Proof.
  intros H. apply Forall_map. eapply Forall_impl; [|exact H].
  intros wt [Hev Harmed]. unfold full_connect_wait. rewrite once_fire_event.
  split; auto. unfold once_fire.
  destruct (w_listening wt && String.eqb (w_event wt) ev); auto.
  simpl. destruct (w_promise wt); discriminate.
Qed.

Lemma Forall_update_nth {A} (P : A -> Prop) i f (l : list A) :
  (forall x, P x -> P (f x)) -> Forall P l -> Forall P (update_nth i f l).
Proof.
  intros Hf H. revert i. induction H as [|x rest Hx Hrest IH]; intros [|i]; simpl;
    constructor; auto.
Qed.

Lemma checkFullConnect_waits_length s :
  List.length (waits (checkFullConnect s)) = List.length (waits s).
Proof.
  rewrite checkFullConnect_waits. destruct (isFullyConnected s); auto.
  apply length_map.
Qed.

Lemma checkFullConnect_waits_ok s :
  Forall full_connect_wait (waits s) -> Forall full_connect_wait (waits (checkFullConnect s)).
Proof.
  rewrite checkFullConnect_waits. destruct (isFullyConnected s); auto using Forall_once_fire.
Qed.

Lemma join_resume_waits n s j s' :
  join_resume n s = (j, s') ->
  Forall full_connect_wait (waits s) ->
  Forall full_connect_wait (waits s') /\
  List.length (waits s) <= List.length (waits s') /\
  (forall w, j = JAwaitFullConnect w -> w < List.length (waits s')).
Proof.
  unfold join_resume. intros H Hok.
  pose proof (checkFullConnect_waits_length s) as Hlen.
  pose proof (checkFullConnect_waits_ok s Hok) as Hok'.
  destruct (n =? 1)%Z; simpl in H; inversion H; subst; simpl.
  - repeat split; auto; try lia. discriminate.
  - rewrite length_app. simpl. repeat split; try lia.
    + apply Forall_app. split; auto. constructor; [now split|constructor].
    + intros w Hw. inversion Hw. lia.
Qed.

Lemma resume_joins_waits n js : forall s js' s',
  resume_joins n js s = (js', s') ->
  Forall full_connect_wait (waits s) ->
  (forall j w, nth_error js j = Some (JAwaitFullConnect w) -> w < List.length (waits s)) ->
  Forall full_connect_wait (waits s') /\
  List.length (waits s) <= List.length (waits s') /\
  (forall j w, nth_error js' j = Some (JAwaitFullConnect w) -> w < List.length (waits s')).
Proof.
  induction js as [|j0 rest IH]; simpl; intros s js' s' H Hok Hjs.
  - inversion H; subst. repeat split; auto.
  - assert (Hrest : forall s1, List.length (waits s) <= List.length (waits s1) ->
              forall j w, nth_error rest j = Some (JAwaitFullConnect w) ->
                          w < List.length (waits s1)).
    { intros s1 Hle j w Hj. specialize (Hjs (S j) w Hj). lia. }
    destruct j0.
    + destruct (join_resume n s) as [j1 s1] eqn:E1.
      destruct (resume_joins n rest s1) as [rest' s2] eqn:E2.
      inversion H; subst.
      apply join_resume_waits in E1 as (Hok1 & Hle1 & Hj1); auto.
      apply IH in E2 as (Hok2 & Hle2 & Hj2); [|assumption|now apply Hrest].
      repeat split; auto; try lia.
      intros [|j] w Hj; simpl in Hj; eauto.
      inversion Hj; subst. specialize (Hj1 w eq_refl). lia.
    + destruct (resume_joins n rest s) as [rest' s2] eqn:E2.
      inversion H; subst.
      apply IH in E2 as (Hok2 & Hle2 & Hj2); [|assumption|now apply Hrest].
      repeat split; auto.
      intros [|j] w Hj; simpl in Hj; eauto. discriminate.
    + destruct (resume_joins n rest s) as [rest' s2] eqn:E2.
      inversion H; subst.
      apply IH in E2 as (Hok2 & Hle2 & Hj2); [|assumption|now apply Hrest].
      repeat split; auto.
      intros [|j] w Hj; simpl in Hj; eauto. discriminate.
    + destruct (resume_joins n rest s) as [rest' s2] eqn:E2.
      inversion H; subst.
      apply IH in E2 as (Hok2 & Hle2 & Hj2); [|assumption|now apply Hrest].
      repeat split; auto.
      intros [|j] w' Hj; simpl in Hj; eauto.
      inversion Hj; subst. specialize (Hjs 0 w' eq_refl). lia.
Qed.

Lemma Inv_constructor app trick : Inv (constructor app trick).
Proof.
  constructor; simpl; try constructor.
  - intros r [].
  - intros [|j] w H; discriminate.
Qed.

(** A change to other fields, or to objects in place, keeps the invariant. *)
Lemma Inv_frame s s' :
  peers s' = peers s -> List.length (heap s) <= List.length (heap s') ->
  waits s' = waits s -> joins s' = joins s ->
  Inv s -> Inv s'.
Proof.
  intros Hp Hh Hw Hj [K R B W J].
  constructor; rewrite ?Hp, ?Hw, ?Hj; auto.
  intros r Hr. specialize (B r Hr). lia.
Qed.

Lemma Inv_emit n s : Inv s -> Inv (emit n s).
Proof.
  intros [K R B W J]. constructor; simpl; auto using Forall_once_fire.
  intros j w H. rewrite length_map. eauto.
Qed.

Lemma Inv_checkFullConnect s : Inv s -> Inv (checkFullConnect s).
Proof.
  intros H. unfold checkFullConnect. destruct (isFullyConnected s).
  - apply Inv_emit. revert H. now apply Inv_frame.
  - revert H. now apply Inv_frame.
Qed.

(** [this.peers[id] = this.createPeer(id, init)] *)
Lemma Inv_add_peer id p s :
  Inv s ->
  Inv (with_peers (set id (List.length (heap s)) (peers s)) (with_heap (heap s ++ [p]) s)).
Proof.
  intros [K R B W J]. constructor; simpl; auto.
  - now apply NoDup_keys_set.
  - apply NoDup_values_set; auto. intros Hin. specialize (B _ Hin). lia.
  - intros r Hr. rewrite length_app. simpl.
    apply values_set_In in Hr as [->|Hr]; [lia|]. specialize (B _ Hr). lia.
Qed.

Lemma Inv_on_initialize id s : Inv s -> Inv (on_initialize id s).
Proof. intros H. unfold on_initialize, createPeer, alloc. simpl. now apply Inv_add_peer. Qed.

Lemma values_delete_In {V} (v : V) k (o : obj V) :
  In v (values (delete k o)) -> In v (values o).
Proof.
  unfold values. intros H. apply in_map_iff in H as [kv [<- Hin]].
  apply In_delete in Hin as [Hin _]. now apply in_map.
Qed.

Lemma Inv_on_destroy id s : Inv s -> Inv (on_destroy id s).
Proof.
  intros H. unfold on_destroy. destruct (get id (peers s)) as [r|]; auto.
  apply Inv_emit. destruct H as [K R B W J]. constructor; simpl; auto.
  - now apply NoDup_keys_delete.
  - now apply NoDup_values_delete.
  - intros r' Hr. rewrite try_destroy_length. eauto using values_delete_In.
Qed.

Lemma Inv_on_signal id data s : Inv s -> Inv (on_signal id data s).
Proof.
  intros H. unfold on_signal.
  set (s1 := if hasOwnProperty id (peers s) then s else _).
  assert (H1 : Inv s1).
  { subst s1. destruct (hasOwnProperty id (peers s)); auto.
    unfold createPeer, alloc. simpl. now apply Inv_add_peer. }
  destruct (get id (peers s1)) as [r|]; auto.
  revert H1. apply Inv_frame; simpl; auto. rewrite update_length. lia.
Qed.

Lemma Inv_on_room_count n s : Inv s -> Inv (on_room_count n s).
Proof.
  intros H. unfold on_room_count, signal_update_roomCount.
  set (s2 := checkFullConnect _).
  assert (H2 : Inv s2).
  { subst s2. apply Inv_checkFullConnect, Inv_emit. revert H. now apply Inv_frame. }
  destruct (resume_joins n (joins s2) s2) as [js s3] eqn:E.
  pose proof (resume_joins_frame _ _ _ _ _ E) as (Hh & Hp & _).
  apply resume_joins_waits in E as (Hok & Hle & Hj);
    [|apply (inv_waits _ H2)|apply (inv_joins _ H2)].
  destruct H2 as [K R B W J]. constructor; simpl; rewrite ?Hp, ?Hh; auto.
Qed.

Lemma Inv_from_peer r s k : Inv s -> (forall p, Inv (k p)) -> Inv (from_peer r s k).
Proof.
  intros H Hk. unfold from_peer. destruct (nth_error (heap s) r) as [p|]; auto.
  destruct (destroyed p); auto.
Qed.

Lemma Inv_for_each_peer call s :
  Inv s ->
  Inv (with_heap (fst (for_each_peer call (peers s) (heap s))) s).
Proof.
  apply Inv_frame; simpl; auto. rewrite for_each_peer_length. lia.
Qed.

Lemma Inv_call_peer call r s :
  Inv s -> Inv (with_heap (fst (call_peer call r (heap s))) s).
Proof.
  apply Inv_frame; simpl; auto. rewrite call_peer_length. lia.
Qed.

Lemma Inv_fold_destroy_entry l : forall s, Inv s -> Inv (fold_left destroy_entry l s).
Proof.
  induction l as [|kv rest IH]; simpl; intros s H; auto.
  apply IH. destruct H as [K R B W J]. constructor; simpl; auto.
  - now apply NoDup_keys_delete.
  - now apply NoDup_values_delete.
  - intros r' Hr. rewrite try_destroy_length. eauto using values_delete_In.
Qed.

Lemma Inv_stream_op call id s :
  Inv s ->
  Inv (fst (if hasOwnProperty (stream_check_key id) (peers s) then
              match get id (peers s) with
              | Some r => served s (call_peer call r (heap s))
              | None => (s, Some (TypeError "this.peers[id] is undefined"))
              end
            else (s, None))).
Proof.
  intros H. destruct (hasOwnProperty _ _); auto.
  destruct (get id (peers s)) as [r|]; auto.
  now apply Inv_call_peer.
Qed.

(** The invariant holds after every event. *)
Lemma Inv_after s e : Inv s -> Inv (after s e).
Proof.
  intros H. unfold after. destruct e; simpl;
    unfold on_socket_id, peer_on_signal, peer_on_connect, peer_on_data, peer_on_stream,
           peer_on_track, peer_on_error, peer_on_close, create, join, request;
    auto using Inv_on_room_count, Inv_emit, Inv_on_initialize, Inv_on_destroy, Inv_on_signal.
  - (* PeerSignals *) apply Inv_from_peer; auto. intros p. revert H. now apply Inv_frame.
  - (* PeerConnects *) apply Inv_from_peer; auto. intros p.
    apply Inv_checkFullConnect, Inv_emit. revert H.
    apply Inv_frame; simpl; auto. rewrite update_length. lia.
  - apply Inv_from_peer; auto. intros p. now apply Inv_emit.
  - apply Inv_from_peer; auto. intros p. now apply Inv_emit.
  - apply Inv_from_peer; auto. intros p. now apply Inv_emit.
  - apply Inv_from_peer; auto. intros p. now apply Inv_emit.
  - (* PeerCloses *) apply Inv_from_peer; auto. intros p. revert H.
    apply Inv_frame; simpl; auto. rewrite update_length. lia.
  - (* RoomCountTimeout *)
    destruct H as [K R B W J]. constructor; simpl; auto.
    intros j' w Hj. apply (J j' w).
    destruct (Nat.eq_dec j j') as [<-|Hne].
    + rewrite nth_error_update_nth_eq in Hj.
      destruct (nth_error (joins s) j) as [[]|]; simpl in Hj; congruence.
    + now rewrite nth_error_update_nth_ne in Hj.
  - (* WaitTimeout *)
    destruct H as [K R B W J]. constructor; simpl; auto.
    + apply Forall_update_nth; auto. intros wt Hwt.
      destruct Hwt as [Hev Harmed]. unfold full_connect_wait.
      rewrite timer_fire_event. split; auto. unfold timer_fire.
      destruct (w_timer wt).
      * simpl. destruct (w_promise wt); discriminate.
      * intros Hp. discriminate (Harmed Hp).
    + intros j' w' Hj. rewrite update_nth_length. eauto.
  - (* CallCreate *) revert H. now apply Inv_frame.
  - (* CallJoin *)
    destruct H as [K R B W J]. constructor; simpl; auto.
    intros j w Hj. apply (J j w).
    destruct (Nat.lt_ge_cases j (List.length (joins s))) as [Hlt|Hge].
    + now rewrite nth_error_app1 in Hj.
    + rewrite nth_error_app2 in Hj by assumption.
      destruct (j - List.length (joins s)) as [|[|k]]; discriminate.
  - (* CallBroadcast *) now apply Inv_for_each_peer.
  - (* CallSend *) unfold send. destruct (get id (peers s)) as [r|]; auto.
    now apply Inv_call_peer.
  - (* CallBroadcastStream *)
    revert H. apply Inv_frame; simpl; auto. rewrite for_each_peer_length. lia.
  - (* CallSendStream *) now apply (Inv_stream_op (Peer_addStream st)).
  - (* CallRemoveStream *) now apply (Inv_stream_op (Peer_removeStream st)).
  - (* CallBroadcastRemoveStream *)
    revert H. apply Inv_frame; simpl; auto. rewrite for_each_peer_length. lia.
  - (* CallDestroy *) unfold destroy, signal_destroy. apply Inv_fold_destroy_entry.
    revert H. now apply Inv_frame.
Qed.

Lemma Inv_run es : forall s, Inv s -> Inv (run s es).
Proof.
  induction es as [|e rest IH]; simpl; intros s H; auto using Inv_after.
Qed.

(** ** [MultiPeerMesh]: the connected count never rises without a check *)

Lemma full_mono s s' :
  roomCount s' = roomCount s ->
  getConnectedPeerCount s' <= getConnectedPeerCount s ->
  isFullyConnected s' = true -> isFullyConnected s = true.
Proof.
  unfold isFullyConnected. intros -> Hle. destruct (roomCount s) as [n|]; auto.
  rewrite !Z.leb_le. lia.
Qed.

Lemma count_same_connected s s' :
  peers s' = peers s ->
  (forall r, is_connected (heap s') r = is_connected (heap s) r) ->
  getConnectedPeerCount s' = getConnectedPeerCount s.
Proof.
  intros Hp Hc. unfold getConnectedPeerCount. rewrite Hp.
  apply filter_length_ext. intros kv _. apply Hc.
Qed.

Lemma count_fewer_connected s s' :
  peers s' = peers s ->
  (forall r, is_connected (heap s') r = true -> is_connected (heap s) r = true) ->
  getConnectedPeerCount s' <= getConnectedPeerCount s.
Proof.
  intros Hp Hc. unfold getConnectedPeerCount. rewrite Hp.
  apply filter_length_le. intros kv _. apply Hc.
Qed.

Lemma count_add_peer id p s :
  connected p = false ->
  getConnectedPeerCount
    (with_peers (set id (List.length (heap s)) (peers s)) (with_heap (heap s ++ [p]) s))
  <= getConnectedPeerCount s.
Proof.
  intros Hp. unfold getConnectedPeerCount. simpl.
  assert (Hc : forall r, is_connected (heap s ++ [p]) r = is_connected (heap s) r).
  { intros r. unfold is_connected.
    destruct (Nat.lt_ge_cases r (List.length (heap s))) as [Hlt|Hge].
    - now rewrite nth_error_app1.
    - rewrite nth_error_app2 by lia.
      replace (nth_error (heap s) r) with (@None Peer)
        by (symmetry; now apply nth_error_None).
      destruct (r - List.length (heap s)) as [|[|n]]; simpl; auto. }
  etransitivity.
  - apply filter_set_length_le. simpl. rewrite Hc. unfold is_connected.
    replace (nth_error (heap s) (List.length (heap s))) with (@None Peer); auto.
    symmetry. apply nth_error_None. lia.
  - apply Nat.eq_le_incl, filter_length_ext. intros kv _. apply Hc.
Qed.

Lemma count_on_initialize id s :
  getConnectedPeerCount (on_initialize id s) <= getConnectedPeerCount s.
Proof. unfold on_initialize, createPeer, alloc. simpl. now apply count_add_peer. Qed.

Lemma count_on_destroy id s :
  getConnectedPeerCount (on_destroy id s) <= getConnectedPeerCount s.
Proof.
  unfold on_destroy. destruct (get id (peers s)) as [r|]; auto.
  unfold getConnectedPeerCount. simpl.
  etransitivity; [apply filter_delete_length_le|].
  apply filter_length_le. intros kv _. apply is_connected_try_destroy.
Qed.

Lemma count_on_signal id data s :
  getConnectedPeerCount (on_signal id data s) <= getConnectedPeerCount s.
Proof.
  unfold on_signal.
  set (s1 := if hasOwnProperty id (peers s) then s else _).
  assert (H1 : getConnectedPeerCount s1 <= getConnectedPeerCount s).
  { subst s1. destruct (hasOwnProperty id (peers s)); auto.
    unfold createPeer, alloc. simpl. now apply count_add_peer. }
  destruct (get id (peers s1)) as [r|]; auto.
  etransitivity; [|exact H1]. apply Nat.eq_le_incl, count_same_connected; simpl; auto.
  intros r'. now apply is_connected_update.
Qed.

Lemma count_fold_update f s :
  (forall p, connected (f p) = connected p) ->
  getConnectedPeerCount
    (with_heap (fold_left (fun h kv => update (snd kv) f h) (peers s) (heap s)) s)
  = getConnectedPeerCount s.
Proof.
  intros Hf. apply count_same_connected; simpl; auto.
  intros r. now apply fold_update_connected.
Qed.

Lemma count_for_each_peer call s :
  (forall p p', call p = Normal p' -> connected p' = connected p) ->
  getConnectedPeerCount (with_heap (fst (for_each_peer call (peers s) (heap s))) s)
  = getConnectedPeerCount s.
Proof.
  intros Hf. apply count_same_connected; simpl; auto.
  intros r. now apply for_each_peer_connected.
Qed.

Lemma count_call_peer call r s :
  (forall p p', call p = Normal p' -> connected p' = connected p) ->
  getConnectedPeerCount (with_heap (fst (call_peer call r (heap s))) s)
  = getConnectedPeerCount s.
Proof.
  intros Hf. apply count_same_connected; simpl; auto.
  intros r'. now apply call_peer_connected.
Qed.

Lemma count_destroy s : getConnectedPeerCount (destroy s) = 0.
Proof. unfold getConnectedPeerCount. now rewrite destroy_peers. Qed.

Lemma roomCount_destroy s : roomCount (destroy s) = roomCount s.
Proof.
  unfold destroy, signal_destroy.
  now destruct (fold_destroy_entry_frame (peers (with_signalDestroyed true s))
                                         (with_signalDestroyed true s)) as (-> & _).
Qed.

Lemma full_emit n s : isFullyConnected (emit n s) = isFullyConnected s.
Proof. now apply isFullyConnected_ext. Qed.

Lemma full_on_room_count n s :
  isFullyConnected (on_room_count n s) =
  isFullyConnected (with_roomCount (Some n) s).
Proof.
  apply isFullyConnected_ext; simpl;
    auto using on_room_count_heap, on_room_count_peers, on_room_count_roomCount.
Qed.

(** What the resumed [join]s add to the log: one full-connect per check
    when the predicate holds, nothing otherwise. *)
Lemma join_resume_log n s j s' :
  join_resume n s = (j, s') ->
  checks s' = S (checks s) /\
  emitted s' = emitted s ++ (if isFullyConnected s then [NFullConnect] else []).
Proof.
  unfold join_resume. intros H.
  destruct (n =? 1)%Z; simpl in H; inversion H; subst; simpl;
    now rewrite checkFullConnect_checks, checkFullConnect_emitted.
Qed.

Lemma resume_joins_log n js : forall s js' s',
  resume_joins n js s = (js', s') ->
  exists k, checks s' = checks s + k /\
            emitted s' = emitted s ++ repeat NFullConnect (if isFullyConnected s then k else 0).
Proof.
  induction js as [|j0 rest IH]; simpl; intros s js' s' H.
  - inversion H; subst. exists 0. split; [lia|]. destruct (isFullyConnected s'); simpl;
      now rewrite app_nil_r.
  - destruct j0.
    + destruct (join_resume n s) as [j1 s1] eqn:E1.
      destruct (resume_joins n rest s1) as [rest' s2] eqn:E2.
      inversion H; subst.
      pose proof (join_resume_frame _ _ _ _ E1) as (Hh & Hp & Hr & _).
      apply join_resume_log in E1 as (Hc1 & He1).
      apply IH in E2 as (k & Hc2 & He2).
      rewrite (isFullyConnected_ext s s1 Hh Hp Hr) in He2.
      exists (S k). split; [lia|]. rewrite He2, He1.
      destruct (isFullyConnected s); simpl; now rewrite <- app_assoc.
    + destruct (resume_joins n rest s) as [rest' s2] eqn:E2.
      inversion H; subst. eauto.
    + destruct (resume_joins n rest s) as [rest' s2] eqn:E2.
      inversion H; subst. eauto.
    + destruct (resume_joins n rest s) as [rest' s2] eqn:E2.
      inversion H; subst. eauto.
Qed.

(** An event that runs no check cannot turn the predicate on. *)
Lemma quiet_event_keeps_off s e :
  checks (after s e) = checks s ->
  isFullyConnected (after s e) = true -> isFullyConnected s = true.
Proof.
  unfold after. destruct e; simpl.
  - (* RelayRoomCount *)
    unfold on_room_count, signal_update_roomCount. destruct (resume_joins n _ _) as [js s3] eqn:E. simpl.
    intros Hc. exfalso.
    apply resume_joins_log in E as (k & Hk & _).
    rewrite checkFullConnect_checks in Hk. simpl in Hk, Hc. lia.
  - auto.
  - intros _. apply full_mono; [reflexivity | apply count_on_initialize].
  - intros _. apply full_mono; [|apply count_on_destroy].
    unfold on_destroy. now destruct (get id (peers s)).
  - intros _. apply full_mono; [|apply count_on_signal].
    unfold on_signal. destruct (hasOwnProperty id (peers s)); simpl.
    + now destruct (get id (peers s)).
    + now destruct (get id _).
  - unfold from_peer. destruct (nth_error (heap s) r) as [p|]; auto. now destruct (destroyed p).
  - unfold from_peer. destruct (nth_error (heap s) r) as [p|]; auto.
    destruct (destroyed p); auto.
    unfold peer_on_connect. rewrite checkFullConnect_checks. simpl. lia.
  - unfold from_peer. destruct (nth_error (heap s) r) as [p|]; auto. now destruct (destroyed p).
  - unfold from_peer. destruct (nth_error (heap s) r) as [p|]; auto. now destruct (destroyed p).
  - unfold from_peer. destruct (nth_error (heap s) r) as [p|]; auto. now destruct (destroyed p).
  - unfold from_peer. destruct (nth_error (heap s) r) as [p|]; auto. now destruct (destroyed p).
  - (* PeerCloses *)
    unfold from_peer. destruct (nth_error (heap s) r) as [p|]; auto.
    destruct (destroyed p); auto. intros _. apply full_mono; auto.
    apply count_fewer_connected; auto. simpl. intros r'.
    apply is_connected_update_le. simpl. discriminate.
  - auto.
  - auto.
  - auto.
  - auto.
  - intros _. apply full_mono; auto.
    apply Nat.eq_le_incl, count_for_each_peer, Peer_send_connected.
  - intros _. apply full_mono.
    + unfold send. now destruct (get id (peers s)).
    + unfold send. destruct (get id (peers s)) as [r|]; auto.
      apply Nat.eq_le_incl, count_call_peer, Peer_send_connected.
  - intros _. apply full_mono; auto.
    apply Nat.eq_le_incl,
      (count_for_each_peer (Peer_addStream st) (with_broadcastedStream (Some st) s)),
      Peer_addStream_connected.
  - unfold sendStream. destruct (hasOwnProperty _ _); auto.
    destruct (get id (peers s)) as [r|]; auto.
    intros _. apply full_mono; auto.
    apply Nat.eq_le_incl, count_call_peer, Peer_addStream_connected.
  - unfold removeStream. destruct (hasOwnProperty _ _); auto.
    destruct (get id (peers s)) as [r|]; auto.
    intros _. apply full_mono; auto.
    apply Nat.eq_le_incl, count_call_peer, Peer_removeStream_connected.
  - intros _. apply full_mono; auto.
    apply Nat.eq_le_incl,
      (count_for_each_peer (Peer_removeStream st) (with_broadcastedStream None s)),
      Peer_removeStream_connected.
  - (* CallDestroy *)
    intros _. apply full_mono; auto using roomCount_destroy.
    rewrite count_destroy. lia.
Qed.

(** ** [MultiPeerMesh]: what one event adds to the log *)

Lemma log_shape_quiet s s' pre :
  emitted s' = emitted s ++ pre -> filter is_full_connect pre = [] ->
  checks s' = checks s -> log_shape s s'.
Proof.
  intros He Hp Hc. split; [lia|]. exists pre. split; auto.
  rewrite Hc, Nat.sub_diag. destruct (isFullyConnected s'); simpl; now rewrite app_nil_r.
Qed.

Lemma log_shape_same s s' :
  emitted s' = emitted s -> checks s' = checks s -> log_shape s s'.
Proof. intros He Hc. apply (log_shape_quiet s s' []); auto. now rewrite app_nil_r. Qed.

Lemma log_shape_from_peer r s k :
  (forall p, log_shape s (k p)) -> log_shape s (from_peer r s k).
Proof.
  intros Hk. unfold from_peer. destruct (nth_error (heap s) r) as [p|].
  - destruct (destroyed p); auto. now apply log_shape_same.
  - now apply log_shape_same.
Qed.

Lemma log_shape_check s s0 pre :
  emitted s0 = emitted s ++ pre -> filter is_full_connect pre = [] ->
  checks s0 = checks s ->
  log_shape s (checkFullConnect s0).
Proof.
  intros He Hp Hc. split.
  - rewrite checkFullConnect_checks. lia.
  - exists pre. split; auto.
    rewrite checkFullConnect_emitted, checkFullConnect_checks, checkFullConnect_full, He, Hc.
    replace (S (checks s) - checks s) with 1 by lia.
    rewrite <- app_assoc. now destruct (isFullyConnected s0).
Qed.

Lemma log_shape_on_room_count n s : log_shape s (on_room_count n s).
Proof.
  pose proof (full_on_room_count n s) as Hfull.
  unfold on_room_count, signal_update_roomCount in *.
  set (s1 := emit (NRoomCount n) (with_roomCount (Some n) s)) in *.
  destruct (resume_joins n (joins (checkFullConnect s1)) (checkFullConnect s1))
    as [js s3] eqn:E.
  apply resume_joins_log in E as (k & Hk & He).
  rewrite checkFullConnect_checks in Hk.
  rewrite checkFullConnect_full, checkFullConnect_emitted in He.
  assert (Hs1 : isFullyConnected s1 = isFullyConnected (with_roomCount (Some n) s))
    by apply full_emit.
  simpl in Hk, He.
  split; [simpl; lia|].
  exists [NRoomCount n]. split; auto.
  change (emitted (with_joins js s3)) with (emitted s3).
  change (checks (with_joins js s3)) with (checks s3).
  rewrite Hfull, He, Hk, Hs1.
  replace (S (checks s + k) - checks s) with (S k) by lia.
  rewrite <- !app_assoc. simpl.
  now destruct (isFullyConnected (with_roomCount (Some n) s)).
Qed.

Lemma log_shape_after s e : log_shape s (after s e).
Proof.
  unfold after. destruct e; simpl;
    unfold on_socket_id, peer_on_signal, peer_on_connect, peer_on_data, peer_on_stream,
           peer_on_track, peer_on_error, peer_on_close, create, join, request;
    try (apply log_shape_from_peer; intros p);
    try (now apply log_shape_same);
    try (now eapply log_shape_quiet; [reflexivity | reflexivity | reflexivity]).
  - apply log_shape_on_room_count.
  - (* RelayDestroy *)
    unfold on_destroy. destruct (get id (peers s)); [|now apply log_shape_same].
    now eapply log_shape_quiet; [reflexivity | reflexivity | reflexivity].
  - (* RelaySignal *)
    apply log_shape_same; unfold on_signal;
      (destruct (hasOwnProperty id (peers s)); simpl;
       [now destruct (get id (peers s)) | now destruct (get id _)]).
  - (* PeerConnects *)
    now eapply log_shape_check; [reflexivity | reflexivity | reflexivity].
  - (* CallSend *)
    apply log_shape_same; unfold send; now destruct (get id (peers s)).
  - (* CallSendStream *)
    unfold sendStream. destruct (hasOwnProperty _ _); [|now apply log_shape_same].
    destruct (get id (peers s)); now apply log_shape_same.
  - (* CallRemoveStream *)
    unfold removeStream. destruct (hasOwnProperty _ _); [|now apply log_shape_same].
    destruct (get id (peers s)); now apply log_shape_same.
  - (* CallDestroy *)
    unfold destroy, signal_destroy.
    destruct (fold_destroy_entry_frame (peers (with_signalDestroyed true s))
                                       (with_signalDestroyed true s))
      as (_ & _ & _ & He & Hc & _).
    now apply log_shape_same.
Qed.

Lemma emitted_after s e : emitted (after s e) = emitted s ++ fresh s e.
Proof.
  destruct (log_shape_after s e) as (_ & pre & _ & He).
  unfold fresh. rewrite He, skipn_app, Nat.sub_diag, skipn_all. reflexivity.
Qed.

Lemma fresh_shape s e :
  exists pre,
    filter is_full_connect pre = [] /\
    fresh s e = pre ++
      repeat NFullConnect
        (if isFullyConnected (after s e) then checks (after s e) - checks s else 0).
Proof.
  destruct (log_shape_after s e) as (_ & pre & Hp & He).
  exists pre. split; auto.
  unfold fresh. rewrite He, skipn_app, Nat.sub_diag, skipn_all. reflexivity.
Qed.

Lemma filter_repeat_full k :
  filter is_full_connect (repeat NFullConnect k) = repeat NFullConnect k.
Proof. induction k; simpl; now f_equal. Qed.

Lemma fresh_full_count s e :
  List.length (filter is_full_connect (fresh s e)) =
  if isFullyConnected (after s e) then checks (after s e) - checks s else 0.
Proof.
  destruct (fresh_shape s e) as (pre & Hp & ->).
  rewrite filter_app, Hp, filter_repeat_full. simpl. apply repeat_length.
Qed.

Lemma In_fresh_full s e :
  In NFullConnect (fresh s e) <->
  isFullyConnected (after s e) = true /\ checks s < checks (after s e).
Proof.
  pose proof (fresh_full_count s e) as Hc.
  split.
  - intros Hin.
    assert (Hf : In NFullConnect (filter is_full_connect (fresh s e)))
      by (apply filter_In; auto).
    destruct (filter is_full_connect (fresh s e)) as [|x l]; [destruct Hf|].
    simpl in Hc. destruct (isFullyConnected (after s e)); [|discriminate].
    split; auto. lia.
  - intros [Hfull Hlt]. rewrite Hfull in Hc.
    destruct (filter is_full_connect (fresh s e)) as [|x l] eqn:E; simpl in Hc; [lia|].
    assert (Hx : In x (filter is_full_connect (fresh s e))) by (rewrite E; now left).
    apply filter_In in Hx as [Hx Hfc]. destruct x; try discriminate. exact Hx.
Qed.

(** ** [MultiPeerMesh]: which events run the check *)

Lemma checks_evaluating s e :
  evaluating s e = true -> checks s < checks (after s e).
Proof.
  destruct e; simpl; try discriminate.
  - intros _. unfold after. simpl. unfold on_room_count, signal_update_roomCount.
    destruct (resume_joins n _ _) as [js s3] eqn:E.
    apply resume_joins_log in E as (k & Hk & _).
    rewrite checkFullConnect_checks in Hk. simpl in *. lia.
  - unfold after, is_alive. simpl. unfold from_peer.
    destruct (nth_error (heap s) r) as [p|]; try discriminate.
    destruct (destroyed p); try discriminate. intros _.
    unfold peer_on_connect. rewrite checkFullConnect_checks. simpl. lia.
Qed.

Lemma checks_not_evaluating s e :
  evaluating s e = false -> checks (after s e) = checks s.
Proof.
  destruct e; simpl; try discriminate; intros Hev; unfold after; simpl;
    unfold on_socket_id, peer_on_signal, peer_on_data, peer_on_stream,
           peer_on_track, peer_on_error, peer_on_close, create, join, request, from_peer;
    try reflexivity;
    try (destruct (nth_error (heap s) r) as [p|]; [destruct (destroyed p)|]; reflexivity).
  - unfold on_destroy. now destruct (get id (peers s)).
  - unfold on_signal. destruct (hasOwnProperty id (peers s)); simpl.
    + now destruct (get id (peers s)).
    + now destruct (get id _).
  - unfold is_alive in Hev. destruct (nth_error (heap s) r) as [p|]; auto.
    destruct (destroyed p); auto. discriminate.
  - unfold send. now destruct (get id (peers s)).
  - unfold sendStream. destruct (hasOwnProperty _ _); auto.
    now destruct (get id (peers s)).
  - unfold removeStream. destruct (hasOwnProperty _ _); auto.
    now destruct (get id (peers s)).
  - unfold destroy, signal_destroy.
    now destruct (fold_destroy_entry_frame (peers (with_signalDestroyed true s))
                                           (with_signalDestroyed true s))
      as (_ & _ & _ & _ & Hc & _).
Qed.

(** Only a room-count update sets the room count. *)
Lemma roomCount_after s e :
  roomCount (after s e) =
  match e with RelayRoomCount n => Some n | _ => roomCount s end.
Proof.
  destruct e; unfold after; simpl;
    unfold on_socket_id, peer_on_signal, peer_on_data, peer_on_stream, peer_on_connect,
           peer_on_track, peer_on_error, peer_on_close, create, join, request, from_peer;
    try reflexivity;
    try (destruct (nth_error (heap s) r) as [p|]; [destruct (destroyed p)|];
         rewrite ?checkFullConnect_roomCount; reflexivity).
  - apply on_room_count_roomCount.
  - unfold on_destroy. now destruct (get id (peers s)).
  - unfold on_signal. destruct (hasOwnProperty id (peers s)); simpl.
    + now destruct (get id (peers s)).
    + now destruct (get id _).
  - unfold send. now destruct (get id (peers s)).
  - unfold sendStream. destruct (hasOwnProperty _ _); auto.
    now destruct (get id (peers s)).
  - unfold removeStream. destruct (hasOwnProperty _ _); auto.
    now destruct (get id (peers s)).
  - apply roomCount_destroy.
Qed.

Lemma run_snoc s es e : run s (es ++ [e]) = after (run s es) e.
Proof. unfold run. now rewrite fold_left_app. Qed.

(** While [roomCount] is undefined the predicate is false, whatever the
    peers: nothing has been announced. *)
Lemma undefined_roomCount_silent app trick es :
  roomCount (run (constructor app trick) es) = None ->
  ~ In NFullConnect (emitted (run (constructor app trick) es)).
Proof.
  induction es as [|e es IH] using rev_ind.
  - intros _ [].
  - rewrite run_snoc. set (s := run (constructor app trick) es) in *.
    intros Hnone Hin. rewrite emitted_after in Hin.
    apply in_app_or in Hin as [Hin|Hin].
    + apply IH; auto. rewrite roomCount_after in Hnone. now destruct e.
    + apply In_fresh_full in Hin as [Hfull _].
      unfold isFullyConnected in Hfull. now rewrite Hnone in Hfull.
Qed.

(** ** [MultiPeerMesh]: fan-out *)

Lemma get_In_values {V} k (v : V) (o : obj V) : get k o = Some v -> In v (values o).
Proof.
  intros H. apply get_In in H. unfold values.
  change v with (snd (k, v)). now apply in_map.
Qed.

Lemma with_heap_same s : with_heap (heap s) s = s.
Proof. now destruct s. Qed.

Lemma step_outcome s e :
  step s e = match snd (perform s e) with
             | None => Normal (after s e)
             | Some err => Throw err
             end.
Proof. unfold step, after. now destruct (perform s e) as [s' [err|]]. Qed.

(** A loop over the peer map with a call the transport accepts or
    refuses by the state of the object. *)
Section Loop.
Variable call : Peer -> Completion Peer.
Variable accepts : Peer -> bool.
Variable accepted : Peer -> Peer.
Variable refusal : Peer -> JsError.
Hypothesis call_spec :
  forall p, call p = if accepts p then Normal (accepted p) else Throw (refusal p).

Lemma loop_accepting (l : obj nat) (h : Heap) :
  (forall r, In r (values l) -> r < List.length h) ->
  (forall r p, In r (values l) -> nth_error h r = Some p -> accepts p = true) ->
  forall r, In r (values l) ->
            exists p p', nth_error h r = Some p /\ call p = Normal p'.
Proof.
  intros Hb Hacc r Hr.
  destruct (nth_error h r) as [p|] eqn:E.
  - exists p, (accepted p). split; [reflexivity|].
    now rewrite call_spec, (Hacc r p Hr E).
  - apply nth_error_None in E. specialize (Hb r Hr). lia.
Qed.

Lemma loop_all (l : obj nat) (h : Heap) :
  NoDup (values l) ->
  (forall r, In r (values l) -> r < List.length h) ->
  (forall r p, In r (values l) -> nth_error h r = Some p -> accepts p = true) ->
  snd (for_each_peer call l h) = None /\
  forall r p, In r (values l) -> nth_error h r = Some p ->
              nth_error (fst (for_each_peer call l h)) r = Some (accepted p).
Proof.
  intros Hnd Hb Hacc.
  destruct (for_each_peer_all_accepted call l h Hnd (loop_accepting l h Hb Hacc))
    as [Hend Hserved].
  split; [exact Hend|]. intros r p Hr Hp.
  destruct (Hserved r p Hr Hp) as (p' & Hc & ->).
  rewrite call_spec, (Hacc r p Hr Hp) in Hc. congruence.
Qed.

Lemma loop_refused (before behind : obj nat) k r (h : Heap) p :
  NoDup (values (before ++ (k, r) :: behind)) ->
  (forall r', In r' (values before) -> r' < List.length h) ->
  (forall r' p', In r' (values before) -> nth_error h r' = Some p' -> accepts p' = true) ->
  nth_error h r = Some p -> accepts p = false ->
  snd (for_each_peer call (before ++ (k, r) :: behind) h) = Some (refusal p) /\
  (forall r' p', In r' (values before) -> nth_error h r' = Some p' ->
                 nth_error (fst (for_each_peer call (before ++ (k, r) :: behind) h)) r'
                 = Some (accepted p')) /\
  (forall r', ~ In r' (values before) ->
              nth_error (fst (for_each_peer call (before ++ (k, r) :: behind) h)) r'
              = nth_error h r').
Proof.
  intros Hnd Hb Hacc Hp Hno.
  assert (Hc : call p = Throw (refusal p)) by now rewrite call_spec, Hno.
  rewrite (for_each_peer_first_refusal call before behind k r h p (refusal p) Hnd
             (loop_accepting before h Hb Hacc) Hp Hc).
  assert (Hnd1 : NoDup (values before)).
  { unfold values in Hnd. rewrite map_app in Hnd. now apply NoDup_app_remove_r in Hnd. }
  split; [reflexivity|]. split.
  - intros r' p' Hr' Hp'. simpl fst. now apply (loop_all before h Hnd1 Hb Hacc).
  - intros r' Hr'. simpl fst. now apply for_each_peer_outside.
Qed.

End Loop.


Lemma peers_served s r : peers (fst (served s r)) = peers s.
Proof. reflexivity. Qed.

(** ** [MultiPeerMesh]: teardown *)

Lemma try_destroy_destroyed r p (h : Heap) :
  nth_error h r = Some p -> destroyed p = true -> try_destroy r h = h.
Proof. intros Hp Hd. unfold try_destroy, Peer_destroy. now rewrite Hp, Hd. Qed.

Lemma signalDestroyed_destroy s : signalDestroyed (destroy s) = true.
Proof.
  unfold destroy, signal_destroy.
  now destruct (fold_destroy_entry_frame (peers (with_signalDestroyed true s))
                                         (with_signalDestroyed true s))
    as (_ & _ & _ & _ & _ & -> & _).
Qed.

Lemma destroy_torn_down s :
  peers s = [] -> signalDestroyed s = true -> destroy s = s.
Proof.
  intros Hp Hd. unfold destroy, signal_destroy. simpl. rewrite Hp. simpl.
  destruct s; simpl in *. now subst.
Qed.

(** ** [MultiPeerMesh]: promises settle once *)

Lemma wait_le_refl wt : wait_le wt wt.
Proof. split; auto. Qed.

Lemma wait_le_once_fire ev wt : wait_le wt (once_fire ev wt).
Proof.
  unfold once_fire. destruct (w_listening wt && String.eqb (w_event wt) ev);
    [|apply wait_le_refl].
  split; simpl; auto. now destruct (w_promise wt).
Qed.

Lemma wait_le_timer_fire wt : wait_le wt (timer_fire wt).
Proof.
  unfold timer_fire. destruct (w_timer wt); [|apply wait_le_refl].
  split; simpl; auto. now destruct (w_promise wt).
Qed.

Lemma waits_le_refl ws : waits_le ws ws.
Proof. intros w wt H. eauto using wait_le_refl. Qed.

Lemma waits_le_trans ws1 ws2 ws3 :
  waits_le ws1 ws2 -> waits_le ws2 ws3 -> waits_le ws1 ws3.
Proof.
  intros H12 H23 w wt H.
  destruct (H12 w wt H) as (wt2 & H2 & [He2 Hp2]).
  destruct (H23 w wt2 H2) as (wt3 & H3 & [He3 Hp3]).
  exists wt3. split; auto. split; [congruence|].
  intros Hs. rewrite Hp3; auto. rewrite Hp2; auto.
Qed.

Lemma waits_le_map f ws : (forall wt, wait_le wt (f wt)) -> waits_le ws (map f ws).
Proof.
  intros Hf w wt H. exists (f wt). split; auto.
  rewrite nth_error_map, H. reflexivity.
Qed.

Lemma waits_le_app ws new : waits_le ws (ws ++ new).
Proof.
  intros w wt H. exists wt. split; [|apply wait_le_refl].
  rewrite nth_error_app1; auto. apply nth_error_Some. congruence.
Qed.

Lemma waits_le_update_nth i f ws :
  (forall wt, wait_le wt (f wt)) -> waits_le ws (update_nth i f ws).
Proof.
  intros Hf w wt H. destruct (Nat.eq_dec i w) as [<-|Hne].
  - exists (f wt). rewrite nth_error_update_nth_eq, H. auto.
  - exists wt. rewrite nth_error_update_nth_ne by assumption. auto using wait_le_refl.
Qed.

Lemma waits_le_check s : waits_le (waits s) (waits (checkFullConnect s)).
Proof.
  rewrite checkFullConnect_waits. destruct (isFullyConnected s).
  - apply waits_le_map, wait_le_once_fire.
  - apply waits_le_refl.
Qed.

Lemma waits_le_join_resume n s j s' :
  join_resume n s = (j, s') -> waits_le (waits s) (waits s').
Proof.
  unfold join_resume. intros H.
  destruct (n =? 1)%Z; simpl in H; inversion H; subst; simpl.
  - apply waits_le_check.
  - eapply waits_le_trans; [apply waits_le_check | apply waits_le_app].
Qed.

Lemma waits_le_resume_joins n js : forall s js' s',
  resume_joins n js s = (js', s') -> waits_le (waits s) (waits s').
Proof.
  induction js as [|j0 rest IH]; simpl; intros s js' s' H.
  - inversion H; subst. apply waits_le_refl.
  - destruct j0.
    + destruct (join_resume n s) as [j1 s1] eqn:E1.
      destruct (resume_joins n rest s1) as [rest' s2] eqn:E2.
      inversion H; subst.
      eapply waits_le_trans; eauto using waits_le_join_resume.
    + destruct (resume_joins n rest s) as [rest' s2] eqn:E2.
      inversion H; subst. eauto.
    + destruct (resume_joins n rest s) as [rest' s2] eqn:E2.
      inversion H; subst. eauto.
    + destruct (resume_joins n rest s) as [rest' s2] eqn:E2.
      inversion H; subst. eauto.
Qed.

Lemma waits_le_emit n s : waits_le (waits s) (waits (emit n s)).
Proof. simpl. apply waits_le_map, wait_le_once_fire. Qed.

Lemma waits_le_from_peer r s k :
  (forall p, waits_le (waits s) (waits (k p))) ->
  waits_le (waits s) (waits (from_peer r s k)).
Proof.
  intros Hk. unfold from_peer. destruct (nth_error (heap s) r) as [p|].
  - destruct (destroyed p); auto using waits_le_refl.
  - apply waits_le_refl.
Qed.

Lemma waits_destroy s : waits (destroy s) = waits s.
Proof.
  unfold destroy, signal_destroy.
  now destruct (fold_destroy_entry_frame (peers (with_signalDestroyed true s))
                                         (with_signalDestroyed true s))
    as (_ & -> & _).
Qed.

Lemma joins_destroy s : joins (destroy s) = joins s.
Proof.
  unfold destroy, signal_destroy.
  now destruct (fold_destroy_entry_frame (peers (with_signalDestroyed true s))
                                         (with_signalDestroyed true s))
    as (_ & _ & -> & _).
Qed.

(** Across any event, every wait keeps its index and its event, and a
    settled promise stays as it is. *)
Lemma waits_le_after s e : waits_le (waits s) (waits (after s e)).
Proof.
  unfold after. destruct e; simpl;
    unfold on_socket_id, peer_on_signal, peer_on_connect, peer_on_data, peer_on_stream,
           peer_on_track, peer_on_error, peer_on_close, create, join, request;
    try (apply waits_le_from_peer; intros p);
    try apply waits_le_refl;
    try (apply waits_le_map, wait_le_once_fire).
  - (* RelayRoomCount *)
    unfold on_room_count, signal_update_roomCount.
    destruct (resume_joins n _ _) as [js s3] eqn:E. simpl.
    apply waits_le_resume_joins in E.
    eapply waits_le_trans; [|exact E].
    eapply waits_le_trans; [|apply waits_le_check].
    apply (waits_le_emit (NRoomCount n) (with_roomCount (Some n) s)).
  - (* RelayDestroy *)
    unfold on_destroy. destruct (get id (peers s)); [|apply waits_le_refl].
    simpl. apply waits_le_map, wait_le_once_fire.
  - (* RelaySignal *)
    unfold on_signal. destruct (hasOwnProperty id (peers s)); simpl.
    + destruct (get id (peers s)); apply waits_le_refl.
    + destruct (get id _); apply waits_le_refl.
  - (* PeerConnects *)
    eapply waits_le_trans; [|apply waits_le_check].
    apply (waits_le_emit (NConnect (socketId p)) (with_heap _ s)).
  - (* WaitTimeout *)
    apply waits_le_update_nth, wait_le_timer_fire.
  - (* CallSend *)
    unfold send. destruct (get id (peers s)); apply waits_le_refl.
  - (* CallSendStream *)
    unfold sendStream. destruct (hasOwnProperty _ _); [|apply waits_le_refl].
    destruct (get id (peers s)); apply waits_le_refl.
  - (* CallRemoveStream *)
    unfold removeStream. destruct (hasOwnProperty _ _); [|apply waits_le_refl].
    destruct (get id (peers s)); apply waits_le_refl.
  - (* CallDestroy *)
    rewrite waits_destroy. apply waits_le_refl.
Qed.

(** ** [MultiPeerMesh]: how a [join] moves *)

Lemma join_resume_wait_index n s j s' :
  join_resume n s = (j, s') ->
  List.length (waits s) <= List.length (waits s') /\
  ((n = 1%Z /\ j = JSoleOccupant) \/
   (n <> 1%Z /\ exists w, j = JAwaitFullConnect w /\ List.length (waits s) <= w)).
Proof.
  unfold join_resume. intros H.
  pose proof (checkFullConnect_waits_length s) as Hlen.
  destruct (Z.eqb_spec n 1) as [->|Hne]; simpl in H; inversion H; subst; simpl.
  - split; [lia|]. now left.
  - rewrite length_app. simpl. split; [lia|]. right. split; auto.
    eexists. split; [reflexivity|]. lia.
Qed.

Lemma resume_joins_waits_length n js : forall s js' s',
  resume_joins n js s = (js', s') -> List.length (waits s) <= List.length (waits s').
Proof.
  induction js as [|j0 rest IH]; simpl; intros s js' s' H.
  - inversion H; subst. lia.
  - destruct j0.
    + destruct (join_resume n s) as [j1 s1] eqn:E1.
      destruct (resume_joins n rest s1) as [rest' s2] eqn:E2.
      inversion H; subst.
      apply join_resume_wait_index in E1 as [Hle _]. apply IH in E2. lia.
    + destruct (resume_joins n rest s) as [rest' s2] eqn:E2.
      inversion H; subst. eauto.
    + destruct (resume_joins n rest s) as [rest' s2] eqn:E2.
      inversion H; subst. eauto.
    + destruct (resume_joins n rest s) as [rest' s2] eqn:E2.
      inversion H; subst. eauto.
Qed.

(** A [join] that waits for the room count returns if the count is 1 and
    starts a new wait otherwise; the other [join]s stay where they are. *)
Lemma resume_joins_nth n js : forall s js' s' j,
  resume_joins n js s = (js', s') ->
  match nth_error js j with
  | Some JAwaitRoomCount =>
      (n = 1%Z /\ nth_error js' j = Some JSoleOccupant) \/
      (n <> 1%Z /\ exists w, nth_error js' j = Some (JAwaitFullConnect w) /\
                             List.length (waits s) <= w)
  | other => nth_error js' j = other
  end.
Proof.
  induction js as [|j0 rest IH]; simpl; intros s js' s' j H.
  - inversion H; subst. now destruct j.
  - destruct j0.
    + destruct (join_resume n s) as [j1 s1] eqn:E1.
      destruct (resume_joins n rest s1) as [rest' s2] eqn:E2.
      inversion H; subst.
      apply join_resume_wait_index in E1 as [Hle Hj1].
      destruct j as [|j]; simpl.
      * destruct Hj1 as [[-> ->]|(Hne & w & -> & Hw)]; [now left|right; eauto].
      * specialize (IH _ _ _ j E2).
        destruct (nth_error rest j) as [[]|]; auto.
        destruct IH as [?|(Hne & w & Hw & Hlen)]; [now left|].
        right. split; auto. exists w. split; auto. lia.
    + destruct (resume_joins n rest s) as [rest' s2] eqn:E2.
      inversion H; subst. destruct j as [|j]; simpl; auto. apply (IH _ _ _ j E2).
    + destruct (resume_joins n rest s) as [rest' s2] eqn:E2.
      inversion H; subst. destruct j as [|j]; simpl; auto. apply (IH _ _ _ j E2).
    + destruct (resume_joins n rest s) as [rest' s2] eqn:E2.
      inversion H; subst. destruct j as [|j]; simpl; auto. apply (IH _ _ _ j E2).
Qed.

Lemma waits_length_before_resume n s :
  List.length (waits (checkFullConnect (emit (NRoomCount n) (with_roomCount (Some n) s))))
  = List.length (waits s).
Proof. rewrite checkFullConnect_waits_length. simpl. apply length_map. Qed.

(** The joins other than those of the event at hand. *)
Lemma joins_after s e :
  joins (after s e) =
  match e with
  | RelayRoomCount n =>
      fst (resume_joins n (joins s)
             (checkFullConnect (emit (NRoomCount n) (with_roomCount (Some n) s))))
  | RoomCountTimeout j => update_nth j room_count_timeout (joins s)
  | CallJoin _ _ => joins s ++ [JAwaitRoomCount]
  | _ => joins s
  end.
Proof.
  destruct e; unfold after; simpl;
    unfold on_socket_id, peer_on_signal, peer_on_data, peer_on_stream, peer_on_connect,
           peer_on_track, peer_on_error, peer_on_close, create, join, request, from_peer;
    try reflexivity;
    try (destruct (nth_error (heap s) r) as [p|]; [destruct (destroyed p)|];
         rewrite ?checkFullConnect_joins; reflexivity).
  - unfold on_room_count, signal_update_roomCount. rewrite checkFullConnect_joins. simpl.
    now destruct (resume_joins n _ _).
  - unfold on_destroy. now destruct (get id (peers s)).
  - unfold on_signal. destruct (hasOwnProperty id (peers s)); simpl.
    + now destruct (get id (peers s)).
    + now destruct (get id _).
  - unfold send. now destruct (get id (peers s)).
  - unfold sendStream. destruct (hasOwnProperty _ _); auto.
    now destruct (get id (peers s)).
  - unfold removeStream. destruct (hasOwnProperty _ _); auto.
    now destruct (get id (peers s)).
  - apply joins_destroy.
Qed.

(** A [join] past its room-count wait never changes place again. *)
Lemma join_settled_stays s e j x :
  nth_error (joins s) j = Some x -> x <> JAwaitRoomCount ->
  nth_error (joins (after s e)) j = Some x.
Proof.
  intros Hj Hx. rewrite joins_after. destruct e; auto.
  - destruct (resume_joins n _ _) as [js s3] eqn:E. simpl.
    pose proof (resume_joins_nth _ _ _ _ _ j E) as H. rewrite Hj in H.
    destruct x; auto. congruence.
  - destruct (Nat.eq_dec j0 j) as [->|Hne].
    + rewrite nth_error_update_nth_eq, Hj. simpl. now destruct x.
    + now rewrite nth_error_update_nth_ne.
  - rewrite nth_error_app1; auto. apply nth_error_Some. congruence.
Qed.

(** A [join] at its room-count wait: what an event can make of it. *)
Lemma join_awaiting_moves s e j :
  nth_error (joins s) j = Some JAwaitRoomCount ->
  nth_error (joins (after s e)) j = Some JAwaitRoomCount \/
  (e = RoomCountTimeout j /\ nth_error (joins (after s e)) j = Some JRoomCountTimeout) \/
  (e = RelayRoomCount 1 /\ nth_error (joins (after s e)) j = Some JSoleOccupant) \/
  (exists n w, e = RelayRoomCount n /\ n <> 1%Z /\
               nth_error (joins (after s e)) j = Some (JAwaitFullConnect w) /\
               List.length (waits s) <= w).
Proof.
  intros Hj. rewrite joins_after. destruct e; auto.
  - destruct (resume_joins n _ _) as [js s3] eqn:E. simpl.
    pose proof (resume_joins_nth _ _ _ _ _ j E) as H. rewrite Hj in H.
    rewrite waits_length_before_resume in H.
    destruct H as [[-> H]|(Hne & w & Hw & Hlen)].
    + right. right. left. auto.
    + right. right. right. exists n, w. auto.
  - destruct (Nat.eq_dec j0 j) as [->|Hne].
    + right. left. split; auto. now rewrite nth_error_update_nth_eq, Hj.
    + left. now rewrite nth_error_update_nth_ne.
  - left. rewrite nth_error_app1; auto. apply nth_error_Some. congruence.
Qed.

(** A [join] not yet called. *)
Lemma join_absent_moves s e j :
  nth_error (joins s) j = None ->
  nth_error (joins (after s e)) j = None \/
  nth_error (joins (after s e)) j = Some JAwaitRoomCount.
Proof.
  intros Hj. rewrite joins_after. destruct e; auto.
  - destruct (resume_joins n _ _) as [js s3] eqn:E. simpl.
    pose proof (resume_joins_nth _ _ _ _ _ j E) as H. rewrite Hj in H. auto.
  - left. apply nth_error_None. rewrite update_nth_length. now apply nth_error_None.
  - apply nth_error_None in Hj.
    rewrite nth_error_app2 by assumption.
    destruct (j - List.length (joins s)) as [|[|k]]; simpl; auto.
Qed.

(** ** [MultiPeerMesh]: only a full-connect fulfils a wait *)

Lemma quiet_refl ws : quiet_waits ws ws.
Proof. split; [apply waits_le_refl|]. intros w wt' H _ Hp. eauto. Qed.

Lemma quiet_trans ws1 ws2 ws3 :
  quiet_waits ws1 ws2 -> quiet_waits ws2 ws3 -> quiet_waits ws1 ws3.
Proof.
  intros [L12 H12] [L23 H23]. split; [eapply waits_le_trans; eauto|].
  intros w wt3 H3 Hev Hp.
  destruct (H23 w wt3 H3 Hev Hp) as (wt2 & H2 & Hp2).
  apply (H12 w wt2 H2); auto.
  destruct (L23 w wt2 H2) as (wt3' & H3' & [He _]).
  congruence.
Qed.

Lemma quiet_map_once_fire ev ws :
  String.eqb "full-connect" ev = false -> quiet_waits ws (map (once_fire ev) ws).
Proof.
  intros Hev. split; [apply waits_le_map, wait_le_once_fire|].
  intros w wt' H Hfc Hp. rewrite nth_error_map in H.
  destruct (nth_error ws w) as [wt|]; simpl in H; inversion H; subst.
  exists wt. split; auto.
  rewrite once_fire_event in Hfc. unfold once_fire in Hp.
  rewrite Hfc, Hev, andb_false_r in Hp. exact Hp.
Qed.

Lemma quiet_update_nth_timer i ws : quiet_waits ws (update_nth i timer_fire ws).
Proof.
  split; [apply waits_le_update_nth, wait_le_timer_fire|].
  intros w wt' H _ Hp. destruct (Nat.eq_dec i w) as [<-|Hne].
  - rewrite nth_error_update_nth_eq in H.
    destruct (nth_error ws i) as [wt|]; simpl in H; inversion H; subst.
    exists wt. split; auto. unfold timer_fire in Hp.
    destruct (w_timer wt); auto. simpl in Hp. now destruct (w_promise wt).
  - rewrite nth_error_update_nth_ne in H by assumption. eauto.
Qed.

Lemma quiet_app_pending ws ev armed :
  quiet_waits ws (ws ++ [mkWait ev true armed Pending]).
Proof.
  split; [apply waits_le_app|].
  intros w wt' H _ Hp.
  destruct (Nat.lt_ge_cases w (List.length ws)) as [Hlt|Hge].
  - rewrite nth_error_app1 in H by assumption. eauto.
  - rewrite nth_error_app2 in H by assumption.
    destruct (w - List.length ws) as [|[|k]]; simpl in H; inversion H; subst.
    discriminate.
Qed.

Lemma waits_check_off s :
  isFullyConnected s = false -> waits (checkFullConnect s) = waits s.
Proof. intros H. now rewrite checkFullConnect_waits, H. Qed.

Lemma quiet_join_resume n s j s' :
  isFullyConnected s = false ->
  join_resume n s = (j, s') ->
  quiet_waits (waits s) (waits s') /\ isFullyConnected s' = false.
Proof.
  intros Hoff H.
  pose proof (join_resume_frame _ _ _ _ H) as (Hh & Hp & Hr & _).
  split; [|now rewrite (isFullyConnected_ext s s' Hh Hp Hr)].
  unfold join_resume in H.
  destruct (n =? 1)%Z; simpl in H; inversion H; subst; simpl;
    rewrite (waits_check_off s Hoff).
  - apply quiet_refl.
  - apply quiet_app_pending.
Qed.

Lemma quiet_resume_joins n js : forall s js' s',
  isFullyConnected s = false ->
  resume_joins n js s = (js', s') ->
  quiet_waits (waits s) (waits s').
Proof.
  induction js as [|j0 rest IH]; simpl; intros s js' s' Hoff H.
  - inversion H; subst. apply quiet_refl.
  - destruct j0.
    + destruct (join_resume n s) as [j1 s1] eqn:E1.
      destruct (resume_joins n rest s1) as [rest' s2] eqn:E2.
      inversion H; subst.
      apply quiet_join_resume in E1 as [Hq Hoff1]; auto.
      eapply quiet_trans; eauto.
    + destruct (resume_joins n rest s) as [rest' s2] eqn:E2.
      inversion H; subst. eauto.
    + destruct (resume_joins n rest s) as [rest' s2] eqn:E2.
      inversion H; subst. eauto.
    + destruct (resume_joins n rest s) as [rest' s2] eqn:E2.
      inversion H; subst. eauto.
Qed.

Lemma quiet_from_peer r s k :
  (forall p, quiet_waits (waits s) (waits (k p))) ->
  quiet_waits (waits s) (waits (from_peer r s k)).
Proof.
  intros Hk. unfold from_peer. destruct (nth_error (heap s) r) as [p|].
  - destruct (destroyed p); auto using quiet_refl.
  - apply quiet_refl.
Qed.

(** An event that announces no full-connect fulfils no wait on it. *)
Lemma quiet_after s e :
  ~ In NFullConnect (fresh s e) -> quiet_waits (waits s) (waits (after s e)).
Proof.
  intros Hno.
  assert (Hoff : evaluating s e = true -> isFullyConnected (after s e) = false).
  { intros Hev. destruct (isFullyConnected (after s e)) eqn:E; auto.
    exfalso. apply Hno, In_fresh_full. auto using checks_evaluating. }
  clear Hno. revert Hoff.
  unfold after. destruct e; simpl; intros Hoff;
    unfold on_socket_id, peer_on_signal, peer_on_data, peer_on_stream,
           peer_on_track, peer_on_error, peer_on_close, create, join, request;
    try (apply quiet_from_peer; intros p;
         first [apply quiet_refl | now apply quiet_map_once_fire]);
    try apply quiet_refl;
    try (now apply quiet_map_once_fire).
  - (* RelayRoomCount *)
    specialize (Hoff eq_refl). rewrite full_on_room_count in Hoff.
    unfold on_room_count, signal_update_roomCount.
    set (s1 := emit (NRoomCount n) (with_roomCount (Some n) s)).
    assert (Hoff1 : isFullyConnected s1 = false) by (subst s1; now rewrite full_emit).
    destruct (resume_joins n _ _) as [js s3] eqn:E. simpl.
    apply quiet_resume_joins in E; [|now rewrite checkFullConnect_full].
    rewrite (waits_check_off s1 Hoff1) in E.
    eapply quiet_trans; [|exact E].
    subst s1. simpl. now apply quiet_map_once_fire.
  - (* RelayDestroy *)
    unfold on_destroy. destruct (get id (peers s)); [|apply quiet_refl].
    simpl. now apply quiet_map_once_fire.
  - (* RelaySignal *)
    unfold on_signal. destruct (hasOwnProperty id (peers s)); simpl.
    + destruct (get id (peers s)); apply quiet_refl.
    + destruct (get id _); apply quiet_refl.
  - (* PeerConnects *)
    unfold from_peer, is_alive in *.
    destruct (nth_error (heap s) r) as [p|]; [|apply quiet_refl].
    destruct (destroyed p); [apply quiet_refl|]. specialize (Hoff eq_refl).
    unfold peer_on_connect in *. rewrite checkFullConnect_full in Hoff.
    rewrite (waits_check_off _ Hoff). simpl. now apply quiet_map_once_fire.
  - (* WaitTimeout *) apply quiet_update_nth_timer.
  - (* CallSend *)
    unfold send. destruct (get id (peers s)); apply quiet_refl.
  - (* CallSendStream *)
    unfold sendStream. destruct (hasOwnProperty _ _); [|apply quiet_refl].
    destruct (get id (peers s)); apply quiet_refl.
  - (* CallRemoveStream *)
    unfold removeStream. destruct (hasOwnProperty _ _); [|apply quiet_refl].
    destruct (get id (peers s)); apply quiet_refl.
  - (* CallDestroy *)
    rewrite waits_destroy. apply quiet_refl.
Qed.

(** ** [MultiPeerMesh]: the promise of a [join] *)

Lemma joinPromise_settled_stays s e j :
  joinPromise s j <> Pending -> joinPromise (after s e) j = joinPromise s j.
Proof.
  unfold joinPromise. intros Hs.
  destruct (nth_error (joins s) j) as [x|] eqn:Hj; [|congruence].
  destruct x; try congruence;
    try (now rewrite (join_settled_stays s e j _ Hj) by discriminate).
  rewrite (join_settled_stays s e j _ Hj) by discriminate.
  destruct (nth_error (waits s) w) as [wt|] eqn:Hw; [|congruence].
  destruct (waits_le_after s e w wt Hw) as (wt' & -> & [_ Hp]). auto.
Qed.

(** A pending [join] is fulfilled by a room count of 1 at its first wait,
    or by an event that announces full-connect. *)
Lemma joinPromise_fulfilled_by s e j :
  Inv s ->
  joinPromise s j = Pending -> joinPromise (after s e) j = Fulfilled ->
  (nth_error (joins s) j = Some JAwaitRoomCount /\ e = RelayRoomCount 1) \/
  In NFullConnect (fresh s e).
Proof.
  intros HI Hpend Hful.
  destruct (in_dec (fun a b : Notification =>
                      ltac:(decide equality;
                            auto using Z.eq_dec, string_dec, bool_dec))
                   NFullConnect (fresh s e)) as [Hin|Hno]; auto.
  left. apply quiet_after in Hno as [_ Hq].
  pose proof (Inv_after s e HI) as HI'.
  unfold joinPromise in *.
  destruct (nth_error (joins s) j) as [x|] eqn:Hj.
  - destruct x; try discriminate.
    + destruct (join_awaiting_moves s e j Hj)
        as [H|[[_ H]|[[He H]|(n & w & He & Hne & H & Hlen)]]];
        rewrite H in Hful; try discriminate; auto.
      destruct (nth_error (waits (after s e)) w) as [wt'|] eqn:Hw; [|discriminate].
      destruct (Hq w wt' Hw) as (wt & Hwt & _); auto.
      * pose proof (inv_waits _ HI') as HW. rewrite Forall_forall in HW.
        apply (HW wt'). eapply nth_error_In; eauto.
      * assert (w < List.length (waits s)) by (apply nth_error_Some; congruence). lia.
    + rewrite (join_settled_stays s e j _ Hj) in Hful by discriminate.
      destruct (nth_error (waits (after s e)) w) as [wt'|] eqn:Hw; [|discriminate].
      destruct (Hq w wt' Hw) as (wt & Hwt & Hp); auto.
      * pose proof (inv_waits _ HI') as HW. rewrite Forall_forall in HW.
        apply (HW wt'). eapply nth_error_In; eauto.
      * rewrite Hwt in Hpend. congruence.
  - destruct (join_absent_moves s e j Hj) as [H|H]; rewrite H in Hful; discriminate.
Qed.

End MeshProps.

(** ** [SimplePeerMesh]: the peer map *)

Module SimpleProps.
Import SimplePeerMesh SimpleSpec.

Lemma keys_after s e : NoDup (keys (peers s)) -> NoDup (keys (peers (after s e))).
Proof.
  intros H. unfold after. destruct e; simpl; auto.
  - (* SocketRoomCount *)
    unfold on_roomCount, checkFullConnect. simpl.
    now destruct (_ <=? _)%Z.
  - (* SocketInitialize *) now apply NoDup_keys_set.
  - (* SocketDestroy *)
    unfold on_destroy. destruct (get id (peers s)) as [r|]; auto.
    destruct (nth_error (heap s) r) as [p|]; auto.
    destruct (Peer_destroy p); simpl; auto using NoDup_keys_delete.
  - (* SocketSignal *)
    unfold on_signal.
    set (s1 := if hasOwnProperty id (peers s) then s else _).
    assert (H1 : NoDup (keys (peers s1))).
    { subst s1. destruct (hasOwnProperty id (peers s)); simpl; auto using NoDup_keys_set. }
    now destruct (get id (peers s1)).
  - (* PeerConnects *)
    destruct (nth_error (heap s) r) as [p|]; auto.
    destruct (destroyed p); auto.
    unfold peer_on_connect, checkFullConnect. simpl.
    now destruct (_ <=? _)%Z.
  - (* PeerCloses *)
    destruct (nth_error (heap s) r) as [p|]; auto.
    now destruct (destroyed p).
Qed.

Lemma keys_run es : forall s, NoDup (keys (peers s)) -> NoDup (keys (peers (run s es))).
Proof.
  induction es as [|e rest IH]; simpl; intros s H; auto using keys_after.
Qed.

(** Every entry keeps an allocated object of its own. *)







End SimpleProps.

(** * The orchestrator's properties *)

(** C10. Whatever events arrive and in whatever order, the peer map holds
    at most one entry per identity at every point: after every prefix of
    the sequence, in [MultiPeerMesh] and in [SimplePeerMesh] alike. *)
Theorem peer_map_one_entry_per_identity :
  (forall app trick (es : list MultiPeerMesh.Event) (id : string),
      List.length
        (entries_of id
           (MultiPeerMesh.peers (MultiPeerMesh.run (MultiPeerMesh.constructor app trick) es)))
      <= 1) /\
  (forall (es : list SimplePeerMesh.Event) (id : string),
      List.length
        (entries_of id
           (SimplePeerMesh.peers (SimplePeerMesh.run SimplePeerMesh.constructor es)))
      <= 1).
Proof.
  split.
  - intros app trick es id. apply NoDup_keys_count.
    apply MeshSpec.inv_keys, MeshProps.Inv_run, MeshProps.Inv_constructor.
  - intros es id. apply NoDup_keys_count.
    apply SimpleProps.keys_run. constructor.
Qed.

Import MultiPeerMesh MeshSpec MeshProps.

(** *** Full-mesh detection *)

(** C1, as stated, fails: after a first room count of 1 the predicate
    holds; a second room count of 1 announces full-connect again. *)
Lemma full_connect_refires_while_complete :
  (let s := run (constructor "app" true) [RelayRoomCount 1] in
   isFullyConnected s = true /\
   fresh s (RelayRoomCount 1) = [NRoomCount 1; NFullConnect]) /\
  ~ edge_triggered.
Proof.
  split; [vm_compute; repeat split|].
  intros H. apply (H "app" true [RelayRoomCount 1] (RelayRoomCount 1)).
  - vm_compute. reflexivity.
  - vm_compute. auto.
Qed.

(** C1, amended.  The announcement is level-triggered.  For every state
    and event, the log grows by [fresh]; the full-connects among them are
    one per check made by the event if the predicate holds afterwards and
    none otherwise; hence every turn of the predicate from false to true
    is announced, and so is every later room-count update or connect
    notification that finds the predicate still true. *)
Theorem full_connect_level_triggered (s : Mesh) (e : Event) :
  let s' := after s e in
  emitted s' = emitted s ++ fresh s e /\
  List.length (filter is_full_connect (fresh s e)) =
    (if isFullyConnected s' then checks s' - checks s else 0) /\
  (isFullyConnected s = false -> isFullyConnected s' = true ->
   In NFullConnect (fresh s e)) /\
  (evaluating s e = true -> isFullyConnected s' = true ->
   In NFullConnect (fresh s e)).
Proof.
  cbv zeta. split; [apply emitted_after|]. split; [apply fresh_full_count|]. split.
  - intros Hoff Hon. apply In_fresh_full. split; auto.
    destruct (Nat.eq_dec (checks (after s e)) (checks s)) as [Heq|Hne].
    + pose proof (quiet_event_keeps_off s e Heq Hon). congruence.
    + destruct (log_shape_after s e) as (Hle & _). lia.
  - intros Hev Hon. apply In_fresh_full. auto using checks_evaluating.
Qed.

Lemma full_connect_level_triggered_witness :
  (let s := run (constructor "app" true) [RelayRoomCount 2; RelayInitialize "a"] in
   isFullyConnected s = false /\
   isFullyConnected (after s (PeerConnects 0)) = true /\
   In NFullConnect (fresh s (PeerConnects 0))) /\
  (let s := run (constructor "app" true) [RelayRoomCount 1] in
   isFullyConnected s = true /\
   isFullyConnected (after s (RelayRoomCount 1)) = true /\
   In NFullConnect (fresh s (RelayRoomCount 1))).
Proof.
  cbv zeta. split.
  - split; [vm_compute; reflexivity|]. split; [vm_compute; reflexivity|].
    pose proof (full_connect_level_triggered
                  (run (constructor "app" true) [RelayRoomCount 2; RelayInitialize "a"])
                  (PeerConnects 0)) as (_ & _ & Hedge & _).
    apply Hedge; vm_compute; reflexivity.
  - split; [vm_compute; reflexivity|]. split; [vm_compute; reflexivity|].
    pose proof (full_connect_level_triggered
                  (run (constructor "app" true) [RelayRoomCount 1])
                  (RelayRoomCount 1)) as (_ & _ & _ & Hlevel).
    apply Hlevel; vm_compute; reflexivity.
Defined.

(** C5, as stated, fails: with room count 2 and the one peer connected the
    mesh is complete and announced; the relay's destroy of that peer turns
    the predicate off, and the handler neither evaluates it nor announces
    anything but the disconnect. *)
Lemma departure_runs_no_check :
  (let s := run (constructor "app" true)
                [RelayInitialize "b"; PeerConnects 0; RelayRoomCount 2] in
   let s' := after s (RelayDestroy "b") in
   isFullyConnected s = true /\ isFullyConnected s' = false /\
   checks s' = checks s /\ fresh s (RelayDestroy "b") = [NDisconnect "b"]) /\
  ~ rechecked_on_departure.
Proof.
  split; [vm_compute; repeat split|].
  intros H.
  specialize (H "app" true [RelayInitialize "b"; PeerConnects 0; RelayRoomCount 2] "b" 0
                eq_refl eq_refl).
  vm_compute in H. lia.
Qed.

(** C5, amended.  The predicate is evaluated after every room-count update
    and after every connect notification of a live transport object, and
    is then announced exactly when it holds.  No other event evaluates it:
    a relay destroy, a transport closing by itself, [destroy()] and every
    other event leave the count of evaluations alone and announce no
    full-connect; such an event can turn the predicate off but not on.
    The predicate is a function of the current peer map, transport objects
    and room count: nothing is cached. *)
Theorem completion_checked_on_count_and_connect (s : Mesh) (e : Event) :
  (evaluating s e = true ->
   checks s < checks (after s e) /\
   (In NFullConnect (fresh s e) <-> isFullyConnected (after s e) = true)) /\
  (evaluating s e = false ->
   checks (after s e) = checks s /\
   ~ In NFullConnect (fresh s e) /\
   (isFullyConnected (after s e) = true -> isFullyConnected s = true)) /\
  (forall s2, heap s2 = heap s -> peers s2 = peers s -> roomCount s2 = roomCount s ->
              isFullyConnected s2 = isFullyConnected s).
Proof.
  split; [|split].
  - intros Hev. pose proof (checks_evaluating s e Hev) as Hlt. split; auto.
    rewrite In_fresh_full. tauto.
  - intros Hev. pose proof (checks_not_evaluating s e Hev) as Heq. split; auto. split.
    + rewrite In_fresh_full. lia.
    + now apply quiet_event_keeps_off.
  - intros s2. apply isFullyConnected_ext.
Qed.

Lemma completion_checked_on_count_and_connect_witness :
  let s := run (constructor "app" true)
               [RelayInitialize "b"; PeerConnects 0; RelayRoomCount 2] in
  (checks s < checks (after s (RelayRoomCount 2)) /\
   (In NFullConnect (fresh s (RelayRoomCount 2)) <->
    isFullyConnected (after s (RelayRoomCount 2)) = true)) /\
  (checks (after s (RelayDestroy "b")) = checks s /\
   ~ In NFullConnect (fresh s (RelayDestroy "b")) /\
   (isFullyConnected (after s (RelayDestroy "b")) = true -> isFullyConnected s = true)) /\
  isFullyConnected (after s (RelaySocketId "me")) = isFullyConnected s.
Proof.
  cbv zeta. split; [|split].
  - pose proof (completion_checked_on_count_and_connect
                  (run (constructor "app" true)
                       [RelayInitialize "b"; PeerConnects 0; RelayRoomCount 2])
                  (RelayRoomCount 2)) as (Hchecked & _ & _).
    apply Hchecked. vm_compute; reflexivity.
  - pose proof (completion_checked_on_count_and_connect
                  (run (constructor "app" true)
                       [RelayInitialize "b"; PeerConnects 0; RelayRoomCount 2])
                  (RelayDestroy "b")) as (_ & Hquiet & _).
    apply Hquiet. vm_compute; reflexivity.
  - pose proof (completion_checked_on_count_and_connect
                  (run (constructor "app" true)
                       [RelayInitialize "b"; PeerConnects 0; RelayRoomCount 2])
                  (RelayDestroy "b")) as (_ & _ & Hdemand).
    apply Hdemand; vm_compute; reflexivity.
Defined.

(** In [MultiPeerMesh], as long as no room count has arrived,
    [this.signal.roomCount] is undefined and no full-connect has been
    emitted, whatever else has happened. *)
Lemma no_full_connect_before_first_room_count app trick (es : list Event) :
  Forall (fun e => match e with RelayRoomCount _ => False | _ => True end) es ->
  roomCount (run (constructor app trick) es) = None /\
  ~ In NFullConnect (emitted (run (constructor app trick) es)).
Proof.
  intros Hes.
  assert (Hnone : roomCount (run (constructor app trick) es) = None).
  { induction es as [|e es IH] using rev_ind; auto.
    apply Forall_app in Hes as [Hes He]. inversion He; subst.
    rewrite run_snoc, roomCount_after. destruct e; auto. contradiction. }
  split; auto using undefined_roomCount_silent.
Qed.

(** The socket.io binding shares the level-triggered check and the
    unfiltered loop of [broadcast]. *)
Lemma SimplePeerMesh_refires_and_writes_to_pending :
  SimplePeerMesh.fired
    (SimplePeerMesh.run SimplePeerMesh.constructor
       [SimplePeerMesh.SocketRoomCount 1; SimplePeerMesh.SocketRoomCount 1])
  = [SimplePeerMesh.FRoomCount 1; SimplePeerMesh.FFullConnect;
     SimplePeerMesh.FRoomCount 1; SimplePeerMesh.FFullConnect] /\
  (let s := SimplePeerMesh.run SimplePeerMesh.constructor
              [SimplePeerMesh.SocketInitialize "A"; SimplePeerMesh.PeerConnects 0;
               SimplePeerMesh.SocketInitialize "B";
               SimplePeerMesh.CallBroadcast (JStr "hello")] in
   map connected (SimplePeerMesh.heap s) = [true; false] /\
   map written (SimplePeerMesh.heap s) = [[JStr "hello"]; [JStr "hello"]]).
Proof. vm_compute. repeat split. Qed.

(** C8 in [SimplePeerMesh]: [roomCount] starts at [-1], which every
    connected count satisfies.  A peer that is initialized and connects
    before the first room count makes the class fire fullConnect while
    [roomCount] is still [-1]. *)
Theorem fullConnect_fired_before_first_roomCount :
  let s := SimplePeerMesh.run SimplePeerMesh.constructor
             [SimplePeerMesh.SocketInitialize "a"; SimplePeerMesh.PeerConnects 0] in
  SimplePeerMesh.roomCount s = (-1)%Z /\
  SimplePeerMesh.fired s = [SimplePeerMesh.FConnect "a"; SimplePeerMesh.FFullConnect].
Proof. vm_compute. repeat split. Qed.

(** *** Messages *)








(** [sendStream] and [removeStream] look up the value of
    [id && this.peers[id] !== null], not [id]: for a connected peer "a"
    nothing is attached, and with a peer whose identity is "true" in the
    map a call for an unknown identity raises. *)
Lemma sendStream_misses_connected_peer :
  let s := run (constructor "app" true) [RelayInitialize "a"; PeerConnects 0] in
  map connected (heap s) = [true] /\
  step s (CallSendStream "a" "camera") = Normal s /\
  step s (CallRemoveStream "a" "camera") = Normal s.
Proof. vm_compute. repeat split. Qed.

Lemma sendStream_raises_on_unknown_identity :
  let s := run (constructor "app" true) [RelayInitialize "true"] in
  step s (CallSendStream "b" "camera") = Throw (TypeError "this.peers[id] is undefined") /\
  step s (CallRemoveStream "b" "camera") = Throw (TypeError "this.peers[id] is undefined").
Proof. vm_compute. repeat split. Qed.



(** *** Teardown *)

(** C7.  Teardown is idempotent at every level.  A relay destroy for an
    identity without an entry changes nothing and raises nothing.  A relay
    destroy for an entry whose transport object is already destroyed
    returns normally although [peer.destroy()] raises: the entry is
    removed and the disconnect announced.  After [destroy()] the peer map
    is empty and the channel destroyed, and a second [destroy()] changes
    nothing. *)
Theorem teardown_idempotent (s : Mesh) :
  (forall id, get id (peers s) = None -> step s (RelayDestroy id) = Normal s) /\
  (forall id r p,
      get id (peers s) = Some r -> nth_error (heap s) r = Some p ->
      destroyed p = true ->
      Peer_destroy p = Throw (PeerError "already destroyed") /\
      step s (RelayDestroy id) =
        Normal (emit (NDisconnect id) (with_peers (delete id (peers s)) s)) /\
      get id (peers (after s (RelayDestroy id))) = None) /\
  (let s1 := after s CallDestroy in
   peers s1 = [] /\ signalDestroyed s1 = true /\
   step s1 CallDestroy = Normal s1).
Proof.
  split; [|split].
  - intros id Hget. unfold step. simpl. unfold on_destroy. now rewrite Hget.
  - intros id r p Hget Hp Hd. split; [|split].
    + unfold Peer_destroy. now rewrite Hd.
    + unfold step. simpl. unfold on_destroy. rewrite Hget.
      now rewrite (try_destroy_destroyed r p _ Hp Hd), with_heap_same.
    + unfold after. simpl. unfold on_destroy. rewrite Hget. simpl.
      apply get_delete_eq.
  - cbv zeta. unfold step, after. simpl.
    split; [apply destroy_peers|]. split; [apply signalDestroyed_destroy|].
    f_equal. apply destroy_torn_down; auto using destroy_peers, signalDestroyed_destroy.
Qed.

Lemma teardown_idempotent_witness :
  let s := run (constructor "app" true) [RelayInitialize "a"; PeerCloses 0] in
  step s (RelayDestroy "zz") = Normal s /\
  (Peer_destroy (Peer_close (new_Peer "a" true true None))
     = Throw (PeerError "already destroyed") /\
   step s (RelayDestroy "a") =
     Normal (emit (NDisconnect "a") (with_peers (delete "a" (peers s)) s)) /\
   get "a" (peers (after s (RelayDestroy "a"))) = None).
Proof.
  cbv zeta.
  pose proof (teardown_idempotent
                (run (constructor "app" true) [RelayInitialize "a"; PeerCloses 0]))
    as (Habsent & Hdestroyed & _).
  split.
  - apply Habsent. vm_compute; reflexivity.
  - apply (Hdestroyed "a" 0 (Peer_close (new_Peer "a" true true None)));
      vm_compute; reflexivity.
Defined.

(** *** [join] *)

(** How the promise of a [join] moves in one event: fulfilled by a first
    room count of 1; otherwise fulfilled only by an announcement of
    full-connect; rejected by either of its two timers. *)
Lemma join_promise_cases app trick (es : list Event) (e : Event) (j : nat) :
  let s := run (constructor app trick) es in
  let s' := after s e in
  (nth_error (joins s) j = Some JAwaitRoomCount -> e = RelayRoomCount 1 ->
   joinPromise s' j = Fulfilled) /\
  (joinPromise s j = Pending -> joinPromise s' j = Fulfilled ->
   (nth_error (joins s) j = Some JAwaitRoomCount /\ e = RelayRoomCount 1) \/
   (In NFullConnect (fresh s e) /\
    exists n, roomCount s' = Some n /\
              (n - 1 <= Z.of_nat (getConnectedPeerCount s'))%Z)) /\
  (forall w, nth_error (joins s) j = Some (JAwaitFullConnect w) ->
             joinPromise s j = Pending -> e = WaitTimeout w ->
             joinPromise s' j = Rejected) /\
  (nth_error (joins s) j = Some JAwaitRoomCount -> e = RoomCountTimeout j ->
   joinPromise s' j = Rejected).
Proof.
  cbv zeta. set (s := run (constructor app trick) es).
  assert (HI : Inv s) by apply Inv_run, Inv_constructor.
  split; [|split; [|split]].
  - intros Hj ->. unfold joinPromise. rewrite joins_after.
    destruct (resume_joins 1 _ _) as [js s3] eqn:E. simpl.
    pose proof (resume_joins_nth _ _ _ _ _ j E) as H. rewrite Hj in H.
    destruct H as [[_ ->]|[Hne _]]; [reflexivity|congruence].
  - intros Hpend Hful.
    destruct (joinPromise_fulfilled_by s e j HI Hpend Hful) as [H|Hin]; auto.
    right. split; auto.
    apply In_fresh_full in Hin as [Hfull _]. unfold isFullyConnected in Hfull.
    destruct (roomCount (after s e)) as [n|]; [|discriminate].
    exists n. split; auto. apply Z.leb_le in Hfull. lia.
  - intros w Hj Hpend ->. unfold joinPromise in *.
    rewrite (join_settled_stays s _ j _ Hj) by discriminate. rewrite Hj in Hpend.
    unfold after. simpl. rewrite nth_error_update_nth_eq.
    destruct (nth_error (waits s) w) as [wt|] eqn:Hw.
    + simpl. pose proof (inv_waits _ HI) as HW. rewrite Forall_forall in HW.
      destruct (HW wt (nth_error_In _ _ Hw)) as [_ Harmed].
      unfold timer_fire. rewrite (Harmed Hpend). simpl. now rewrite Hpend.
    + apply nth_error_None in Hw. pose proof (inv_joins _ HI j w Hj). lia.
  - intros Hj ->. unfold joinPromise. rewrite joins_after.
    now rewrite nth_error_update_nth_eq, Hj.
Qed.

(** C9, as stated, fails.  After [join] with a room count of 2, the wait is
    pending, listening and armed.  When its timer fires first, the promise
    is rejected and the once-listener is still registered; when instead
    [destroy()] is called, the wait is exactly as before: pending,
    listening, armed. *)
Lemma join_wait_left_registered :
  (let s := run (constructor "app" true) [CallJoin "room" ""; RelayRoomCount 2] in
   waits s = [mkWait "full-connect" true true Pending] /\
   waits (after s (WaitTimeout 0)) = [mkWait "full-connect" true false Rejected] /\
   waits (after s CallDestroy) = [mkWait "full-connect" true true Pending] /\
   joinPromise (after s CallDestroy) 0 = Pending) /\
  ~ timeout_unregisters_listener /\
  ~ teardown_cancels_waits.
Proof.
  split; [vm_compute; repeat split|]. split.
  - intros H.
    specialize (H "app" true [CallJoin "room" ""; RelayRoomCount 2] 0
                  (mkWait "full-connect" true false Rejected)).
    vm_compute in H. specialize (H eq_refl eq_refl). discriminate.
  - intros H.
    specialize (H "app" true [CallJoin "room" ""; RelayRoomCount 2] 0
                  (mkWait "full-connect" true true Pending)).
    vm_compute in H. now apply (H eq_refl).
Qed.

(** C9, amended.  The promise of a [join] settles at most once: once
    fulfilled or rejected, no event changes it, so a wait rejected by its
    timeout is never resolved afterwards.  A timer that fires while the
    wait is pending rejects the [join].  [destroy()] cancels nothing: it
    leaves every wait and every [join] as it was. *)
Theorem join_wait_settles_once (s : Mesh) (e : Event) (j : nat) :
  (joinPromise s j <> Pending -> joinPromise (after s e) j = joinPromise s j) /\
  (forall w wt,
      nth_error (joins s) j = Some (JAwaitFullConnect w) ->
      nth_error (waits s) w = Some wt ->
      w_promise wt = Pending -> w_timer wt = true ->
      joinPromise (after s (WaitTimeout w)) j = Rejected) /\
  (waits (after s CallDestroy) = waits s /\
   joins (after s CallDestroy) = joins s /\
   joinPromise (after s CallDestroy) j = joinPromise s j).
Proof.
  split; [apply joinPromise_settled_stays|]. split.
  - intros w wt Hj Hw Hpend Harmed. unfold joinPromise.
    rewrite (join_settled_stays s _ j _ Hj) by discriminate.
    unfold after. simpl. rewrite nth_error_update_nth_eq, Hw. simpl.
    unfold timer_fire. rewrite Harmed. simpl. now rewrite Hpend.
  - assert (Hw : waits (after s CallDestroy) = waits s) by apply waits_destroy.
    assert (Hj : joins (after s CallDestroy) = joins s) by apply joins_destroy.
    repeat split; auto. unfold joinPromise. now rewrite Hw, Hj.
Qed.

Lemma join_wait_settles_once_witness :
  let s := run (constructor "app" true)
               [CallJoin "room" ""; RelayRoomCount 2; WaitTimeout 0; RelayInitialize "a"] in
  joinPromise s 0 = Rejected /\
  joinPromise (after s (PeerConnects 0)) 0 = joinPromise s 0 /\
  (let s0 := run (constructor "app" true) [CallJoin "room" ""; RelayRoomCount 2] in
   joinPromise (after s0 (WaitTimeout 0)) 0 = Rejected).
Proof.
  cbv zeta. split; [vm_compute; reflexivity|]. split.
  - pose proof (join_wait_settles_once
                  (run (constructor "app" true)
                       [CallJoin "room" ""; RelayRoomCount 2; WaitTimeout 0;
                        RelayInitialize "a"])
                  (PeerConnects 0) 0) as (Hstays & _).
    apply Hstays. vm_compute. discriminate.
  - pose proof (join_wait_settles_once
                  (run (constructor "app" true) [CallJoin "room" ""; RelayRoomCount 2])
                  (WaitTimeout 0) 0) as (_ & Htimeout & _).
    apply (Htimeout 0 (mkWait "full-connect" true true Pending));
      vm_compute; reflexivity.
Defined.

(** * Further properties of [MultiPeerMesh] *)

Module MeshMore.
Import MeshSpecMore.

Lemma same_object_refl p : same_object p p.
Proof. repeat split. Qed.

Lemma same_object_trans p1 p2 p3 :
  same_object p1 p2 -> same_object p2 p3 -> same_object p1 p3.
Proof. intros (?&?&?&?) (?&?&?&?). repeat split; congruence. Qed.

Lemma heap_le_refl h : heap_le h h.
Proof. intros r p H. eauto using same_object_refl. Qed.

Lemma heap_le_trans h1 h2 h3 : heap_le h1 h2 -> heap_le h2 h3 -> heap_le h1 h3.
Proof.
  intros H12 H23 r p H.
  destruct (H12 r p H) as (p2 & H2 & S2).
  destruct (H23 r p2 H2) as (p3 & H3 & S3).
  eauto using same_object_trans.
Qed.

Lemma heap_le_update r f (h : Heap) :
  (forall p, same_object p (f p)) -> heap_le h (update r f h).
Proof.
  intros Hf r' p H. destruct (Nat.eq_dec r r') as [<-|Hne].
  - exists (f p). rewrite nth_error_update_eq, H. auto.
  - exists p. rewrite nth_error_update_ne by assumption. auto using same_object_refl.
Qed.

Lemma heap_le_app (h : Heap) new : heap_le h (h ++ new).
Proof.
  intros r p H. exists p. split; [|apply same_object_refl].
  rewrite nth_error_app1; auto. apply nth_error_Some. congruence.
Qed.

Lemma heap_le_try_destroy r (h : Heap) : heap_le h (try_destroy r h).
Proof.
  unfold try_destroy. destruct (nth_error h r) as [p|] eqn:E; [|apply heap_le_refl].
  unfold Peer_destroy. destruct (destroyed p); [apply heap_le_refl|].
  intros r' q H. destruct (Nat.eq_dec r r') as [<-|Hne].
  - exists (Peer_close p). rewrite nth_error_update_eq, E. split; auto.
    assert (q = p) by congruence. subst. repeat split.
  - exists q. rewrite nth_error_update_ne by assumption. auto using same_object_refl.
Qed.

Lemma heap_le_fold_update f (l : obj nat) : forall h : Heap,
  (forall p, same_object p (f p)) ->
  heap_le h (fold_left (fun h kv => update (snd kv) f h) l h).
Proof.
  induction l as [|kv rest IH]; simpl; intros h Hf; [apply heap_le_refl|].
  eapply heap_le_trans; [apply heap_le_update, Hf|]. now apply IH.
Qed.

Lemma heap_le_call_peer call r (h : Heap) :
  (forall p p', call p = Normal p' -> same_object p p') ->
  heap_le h (fst (call_peer call r h)).
Proof.
  intros Hcall. unfold call_peer. destruct (nth_error h r) as [p|] eqn:E;
    [|apply heap_le_refl].
  destruct (call p) as [p'|] eqn:Ec; simpl; [|apply heap_le_refl].
  intros r' q H. destruct (Nat.eq_dec r r') as [<-|Hne].
  - exists p'. rewrite nth_error_update_eq, E. split; [reflexivity|].
    assert (q = p) by congruence. subst q. now apply Hcall.
  - exists q. rewrite nth_error_update_ne by assumption. auto using same_object_refl.
Qed.

Lemma heap_le_for_each_peer call (l : obj nat) : forall h : Heap,
  (forall p p', call p = Normal p' -> same_object p p') ->
  heap_le h (fst (for_each_peer call l h)).
Proof.
  induction l as [|kv rest IH]; simpl; intros h Hcall; [apply heap_le_refl|].
  pose proof (heap_le_call_peer call (snd kv) h Hcall) as H1.
  destruct (call_peer call (snd kv) h) as [h' [e|]]; simpl in *; [exact H1|].
  eapply heap_le_trans; [exact H1 | now apply IH].
Qed.

Lemma Peer_send_same m p p' : Peer_send m p = Normal p' -> same_object p p'.
Proof. intros H. rewrite (Peer_send_accepted _ _ _ H). repeat split. Qed.

Lemma Peer_addStream_same st p p' : Peer_addStream st p = Normal p' -> same_object p p'.
Proof. intros H. rewrite (Peer_addStream_accepted _ _ _ H). repeat split. Qed.

Lemma Peer_removeStream_same st p p' :
  Peer_removeStream st p = Normal p' -> same_object p p'.
Proof. intros H. rewrite (Peer_removeStream_accepted _ _ _ H). repeat split. Qed.

Lemma heap_le_fold_destroy_entry (l : obj nat) : forall s,
  heap_le (heap s) (heap (fold_left destroy_entry l s)).
Proof.
  induction l as [|kv rest IH]; simpl; intros s; [apply heap_le_refl|].
  eapply heap_le_trans; [|apply IH]. simpl. apply heap_le_try_destroy.
Qed.

(** The peer map after an event. *)
Lemma peers_after s e :
  peers (after s e) =
  match e with
  | RelayInitialize id => set id (List.length (heap s)) (peers s)
  | RelayDestroy id => delete id (peers s)
  | RelaySignal id _ =>
      if hasOwnProperty id (peers s) then peers s
      else set id (List.length (heap s)) (peers s)
  | CallDestroy => []
  | _ => peers s
  end.
Proof.
  destruct e; unfold after; simpl;
    unfold on_socket_id, peer_on_signal, peer_on_data, peer_on_stream, peer_on_connect,
           peer_on_track, peer_on_error, peer_on_close, create, join, request, from_peer;
    try reflexivity;
    try (destruct (nth_error (heap s) r) as [p|]; [destruct (destroyed p)|];
         rewrite ?checkFullConnect_peers; reflexivity).
  - apply on_room_count_peers.
  - unfold on_destroy. destruct (get id (peers s)) as [r|] eqn:E; auto.
    simpl. symmetry. apply delete_absent. intros Hin.
    unfold keys in Hin. apply in_map_iff in Hin as [[k v] [Hk Hin]]. simpl in Hk. subst k.
    induction (peers s) as [|[k' v'] rest IH]; simpl in *; [tauto|].
    destruct (String.eqb_spec k' id) as [->|Hne]; [discriminate|].
    destruct Hin as [Hin|Hin]; [congruence|auto].
  - unfold on_signal. destruct (hasOwnProperty id (peers s)); simpl.
    + now destruct (get id (peers s)).
    + now destruct (get id _).
  - unfold send. now destruct (get id (peers s)).
  - unfold sendStream. destruct (hasOwnProperty _ _); auto.
    now destruct (get id (peers s)).
  - unfold removeStream. destruct (hasOwnProperty _ _); auto.
    now destruct (get id (peers s)).
  - apply destroy_peers.
Qed.

(** Every object outlives every event, with what it was constructed with. *)
Lemma heap_le_after s e : heap_le (heap s) (heap (after s e)).
Proof.
  unfold after. destruct e; simpl;
    unfold on_socket_id, peer_on_signal, peer_on_data, peer_on_stream,
           peer_on_track, peer_on_error, peer_on_close, create, join, request, from_peer;
    try apply heap_le_refl;
    try (destruct (nth_error (heap s) r) as [p|]; [destruct (destroyed p)|];
         apply heap_le_refl).
  - rewrite on_room_count_heap. apply heap_le_refl.
  - unfold on_initialize, createPeer, alloc. simpl. apply heap_le_app.
  - unfold on_destroy. destruct (get id (peers s)); [|apply heap_le_refl].
    simpl. apply heap_le_try_destroy.
  - unfold on_signal. destruct (hasOwnProperty id (peers s)); simpl.
    + destruct (get id (peers s)); [|apply heap_le_refl].
      simpl. apply heap_le_update. intros p. repeat split.
    + unfold createPeer, alloc. simpl.
      destruct (get id _); simpl; [|apply heap_le_app].
      eapply heap_le_trans; [apply heap_le_app|].
      apply heap_le_update. intros p. repeat split.
  - destruct (nth_error (heap s) r) as [p|]; [destruct (destroyed p)|];
      try apply heap_le_refl.
    unfold peer_on_connect. rewrite checkFullConnect_heap. simpl.
    apply heap_le_update. intros q. repeat split.
  - destruct (nth_error (heap s) r) as [p|]; [destruct (destroyed p)|];
      try apply heap_le_refl.
    simpl. apply heap_le_update. intros q. repeat split.
  - apply heap_le_for_each_peer, Peer_send_same.
  - unfold send. destruct (get id (peers s)); [|apply heap_le_refl].
    simpl. apply heap_le_call_peer, Peer_send_same.
  - apply (heap_le_for_each_peer (Peer_addStream st) (peers s) (heap s)),
      Peer_addStream_same.
  - unfold sendStream. destruct (hasOwnProperty _ _); [|apply heap_le_refl].
    destruct (get id (peers s)); [|apply heap_le_refl].
    simpl. apply heap_le_call_peer, Peer_addStream_same.
  - unfold removeStream. destruct (hasOwnProperty _ _); [|apply heap_le_refl].
    destruct (get id (peers s)); [|apply heap_le_refl].
    simpl. apply heap_le_call_peer, Peer_removeStream_same.
  - apply (heap_le_for_each_peer (Peer_removeStream st) (peers s) (heap s)),
      Peer_removeStream_same.
  - unfold destroy. apply (heap_le_fold_destroy_entry _ (signal_destroy s)).
Qed.

Lemma heap_length_after s e :
  List.length (heap (after s e)) =
  List.length (heap s) + match allocated s e with Some _ => 1 | None => 0 end.
Proof.
  unfold after. destruct e; simpl;
    unfold on_socket_id, peer_on_signal, peer_on_data, peer_on_stream, peer_on_connect,
           peer_on_track, peer_on_error, peer_on_close, create, join, request, from_peer;
    rewrite ?Nat.add_0_r; try reflexivity;
    try (destruct (nth_error (heap s) r) as [p|]; [destruct (destroyed p)|];
         rewrite ?checkFullConnect_heap; simpl; rewrite ?update_length; reflexivity).
  - now rewrite on_room_count_heap.
  - unfold on_initialize, createPeer, alloc. simpl. now rewrite length_app.
  - unfold on_destroy. destruct (get id (peers s)); auto.
    simpl. apply try_destroy_length.
  - unfold on_signal. destruct (hasOwnProperty id (peers s)); simpl.
    + destruct (get id (peers s)); simpl; rewrite ?update_length; lia.
    + unfold createPeer, alloc. simpl.
      destruct (get id _); simpl; rewrite ?update_length, length_app; reflexivity.
  - apply for_each_peer_length.
  - unfold send. destruct (get id (peers s)); simpl; rewrite ?call_peer_length; reflexivity.
  - apply (for_each_peer_length (Peer_addStream st) (peers s) (heap s)).
  - unfold sendStream. destruct (hasOwnProperty _ _); auto.
    destruct (get id (peers s)); simpl; rewrite ?call_peer_length; reflexivity.
  - unfold removeStream. destruct (hasOwnProperty _ _); auto.
    destruct (get id (peers s)); simpl; rewrite ?call_peer_length; reflexivity.
  - apply (for_each_peer_length (Peer_removeStream st) (peers s) (heap s)).
  - unfold destroy. apply (fold_destroy_entry_heap_length _ (signal_destroy s)).
Qed.

Lemma allocated_at_end s e p :
  allocated s e = Some p ->
  nth_error (heap (after s e)) (List.length (heap s)) = Some p /\
  get (socketId p) (peers (after s e)) = Some (List.length (heap s)).
Proof.
  destruct e; simpl; try discriminate.
  - intros H. inversion H; subst. clear H. unfold after. simpl.
    unfold on_initialize, createPeer, alloc. simpl. split.
    + rewrite nth_error_app2, Nat.sub_diag by lia. reflexivity.
    + apply get_set_eq.
  - destruct (hasOwnProperty id (peers s)) eqn:E; try discriminate.
    intros H. inversion H; subst. clear H. unfold after. simpl.
    unfold on_signal. rewrite E. unfold createPeer, alloc. simpl.
    rewrite get_set_eq. simpl. split.
    + rewrite nth_error_update_eq, nth_error_app2, Nat.sub_diag by lia. reflexivity.
    + apply get_set_eq.
Qed.

Lemma hasOwnProperty_false {V} k (o : obj V) :
  hasOwnProperty k o = false <-> get k o = None.
Proof. unfold hasOwnProperty. destruct (get k o); split; congruence. Qed.

Lemma tagged_constructor app trick : tagged (constructor app trick).
Proof. intros id r H. discriminate. Qed.

Lemma tagged_after s e : tagged s -> tagged (after s e).
Proof.
  intros HT id r Hget.
  assert (Hold : get id (peers s) = Some r ->
                 exists p, nth_error (heap (after s e)) r = Some p /\ socketId p = id).
  { intros H. destruct (HT id r H) as (p & Hp & Hid).
    destruct (heap_le_after s e r p Hp) as (p' & Hp' & (Hs & _)).
    exists p'. split; auto. congruence. }
  assert (Hnew : forall p, allocated s e = Some p -> socketId p = id ->
                           r = List.length (heap s) ->
                 exists p, nth_error (heap (after s e)) r = Some p /\ socketId p = id).
  { intros p Hal Hid ->. destruct (allocated_at_end s e p Hal) as [Hp _]. eauto. }
  rewrite peers_after in Hget. destruct e; auto.
  - destruct (String.eqb_spec id0 id) as [->|Hne].
    + rewrite get_set_eq in Hget. inversion Hget; subst. eapply Hnew; simpl; eauto.
    + rewrite get_set_ne in Hget by assumption. auto.
  - destruct (String.eqb_spec id0 id) as [->|Hne].
    + rewrite get_delete_eq in Hget. discriminate.
    + rewrite get_delete_ne in Hget by assumption. auto.
  - destruct (hasOwnProperty id0 (peers s)) eqn:E; auto.
    destruct (String.eqb_spec id0 id) as [->|Hne].
    + rewrite get_set_eq in Hget. inversion Hget; subst.
      eapply Hnew; simpl; rewrite ?E; eauto.
    + rewrite get_set_ne in Hget by assumption. auto.
  - discriminate.
Qed.

Lemma tagged_run es : forall s, tagged s -> tagged (run s es).
Proof.
  induction es as [|e rest IH]; simpl; intros s H; auto using tagged_after.
Qed.

Lemma fresh_emit_one s e n :
  emitted (after s e) = emitted s ++ [n] -> fresh s e = [n].
Proof.
  intros H. unfold fresh. rewrite H, skipn_app, Nat.sub_diag, skipn_all. reflexivity.
Qed.

Lemma heap_le_run es : forall s, heap_le (heap s) (heap (run s es)).
Proof.
  induction es as [|e rest IH]; simpl; intros s; [apply heap_le_refl|].
  eapply heap_le_trans; [apply heap_le_after|apply IH].
Qed.

(** ** Objects in and out of the peer map *)

Lemma In_set_strong {V} (kv : string * V) k v (o : obj V) :
  NoDup (keys o) -> In kv (set k v o) -> kv = (k, v) \/ (In kv o /\ fst kv <> k).
Proof.
  induction o as [|[k' v'] rest IH]; simpl; intros Hnd.
  - intros [H|[]]; auto.
  - inversion Hnd as [|? ? Hnotin Hnd']; subst.
    destruct (String.eqb_spec k' k) as [->|Hk]; simpl; intros [H|H]; auto.
    + right. split; auto. intros Heq. apply Hnotin. rewrite <- Heq.
      unfold keys. now apply in_map.
    + right. subst kv. auto.
    + destruct (IH Hnd' H) as [?|[? ?]]; auto.
Qed.

Lemma NoDup_values_inj {V} (o : obj V) k1 k2 v :
  NoDup (values o) -> In (k1, v) o -> In (k2, v) o -> k1 = k2.
Proof.
  induction o as [|[k' v'] rest IH]; simpl; intros Hnd H1 H2; [tauto|].
  inversion Hnd as [|? ? Hnotin Hnd']; subst.
  assert (Hin : forall k, In (k, v') rest -> False).
  { intros k Hk. apply Hnotin. unfold values. change v' with (snd (k, v')).
    now apply in_map. }
  destruct H1 as [H1|H1], H2 as [H2|H2].
  - congruence.
  - inversion H1; subst. destruct (Hin _ H2).
  - inversion H2; subst. destruct (Hin _ H1).
  - eauto.
Qed.

(** Overwriting an entry drops its old value from the map. *)
Lemma value_replaced_by_set (o : obj nat) k r v :
  NoDup (keys o) -> NoDup (values o) ->
  get k o = Some r -> v <> r -> ~ In r (values (set k v o)).
Proof.
  intros Hk Hv Hget Hne Hin.
  unfold values in Hin. apply in_map_iff in Hin as [[k' r'] [Hr Hin]].
  simpl in Hr. subst r'.
  apply In_set_strong in Hin as [Heq|[Hin Hk']]; auto.
  - congruence.
  - simpl in Hk'. apply Hk'. eapply NoDup_values_inj; eauto using get_In.
Qed.

Lemma nth_error_try_destroy_ne r r' (h : Heap) :
  r <> r' -> nth_error (try_destroy r h) r' = nth_error h r'.
Proof.
  intros Hne. unfold try_destroy. destruct (nth_error h r) as [p|]; auto.
  destruct (Peer_destroy p); auto using nth_error_update_ne.
Qed.

Lemma fold_destroy_entry_outside (l : obj nat) r : forall s,
  ~ In r (values l) ->
  nth_error (heap (fold_left destroy_entry l s)) r = nth_error (heap s) r.
Proof.
  induction l as [|kv rest IH]; simpl; intros s Hnot; auto.
  rewrite IH by tauto. simpl. apply nth_error_try_destroy_ne. tauto.
Qed.

Lemma closed_at_try_destroy r (h : Heap) :
  r < List.length h -> closed_at (try_destroy r h) r.
Proof.
  intros Hlt. unfold try_destroy, closed_at.
  destruct (nth_error h r) as [p|] eqn:E.
  - unfold Peer_destroy. destruct (destroyed p) eqn:D; eauto.
    exists (Peer_close p). now rewrite nth_error_update_eq, E.
  - apply nth_error_None in E. lia.
Qed.

Lemma closed_at_stays r r' (h : Heap) :
  closed_at h r -> closed_at (try_destroy r' h) r.
Proof.
  intros (p & Hp & Hd). destruct (Nat.eq_dec r' r) as [->|Hne].
  - unfold try_destroy, Peer_destroy. rewrite Hp, Hd. exists p. auto.
  - exists p. now rewrite nth_error_try_destroy_ne.
Qed.

Lemma fold_destroy_entry_closed (l : obj nat) r : forall s,
  closed_at (heap s) r -> closed_at (heap (fold_left destroy_entry l s)) r.
Proof.
  induction l as [|kv rest IH]; simpl; intros s H; auto.
  apply IH. simpl. now apply closed_at_stays.
Qed.

Lemma fold_destroy_entry_closes (l : obj nat) r : forall s,
  In r (values l) -> r < List.length (heap s) ->
  closed_at (heap (fold_left destroy_entry l s)) r.
Proof.
  induction l as [|kv rest IH]; simpl; intros s Hin Hlt; [tauto|].
  destruct Hin as [<-|Hin].
  - apply fold_destroy_entry_closed. simpl. now apply closed_at_try_destroy.
  - apply IH; auto. simpl. now rewrite try_destroy_length.
Qed.

(** One entry's object turning connected raises the count by one. *)
Lemma filter_length_flip (o : obj nat) (f f' : nat -> bool) r :
  NoDup (values o) -> In r (values o) ->
  f r = false -> f' r = true -> (forall r', r' <> r -> f' r' = f r') ->
  List.length (filter (fun kv => f' (snd kv)) o) =
  S (List.length (filter (fun kv => f (snd kv)) o)).
Proof.
  intros Hnd Hin Hf Hf' Hother.
  induction o as [|[k v] rest IH]; simpl in *; [tauto|].
  inversion Hnd as [|? ? Hnotin Hnd']; subst.
  destruct Hin as [->|Hin].
  - rewrite Hf, Hf'. simpl. f_equal. apply filter_length_ext.
    intros [k' v'] Hkv. simpl. apply Hother. intros ->. apply Hnotin.
    unfold values. change r with (snd (k', r)). now apply in_map.
  - assert (v <> r) by (intros ->; contradiction).
    rewrite (Hother v) by assumption.
    destruct (f v); simpl; rewrite IH; auto.
Qed.

Lemma update_outside_values (o : obj nat) id r0 r f (h : Heap) :
  get id o = Some r0 -> ~ In r (values o) ->
  nth_error (update r0 f h) r = nth_error h r.
Proof.
  intros Hget Hnot. apply nth_error_update_ne. intros ->.
  apply Hnot. eauto using get_In_values.
Qed.

Lemma call_peer_outside_values (o : obj nat) id r0 r call (h : Heap) :
  get id o = Some r0 -> ~ In r (values o) ->
  nth_error (fst (call_peer call r0 h)) r = nth_error h r.
Proof.
  intros Hget Hnot. apply call_peer_ne. intros ->.
  apply Hnot. eauto using get_In_values.
Qed.

(** An event leaves alone every object outside the peer map, except for
    that object's own transport notifications. *)
Lemma outside_untouched s e r :
  r < List.length (heap s) -> ~ In r (values (peers s)) ->
  e <> PeerConnects r -> e <> PeerCloses r ->
  nth_error (heap (after s e)) r = nth_error (heap s) r.
Proof.
  intros Hlt Hnot Hc Hx. unfold after. destruct e; simpl;
    unfold on_socket_id, peer_on_signal, peer_on_data, peer_on_stream,
           peer_on_track, peer_on_error, peer_on_close, create, join, request, from_peer;
    try reflexivity;
    try (destruct (nth_error (heap s) r0) as [p|]; [destruct (destroyed p)|];
         reflexivity).
  - now rewrite on_room_count_heap.
  - unfold on_initialize, createPeer, alloc. simpl. now rewrite nth_error_app1.
  - unfold on_destroy. destruct (get id (peers s)) as [r0|] eqn:E; auto.
    simpl. apply nth_error_try_destroy_ne. intros ->.
    apply Hnot. eauto using get_In_values.
  - unfold on_signal. destruct (hasOwnProperty id (peers s)) eqn:E; simpl.
    + destruct (get id (peers s)) as [r0|] eqn:G; auto.
      simpl. eapply update_outside_values; eauto.
    + unfold createPeer, alloc. simpl. rewrite get_set_eq. simpl.
      rewrite nth_error_update_ne by lia. now rewrite nth_error_app1.
  - destruct (nth_error (heap s) r0) as [p|]; [destruct (destroyed p)|]; auto.
    unfold peer_on_connect. rewrite checkFullConnect_heap. simpl.
    apply nth_error_update_ne. congruence.
  - destruct (nth_error (heap s) r0) as [p|]; [destruct (destroyed p)|]; auto.
    simpl. apply nth_error_update_ne. congruence.
  - now apply for_each_peer_outside.
  - unfold send. destruct (get id (peers s)) as [r0|] eqn:G; auto.
    simpl. eapply call_peer_outside_values; eauto.
  - now apply (for_each_peer_outside (Peer_addStream st) (peers s) r (heap s)).
  - unfold sendStream. destruct (hasOwnProperty _ _); auto.
    destruct (get id (peers s)) as [r0|] eqn:G; auto.
    simpl. eapply call_peer_outside_values; eauto.
  - unfold removeStream. destruct (hasOwnProperty _ _); auto.
    destruct (get id (peers s)) as [r0|] eqn:G; auto.
    simpl. eapply call_peer_outside_values; eauto.
  - now apply (for_each_peer_outside (Peer_removeStream st) (peers s) r (heap s)).
  - unfold destroy. now apply (fold_destroy_entry_outside _ r (signal_destroy s)).
Qed.

Lemma outside_stays_outside s e r :
  r < List.length (heap s) -> ~ In r (values (peers s)) ->
  ~ In r (values (peers (after s e))).
Proof.
  intros Hlt Hnot. rewrite peers_after. destruct e; auto.
  - intros Hin. apply values_set_In in Hin as [->|Hin]; [lia|auto].
  - intros Hin. apply values_delete_In in Hin. auto.
  - destruct (hasOwnProperty id (peers s)); auto.
    intros Hin. apply values_set_In in Hin as [->|Hin]; [lia|auto].
Qed.

(** ** Waits and joins *)

Lemma join_resume_exact n s j s' :
  join_resume n s = (j, s') -> n <> 1%Z ->
  j = JAwaitFullConnect (List.length (waits s)) /\
  waits s' = waits (checkFullConnect s) ++ [mkWait "full-connect" true true Pending].
Proof.
  unfold join_resume. intros H Hne.
  destruct (Z.eqb_spec n 1) as [->|_]; [congruence|].
  simpl in H. inversion H; subst. simpl.
  now rewrite checkFullConnect_waits_length.
Qed.

Lemma resume_joins_none n js : forall s,
  (forall j, nth_error js j <> Some JAwaitRoomCount) ->
  resume_joins n js s = (js, s).
Proof.
  induction js as [|j0 rest IH]; simpl; intros s Hno; auto.
  assert (Hrest : forall j, nth_error rest j <> Some JAwaitRoomCount)
    by (intros j; apply (Hno (S j))).
  destruct j0; try (now rewrite IH).
  destruct (Hno 0). reflexivity.
Qed.

(** The last [join] to resume finds its wait pending at the end of the
    event. *)
Lemma resume_joins_last n js : forall s js' s' j,
  resume_joins n js s = (js', s') -> n <> 1%Z ->
  nth_error js j = Some JAwaitRoomCount ->
  (forall j', j < j' -> nth_error js j' <> Some JAwaitRoomCount) ->
  exists w, nth_error js' j = Some (JAwaitFullConnect w) /\
            nth_error (waits s') w = Some (mkWait "full-connect" true true Pending).
Proof.
  induction js as [|j0 rest IH]; simpl; intros s js' s' j H Hne Hj Hlast.
  - now destruct j.
  - destruct j as [|j]; simpl in Hj.
    + inversion Hj; subst j0.
      destruct (join_resume n s) as [j1 s1] eqn:E1.
      rewrite (resume_joins_none n rest s1) in H
        by (intros j'; apply (Hlast (S j')); lia).
      inversion H; subst.
      apply join_resume_exact in E1 as [-> Hw]; auto.
      eexists. split; [reflexivity|]. rewrite Hw.
      rewrite nth_error_app2 by (rewrite checkFullConnect_waits_length; lia).
      now rewrite checkFullConnect_waits_length, Nat.sub_diag.
    + assert (Hlast' : forall j', j < j' -> nth_error rest j' <> Some JAwaitRoomCount)
        by (intros j' Hlt; apply (Hlast (S j')); lia).
      destruct j0.
      * destruct (join_resume n s) as [j1 s1] eqn:E1.
        destruct (resume_joins n rest s1) as [rest' s2] eqn:E2.
        inversion H; subst. simpl. eauto.
      * destruct (resume_joins n rest s) as [rest' s2] eqn:E2.
        inversion H; subst. simpl. eauto.
      * destruct (resume_joins n rest s) as [rest' s2] eqn:E2.
        inversion H; subst. simpl. eauto.
      * destruct (resume_joins n rest s) as [rest' s2] eqn:E2.
        inversion H; subst. simpl. eauto.
Qed.

(** The [join]s that resume in one event get waits of their own, in call
    order. *)
Lemma resume_joins_ordered n js : forall s js' s' j1 j2 w1 w2,
  resume_joins n js s = (js', s') ->
  j1 < j2 ->
  nth_error js j1 = Some JAwaitRoomCount -> nth_error js j2 = Some JAwaitRoomCount ->
  nth_error js' j1 = Some (JAwaitFullConnect w1) ->
  nth_error js' j2 = Some (JAwaitFullConnect w2) ->
  w1 < w2.
Proof.
  induction js as [|j0 rest IH]; simpl; intros s js' s' j1 j2 w1 w2 H Hlt H1 H2 H1' H2'.
  - now destruct j1.
  - destruct j2 as [|j2]; [lia|]. simpl in H2.
    destruct j1 as [|j1]; simpl in H1.
    + inversion H1; subst j0.
      destruct (join_resume n s) as [j s1] eqn:E1.
      destruct (resume_joins n rest s1) as [rest' s2] eqn:E2.
      inversion H; subst. simpl in H1', H2'. inversion H1'; subst j.
      destruct (Z.eq_dec n 1) as [->|Hne].
      { unfold join_resume in E1. simpl in E1. inversion E1. }
      apply join_resume_exact in E1 as [Hw Hwaits]; auto. inversion Hw; subst w1.
      pose proof (resume_joins_nth _ _ _ _ _ j2 E2) as Hn. rewrite H2 in Hn.
      destruct Hn as [[-> _]|(_ & w & Hw2 & Hle)]; [congruence|].
      rewrite H2' in Hw2. inversion Hw2; subst w.
      rewrite Hwaits, length_app, checkFullConnect_waits_length in Hle. simpl in Hle. lia.
    + assert (j1 < j2) by lia.
      destruct j0.
      * destruct (join_resume n s) as [j s1] eqn:E1.
        destruct (resume_joins n rest s1) as [rest' s2] eqn:E2.
        inversion H; subst. simpl in H1', H2'. eauto.
      * destruct (resume_joins n rest s) as [rest' s2] eqn:E2.
        inversion H; subst. simpl in H1', H2'. eauto.
      * destruct (resume_joins n rest s) as [rest' s2] eqn:E2.
        inversion H; subst. simpl in H1', H2'. eauto.
      * destruct (resume_joins n rest s) as [rest' s2] eqn:E2.
        inversion H; subst. simpl in H1', H2'. eauto.
Qed.

Lemma waits_after_room_count n s :
  waits (after s (RelayRoomCount n)) =
  waits (snd (resume_joins n (joins s)
                (checkFullConnect (emit (NRoomCount n) (with_roomCount (Some n) s))))).
Proof.
  unfold after. simpl. unfold on_room_count, signal_update_roomCount.
  rewrite checkFullConnect_joins. simpl.
  now destruct (resume_joins n _ _).
Qed.

Lemma resume_joins_checks n js : forall s js' s',
  resume_joins n js s = (js', s') ->
  checks s' = checks s + List.length (filter awaiting_room_count js).
Proof.
  induction js as [|j0 rest IH]; simpl; intros s js' s' H.
  - inversion H; subst. lia.
  - destruct j0; simpl.
    + destruct (join_resume n s) as [j1 s1] eqn:E1.
      destruct (resume_joins n rest s1) as [rest' s2] eqn:E2.
      inversion H; subst.
      apply join_resume_log in E1 as [Hc _]. apply IH in E2. lia.
    + destruct (resume_joins n rest s) as [rest' s2] eqn:E2.
      inversion H; subst. eauto.
    + destruct (resume_joins n rest s) as [rest' s2] eqn:E2.
      inversion H; subst. eauto.
    + destruct (resume_joins n rest s) as [rest' s2] eqn:E2.
      inversion H; subst. eauto.
Qed.

Lemma checks_after_room_count n s :
  checks (after s (RelayRoomCount n)) =
  S (checks s) + List.length (filter awaiting_room_count (joins s)).
Proof.
  unfold after. simpl. unfold on_room_count, signal_update_roomCount.
  rewrite checkFullConnect_joins. simpl.
  destruct (resume_joins n _ _) as [js s3] eqn:E. simpl.
  apply resume_joins_checks in E. rewrite checkFullConnect_checks in E. exact E.
Qed.

Lemma nth_error_app_last {A} (l : list A) x : nth_error (l ++ [x]) (List.length l) = Some x.
Proof. now rewrite nth_error_app2, Nat.sub_diag by lia. Qed.

(** ** Loops over the peer map *)

Lemma serves_until_refusal_loop
      (call : Peer -> Completion Peer) (accepts : Peer -> bool)
      (accepted : Peer -> Peer) (refusal : Peer -> JsError)
      (call_spec : forall p, call p = if accepts p then Normal (accepted p)
                                      else Throw (refusal p)) s :
  Inv s ->
  serves_until_refusal accepts accepted s
    (with_heap (fst (for_each_peer call (peers s) (heap s))) s)
    match snd (for_each_peer call (peers s) (heap s)) with
    | None => Normal (with_heap (fst (for_each_peer call (peers s) (heap s))) s)
    | Some err => Throw err
    end.
Proof.
  intros HI.
  pose proof (inv_refs _ HI) as Hnd. pose proof (inv_bound _ HI) as Hb.
  assert (Hin : forall (l : obj nat) r, In r (values l) -> exists id, In (id, r) l).
  { intros l r Hr. unfold values in Hr. apply in_map_iff in Hr as [[id r'] [<- Hkv]].
    now exists id. }
  split; [reflexivity|].
  split; [intros r Hout; now apply for_each_peer_outside|].
  split.
  - intros Hall.
    destruct (loop_all _ _ _ _ call_spec (peers s) (heap s) Hnd Hb) as [Hend Hserved].
    { intros r p Hr Hp. destruct (Hin _ _ Hr) as [id Hkv].
      apply (Hall id r p); [|exact Hp]. apply In_get; [apply (inv_keys _ HI) | exact Hkv]. }
    split; [now rewrite Hend|].
    intros id r p Hget Hp. apply Hserved; [|exact Hp]. eauto using get_In_values.
  - intros before id r behind p Hpeers Hbefore Hp Hno.
    assert (Hnd' : NoDup (values (before ++ (id, r) :: behind))) by now rewrite <- Hpeers.
    assert (Hsub : forall r', In r' (values before) -> In r' (values (peers s))).
    { intros r' Hr'. rewrite Hpeers. unfold values in *. rewrite map_app.
      apply in_or_app. now left. }
    destruct (loop_refused _ _ _ _ call_spec before behind id r (heap s) p Hnd')
      as (Hend & Hserved & Hrest); auto.
    { intros r' p' Hr' Hp'. destruct (Hin _ _ Hr') as [id' Hkv]. eauto. }
    assert (Hapart : forall r', In r' (values ((id, r) :: behind)) ->
                                ~ In r' (values before)).
    { intros r' Hr'. unfold values in *. rewrite map_app in Hnd'.
      now apply (NoDup_app_apart _ _ _ Hnd'). }
    simpl heap. rewrite Hpeers, Hend. split; [|split; [|split]].
    + eexists. reflexivity.
    + intros id' r' p' Hkv Hp'. apply Hserved; [|exact Hp'].
      unfold values. change r' with (snd (id', r')). now apply in_map.
    + rewrite Hrest; [exact Hp|]. apply Hapart. now left.
    + intros id' r' Hkv. apply Hrest, Hapart. right.
      unfold values. change r' with (snd (id', r')). now apply in_map.
Qed.

Lemma Peer_addStream_is_live st p :
  Peer_addStream st p =
  if is_live p then Normal (record_addStream st p)
  else Throw (PeerError "cannot addStream after peer is destroyed").
Proof. unfold Peer_addStream, is_live. now destruct (destroyed p). Qed.

Lemma Peer_removeStream_is_live st p :
  Peer_removeStream st p =
  if is_live p then Normal (record_removeStream st p)
  else Throw (PeerError "cannot removeStream after peer is destroyed").
Proof. unfold Peer_removeStream, is_live. now destruct (destroyed p). Qed.

End MeshMore.

Import MeshSpecMore MeshMore.

(** *** Transport objects *)

(** X1.  In every reachable state the entry filed under an identity holds
    a transport object that was created for that identity, so whatever
    that object notifies is passed on under the identity of its entry:
    data, stream, track and error notifications, the connect notification,
    and its handshake data, which goes to the relay addressed to that
    identity. *)
Theorem notifications_carry_entry_identity app trick (es : list Event) id r :
  let s := run (constructor app trick) es in
  get id (peers s) = Some r ->
  exists p,
    nth_error (heap s) r = Some p /\ socketId p = id /\
    (destroyed p = false ->
     (forall data, fresh s (PeerData r data) = [NData id data]) /\
     (forall st, fresh s (PeerStream r st) = [NStream id st]) /\
     (forall track st, fresh s (PeerTrack r track st) = [NTrack id track st]) /\
     (forall cause, fresh s (PeerErrors r cause) = [NError id cause (initiator p)]) /\
     (exists rest, fresh s (PeerConnects r) = NConnect id :: rest) /\
     (forall data,
         requests (after s (PeerSignals r data)) =
         requests s ++ [RMessage id "signal" data] /\
         fresh s (PeerSignals r data) = [])).
Proof.
  cbv zeta. generalize (tagged_run es _ (tagged_constructor app trick)).
  generalize (run (constructor app trick) es). intros s HT Hget.
  destruct (HT id r Hget) as (p & Hp & Hid).
  exists p. split; auto. split; auto. intros Hd.
  repeat split; intros.
  - apply fresh_emit_one. unfold after. simpl. unfold from_peer.
    now rewrite Hp, Hd, Hid.
  - apply fresh_emit_one. unfold after. simpl. unfold from_peer.
    now rewrite Hp, Hd, Hid.
  - apply fresh_emit_one. unfold after. simpl. unfold from_peer.
    now rewrite Hp, Hd, Hid.
  - apply fresh_emit_one. unfold after. simpl. unfold from_peer.
    now rewrite Hp, Hd, Hid.
  - eexists. unfold fresh, after. simpl. unfold from_peer. rewrite Hp, Hd, Hid.
    unfold peer_on_connect. rewrite checkFullConnect_emitted. simpl.
    rewrite <- app_assoc, skipn_app, Nat.sub_diag, skipn_all. simpl. reflexivity.
  - unfold after. simpl. unfold from_peer. now rewrite Hp, Hd, Hid.
  - unfold fresh, after. simpl. unfold from_peer. rewrite Hp, Hd. simpl.
    apply skipn_all.
Qed.

Lemma notifications_carry_entry_identity_witness :
  let s := run (constructor "app" true) [RelaySignal "peer-7" "offer"] in
  get "peer-7" (peers s) = Some 0 /\
  fresh s (PeerData 0 "hello") = [NData "peer-7" "hello"] /\
  fresh s (PeerErrors 0 "ice failed") = [NError "peer-7" "ice failed" false] /\
  requests (after s (PeerSignals 0 "answer")) = [RMessage "peer-7" "signal" "answer"].
Proof.
  cbv zeta. split; [vm_compute; reflexivity|].
  destruct (notifications_carry_entry_identity "app" true
              [RelaySignal "peer-7" "offer"] "peer-7" 0) as (p & Hp & _ & Hlive).
  { vm_compute. reflexivity. }
  assert (p = Peer_signal "offer" (new_Peer "peer-7" false true None)) as ->.
  { vm_compute in Hp. injection Hp as <-. vm_compute. reflexivity. }
  destruct (Hlive eq_refl) as (Hdata & _ & _ & Herror & _ & Hsignal).
  split; [apply Hdata|]. split; [apply Herror|]. apply Hsignal.
Defined.

(** X2.  Whatever events follow, a transport object stays allocated at its
    place and keeps what it was constructed with: the identity its
    listeners close over, its role, its trickle setting and its initial
    stream.  No handler re-roles or re-targets an existing object. *)
Theorem objects_keep_identity_and_role (s : Mesh) (es : list Event) r p :
  nth_error (heap s) r = Some p ->
  exists p',
    nth_error (heap (run s es)) r = Some p' /\
    socketId p' = socketId p /\ initiator p' = initiator p /\
    trickle p' = trickle p /\ stream p' = stream p.
Proof. intros H. exact (heap_le_run es s r p H). Qed.

Lemma objects_keep_identity_and_role_witness :
  let s := run (constructor "app" true) [RelayInitialize "a"] in
  exists p',
    nth_error (heap (run s [RelaySignal "a" "answer"; PeerConnects 0;
                            CallBroadcastStream "camera"; RelayInitialize "a";
                            CallDestroy])) 0 = Some p' /\
    socketId p' = "a" /\ initiator p' = true /\ trickle p' = true /\ stream p' = None.
Proof.
  cbv zeta.
  apply (objects_keep_identity_and_role
           (run (constructor "app" true) [RelayInitialize "a"])
           [RelaySignal "a" "answer"; PeerConnects 0; CallBroadcastStream "camera";
            RelayInitialize "a"; CallDestroy]
           0 (new_Peer "a" true true None)).
  vm_compute. reflexivity.
Defined.

(** X3.  A transport object is created only by a relay initialize, as
    initiator, or by a relay signal from an identity without an entry, as
    responder with that payload passed to it at once.  It is allocated
    next in the store, is pending and not destroyed, starts with the
    current broadcast stream, and is filed in the peer map under its
    identity.  Each event creates at most one. *)
Theorem objects_created_by_initialize_or_first_signal (s : Mesh) (e : Event) r p :
  List.length (heap s) <= r ->
  nth_error (heap (after s e)) r = Some p ->
  r = List.length (heap s) /\
  get (socketId p) (peers (after s e)) = Some r /\
  connected p = false /\ destroyed p = false /\
  stream p = broadcastedStream s /\ trickle p = trickle_option s /\
  ((exists id, e = RelayInitialize id /\ socketId p = id /\
               initiator p = true /\ signalled p = []) \/
   (exists id data, e = RelaySignal id data /\ get id (peers s) = None /\
                    socketId p = id /\ initiator p = false /\ signalled p = [data])).
Proof.
  intros Hge Hp.
  assert (Hlt : r < List.length (heap (after s e))) by (apply nth_error_Some; congruence).
  rewrite heap_length_after in Hlt.
  destruct (allocated s e) as [q|] eqn:Hal; [|lia].
  assert (r = List.length (heap s)) as -> by lia.
  destruct (allocated_at_end s e q Hal) as [Hq Hget].
  assert (q = p) as -> by congruence.
  split; auto. split; auto.
  destruct e; simpl in Hal; try discriminate.
  - inversion Hal; subst. simpl. repeat split. left. eauto.
  - destruct (hasOwnProperty id (peers s)) eqn:E; try discriminate.
    inversion Hal; subst. simpl. repeat split. right.
    exists id, data. repeat split. now apply hasOwnProperty_false.
Qed.

Lemma objects_created_by_initialize_or_first_signal_witness :
  let s := run (constructor "app" true) [CallBroadcastStream "camera"; RelayInitialize "a"] in
  let p := Peer_signal "offer" (new_Peer "b" false true (Some "camera")) in
  nth_error (heap (after s (RelaySignal "b" "offer"))) 1 = Some p /\
  get "b" (peers (after s (RelaySignal "b" "offer"))) = Some 1 /\
  stream p = broadcastedStream s.
Proof.
  cbv zeta. split; [vm_compute; reflexivity|].
  destruct (objects_created_by_initialize_or_first_signal
              (run (constructor "app" true)
                   [CallBroadcastStream "camera"; RelayInitialize "a"])
              (RelaySignal "b" "offer") 1
              (Peer_signal "offer" (new_Peer "b" false true (Some "camera"))))
    as (_ & Hget & _ & _ & Hstream & _).
  - vm_compute. lia.
  - vm_compute. reflexivity.
  - split; [exact Hget | exact Hstream].
Defined.

(** X4.  A relay initialize for an identity that already has an entry
    replaces the entry by a fresh initiator object and does not destroy the
    object it replaces: that object stays as it was, is no longer in the
    peer map, and [destroy()] afterwards does not reach it either. *)
Theorem initialize_replaces_without_destroying app trick (es : list Event) id r p :
  let s := run (constructor app trick) es in
  let s' := after s (RelayInitialize id) in
  get id (peers s) = Some r -> nth_error (heap s) r = Some p ->
  get id (peers s') = Some (List.length (heap s)) /\
  nth_error (heap s') (List.length (heap s))
    = Some (new_Peer id true (trickle_option s) (broadcastedStream s)) /\
  nth_error (heap s') r = Some p /\
  ~ In r (values (peers s')) /\
  nth_error (heap (after s' CallDestroy)) r = Some p.
Proof.
  cbv zeta. intros Hget Hp.
  pose proof (Inv_run es _ (Inv_constructor app trick)) as HI.
  set (s := run (constructor app trick) es) in *.
  assert (Hlt : r < List.length (heap s)) by (apply nth_error_Some; congruence).
  destruct (allocated_at_end s (RelayInitialize id) _ eq_refl) as [Hnew Hfiled].
  assert (Hout : ~ In r (values (peers (after s (RelayInitialize id))))).
  { rewrite peers_after.
    apply value_replaced_by_set; auto; [apply (inv_keys _ HI)|apply (inv_refs _ HI)|lia]. }
  assert (Hsame : nth_error (heap (after s (RelayInitialize id))) r = Some p).
  { unfold after. simpl. unfold on_initialize, createPeer, alloc. simpl.
    now rewrite nth_error_app1. }
  repeat split; auto.
  rewrite outside_untouched; auto; try discriminate.
  apply nth_error_Some. congruence.
Qed.

Lemma initialize_replaces_without_destroying_witness :
  let s := run (constructor "app" true) [RelayInitialize "a"; PeerConnects 0] in
  let s' := after s (RelayInitialize "a") in
  get "a" (peers s') = Some 1 /\
  nth_error (heap s') 0 = Some (Peer_open (new_Peer "a" true true None)) /\
  ~ In 0 (values (peers s')) /\
  nth_error (heap (after s' CallDestroy)) 0 = Some (Peer_open (new_Peer "a" true true None)).
Proof.
  cbv zeta.
  destruct (initialize_replaces_without_destroying "app" true
              [RelayInitialize "a"; PeerConnects 0] "a" 0
              (Peer_open (new_Peer "a" true true None)))
    as (Hget & _ & Hsame & Hout & Hleft);
    [vm_compute; reflexivity | vm_compute; reflexivity |].
  repeat split; auto.
Defined.

(** X5.  An object that is not in the peer map is out of the orchestrator's
    reach: no relay event and no call ([broadcast], [send], the stream
    operations, [destroy()]) changes it or files it again; only its own
    connect or close changes it. *)
Theorem objects_outside_map_out_of_reach (s : Mesh) (e : Event) r :
  r < List.length (heap s) -> ~ In r (values (peers s)) ->
  e <> PeerConnects r -> e <> PeerCloses r ->
  nth_error (heap (after s e)) r = nth_error (heap s) r /\
  ~ In r (values (peers (after s e))).
Proof.
  intros Hlt Hnot Hc Hx. split.
  - now apply outside_untouched.
  - now apply outside_stays_outside.
Qed.

Lemma objects_outside_map_out_of_reach_witness :
  let s := run (constructor "app" true)
               [RelayInitialize "a"; PeerConnects 0; RelayInitialize "a"] in
  nth_error (heap (after s (CallBroadcast (JStr "hello")))) 0 = nth_error (heap s) 0 /\
  ~ In 0 (values (peers (after s (CallBroadcast (JStr "hello"))))).
Proof.
  cbv zeta.
  apply (objects_outside_map_out_of_reach
           (run (constructor "app" true)
                [RelayInitialize "a"; PeerConnects 0; RelayInitialize "a"])
           (CallBroadcast (JStr "hello")) 0).
  - vm_compute. lia.
  - vm_compute. intros [H|[]]. discriminate.
  - discriminate.
  - discriminate.
Defined.

(** X6.  In every reachable state, the connect notification of a live
    object that is filed in the peer map and was not yet connected raises
    [getConnectedPeerCount()] by exactly one; the connect notification of
    a live object that is no longer in the map is announced all the same
    but leaves the count as it is. *)
Theorem connect_counts_only_filed_objects app trick (es : list Event) r p :
  let s := run (constructor app trick) es in
  let s' := after s (PeerConnects r) in
  nth_error (heap s) r = Some p -> destroyed p = false ->
  (exists rest, fresh s (PeerConnects r) = NConnect (socketId p) :: rest) /\
  (In r (values (peers s)) -> connected p = false ->
   getConnectedPeerCount s' = S (getConnectedPeerCount s)) /\
  (~ In r (values (peers s)) ->
   getConnectedPeerCount s' = getConnectedPeerCount s).
Proof.
  cbv zeta. intros Hp Hd.
  pose proof (Inv_run es _ (Inv_constructor app trick)) as HI.
  set (s := run (constructor app trick) es) in *.
  assert (Hafter : after s (PeerConnects r) =
                   peer_on_connect (socketId p) (with_heap (update r Peer_open (heap s)) s)).
  { unfold after. simpl. unfold from_peer. now rewrite Hp, Hd. }
  assert (Hcount : getConnectedPeerCount (after s (PeerConnects r)) =
                   getConnectedPeerCount (with_heap (update r Peer_open (heap s)) s)).
  { rewrite Hafter. unfold peer_on_connect. apply getConnectedPeerCount_ext.
    - now rewrite checkFullConnect_heap.
    - now rewrite checkFullConnect_peers. }
  split; [|split].
  - eexists. unfold fresh. rewrite Hafter. unfold peer_on_connect.
    rewrite checkFullConnect_emitted. simpl.
    rewrite <- app_assoc, skipn_app, Nat.sub_diag, skipn_all. simpl. reflexivity.
  - intros Hin Hc. rewrite Hcount. unfold getConnectedPeerCount. simpl.
    apply (filter_length_flip (peers s) (is_connected (heap s))
             (is_connected (update r Peer_open (heap s))) r); auto.
    + apply (inv_refs _ HI).
    + unfold is_connected. now rewrite Hp.
    + unfold is_connected. now rewrite nth_error_update_eq, Hp.
    + intros r' Hne. unfold is_connected. now rewrite nth_error_update_ne by congruence.
  - intros Hout. rewrite Hcount. unfold getConnectedPeerCount. simpl.
    apply filter_length_ext. intros [k r'] Hin. simpl.
    unfold is_connected. rewrite nth_error_update_ne; auto.
    intros ->. apply Hout. unfold values. change r' with (snd (k, r')). now apply in_map.
Qed.

Lemma connect_counts_only_filed_objects_witness :
  (let s := run (constructor "app" true) [RelayInitialize "a"; RelayInitialize "b"] in
   getConnectedPeerCount (after s (PeerConnects 1)) = S (getConnectedPeerCount s)) /\
  (let s := run (constructor "app" true) [RelayInitialize "a"; RelayInitialize "a"] in
   getConnectedPeerCount (after s (PeerConnects 0)) = getConnectedPeerCount s).
Proof.
  cbv zeta. split.
  - destruct (connect_counts_only_filed_objects "app" true
                [RelayInitialize "a"; RelayInitialize "b"] 1
                (new_Peer "b" true true None)) as (_ & Hfiled & _);
      [vm_compute; reflexivity | reflexivity |].
    apply Hfiled; [vm_compute; auto | reflexivity].
  - destruct (connect_counts_only_filed_objects "app" true
                [RelayInitialize "a"; RelayInitialize "a"] 0
                (new_Peer "a" true true None)) as (_ & _ & Horphan);
      [vm_compute; reflexivity | reflexivity |].
    apply Horphan. vm_compute. intros [H|[]]. discriminate.
Defined.

(** *** Streams *)

(** X7.  In every reachable state, [broadcastStream(stream)] first
    records the stream as the default for peers created later and then
    calls [addStream] on the transport object of the entries of the peer
    map in the order of the map; [broadcastRemoveStream(stream)] first
    clears the default, whichever stream it is given, and then calls
    [removeStream] in the same way.  When no entry's object is closed
    the call returns normally and every entry has taken it (a transport
    that is not closed is taken to accept the stream).  Otherwise it
    ends at the first entry whose object is closed, in the raise of that
    object: the entries before it have taken the call, that entry and
    those behind it have not, and the default stays as the call set it.
    Neither touches an object outside the map nor the map itself. *)
Theorem stream_broadcasts_reach_every_entry app trick (es : list Event) (st : Stream) :
  let s := run (constructor app trick) es in
  let s1 := after s (CallBroadcastStream st) in
  let s2 := after s (CallBroadcastRemoveStream st) in
  broadcastedStream s1 = Some st /\ broadcastedStream s2 = None /\
  serves_until_refusal is_live (record_addStream st) s s1
                       (step s (CallBroadcastStream st)) /\
  serves_until_refusal is_live (record_removeStream st) s s2
                       (step s (CallBroadcastRemoveStream st)).
Proof.
  cbv zeta.
  pose proof (Inv_run es _ (Inv_constructor app trick)) as HI.
  generalize dependent (run (constructor app trick) es). intros s HI.
  split; [reflexivity|]. split; [reflexivity|]. split.
  - rewrite step_outcome.
    apply (serves_until_refusal_loop _ _ _ _ (Peer_addStream_is_live st)
             (with_broadcastedStream (Some st) s)).
    revert HI. now apply Inv_frame.
  - rewrite step_outcome.
    apply (serves_until_refusal_loop _ _ _ _ (Peer_removeStream_is_live st)
             (with_broadcastedStream None s)).
    revert HI. now apply Inv_frame.
Qed.

Lemma stream_broadcasts_reach_every_entry_witness :
  (let s := run (constructor "app" true)
                [RelayInitialize "a"; RelayInitialize "a"; RelaySignal "b" "offer"] in
   step s (CallBroadcastStream "camera") = Normal (after s (CallBroadcastStream "camera")) /\
   nth_error (heap (after s (CallBroadcastRemoveStream "camera"))) 2
     = Some (record_removeStream "camera"
               (Peer_signal "offer" (new_Peer "b" false true None))) /\
   nth_error (heap (after s (CallBroadcastStream "camera"))) 0 = nth_error (heap s) 0) /\
  (let s := run (constructor "app" true)
                [RelayInitialize "a"; RelayInitialize "b"; PeerCloses 1; RelayInitialize "c"] in
   (exists err, step s (CallBroadcastStream "camera") = Throw err) /\
   nth_error (heap (after s (CallBroadcastStream "camera"))) 0
     = Some (record_addStream "camera" (new_Peer "a" true true None)) /\
   nth_error (heap (after s (CallBroadcastStream "camera"))) 2 = nth_error (heap s) 2 /\
   broadcastedStream (after s (CallBroadcastStream "camera")) = Some "camera").
Proof.
  cbv zeta. split.
  - destruct (stream_broadcasts_reach_every_entry "app" true
                [RelayInitialize "a"; RelayInitialize "a"; RelaySignal "b" "offer"]
                "camera") as (_ & _ & (_ & Houtside & Hall & _) & (_ & _ & Hall' & _)).
    assert (Hlive :
              forall id r p,
                get id (peers (run (constructor "app" true)
                                 [RelayInitialize "a"; RelayInitialize "a";
                                  RelaySignal "b" "offer"])) = Some r ->
                nth_error (heap (run (constructor "app" true)
                                   [RelayInitialize "a"; RelayInitialize "a";
                                    RelaySignal "b" "offer"])) r = Some p ->
                is_live p = true).
    { intros id r p Hget Hp. apply get_In in Hget. vm_compute in Hget.
      destruct Hget as [H|[H|[]]]; injection H as <- <-;
        vm_compute in Hp; injection Hp as <-; reflexivity. }
    destruct (Hall Hlive) as [Hnormal _]. destruct (Hall' Hlive) as [_ Hremoved].
    split; [exact Hnormal|]. split.
    + apply (Hremoved "b" 2); vm_compute; reflexivity.
    + apply Houtside. vm_compute. intros [H|[H|[]]]; discriminate.
  - destruct (stream_broadcasts_reach_every_entry "app" true
                [RelayInitialize "a"; RelayInitialize "b"; PeerCloses 1; RelayInitialize "c"]
                "camera") as (_ & Hdefault & (_ & _ & _ & Hrefused) & _).
    destruct (Hrefused [("a", 0)] "b" 1 [("c", 2)] (Peer_close (new_Peer "b" true true None)))
      as (Hraise & Hbefore & _ & Hbehind).
    + vm_compute. reflexivity.
    + intros id' r' p' [Hkv|[]] Hp'. injection Hkv as <- <-.
      vm_compute in Hp'. injection Hp' as <-. reflexivity.
    + vm_compute. reflexivity.
    + reflexivity.
    + split; [exact Hraise|]. split; [|split].
      * apply (Hbefore "a" 0); [now left | vm_compute; reflexivity].
      * apply (Hbehind "c" 2). now left.
      * vm_compute. reflexivity.
Defined.

(** *** Departures *)

(** X8.  A relay destroy for an identity with an entry returns normally,
    removes that entry and no other, leaves the entry's transport object
    destroyed and every other object as it was, and announces exactly one
    disconnect, for that identity. *)
Theorem relay_destroy_removes_one_entry (s : Mesh) id r p :
  let s' := after s (RelayDestroy id) in
  get id (peers s) = Some r -> nth_error (heap s) r = Some p ->
  step s (RelayDestroy id) = Normal s' /\
  get id (peers s') = None /\
  (forall id', id' <> id -> get id' (peers s') = get id' (peers s)) /\
  (exists p', nth_error (heap s') r = Some p' /\ destroyed p' = true) /\
  (forall r', r' <> r -> nth_error (heap s') r' = nth_error (heap s) r') /\
  fresh s (RelayDestroy id) = [NDisconnect id].
Proof.
  cbv zeta. intros Hget Hp.
  assert (Hlt : r < List.length (heap s)) by (apply nth_error_Some; congruence).
  assert (Hafter : after s (RelayDestroy id) =
                   emit (NDisconnect id)
                        (with_peers (delete id (peers s))
                                    (with_heap (try_destroy r (heap s)) s))).
  { unfold after. simpl. unfold on_destroy. now rewrite Hget. }
  split; [reflexivity|]. rewrite peers_after.
  split; [apply get_delete_eq|].
  split; [intros id' Hne; apply get_delete_ne; congruence|].
  split; [|split].
  - rewrite Hafter. simpl. now apply closed_at_try_destroy.
  - intros r' Hne. rewrite Hafter. simpl. apply nth_error_try_destroy_ne. congruence.
  - apply fresh_emit_one. now rewrite Hafter.
Qed.

Lemma relay_destroy_removes_one_entry_witness :
  let s := run (constructor "app" true)
               [RelayInitialize "a"; RelayInitialize "b"; PeerConnects 1] in
  let s' := after s (RelayDestroy "b") in
  keys (peers s') = ["a"] /\
  get "b" (peers s') = None /\
  (exists p', nth_error (heap s') 1 = Some p' /\ destroyed p' = true) /\
  fresh s (RelayDestroy "b") = [NDisconnect "b"].
Proof.
  cbv zeta. split; [vm_compute; reflexivity|].
  destruct (relay_destroy_removes_one_entry
              (run (constructor "app" true)
                   [RelayInitialize "a"; RelayInitialize "b"; PeerConnects 1])
              "b" 1 (Peer_open (new_Peer "b" true true None)))
    as (_ & Hgone & _ & Hclosed & _ & Hlog);
    [vm_compute; reflexivity | vm_compute; reflexivity |].
  repeat split; auto.
Defined.

(** X9.  In every reachable state, [destroy()] returns normally, marks
    the channel destroyed, empties the peer map and leaves the transport
    object of every entry destroyed; the objects outside the map are left
    as they were.  It announces nothing: no disconnect is emitted for the
    peers it tears down.  The connected count afterwards is 0, so the mesh
    then counts as complete exactly when the last room count is at most 1. *)
Theorem destroy_closes_every_entry_silently app trick (es : list Event) :
  let s := run (constructor app trick) es in
  let s' := after s CallDestroy in
  step s CallDestroy = Normal s' /\
  signalDestroyed s' = true /\ peers s' = [] /\
  (forall id r, get id (peers s) = Some r ->
                exists p', nth_error (heap s') r = Some p' /\ destroyed p' = true) /\
  (forall r, ~ In r (values (peers s)) ->
             nth_error (heap s') r = nth_error (heap s) r) /\
  fresh s CallDestroy = [] /\
  getConnectedPeerCount s' = 0 /\
  (isFullyConnected s' = true <->
   exists n, roomCount s = Some n /\ (n <= 1)%Z).
Proof.
  cbv zeta.
  pose proof (Inv_run es _ (Inv_constructor app trick)) as HI.
  set (s := run (constructor app trick) es) in *.
  change (after s CallDestroy) with (destroy s).
  split; [reflexivity|]. split; [apply signalDestroyed_destroy|].
  split; [apply destroy_peers|]. split; [|split; [|split; [|split]]].
  - intros id r Hget. unfold destroy.
    apply (fold_destroy_entry_closes _ r (signal_destroy s)).
    + eauto using get_In_values.
    + apply (inv_bound _ HI). eauto using get_In_values.
  - intros r Hout. unfold destroy.
    now apply (fold_destroy_entry_outside _ r (signal_destroy s)).
  - unfold fresh. change (after s CallDestroy) with (destroy s).
    unfold destroy.
    destruct (fold_destroy_entry_frame (peers (signal_destroy s)) (signal_destroy s))
      as (_ & _ & _ & He & _).
    rewrite He. simpl. apply skipn_all.
  - apply count_destroy.
  - unfold isFullyConnected. rewrite count_destroy, roomCount_destroy.
    destruct (roomCount s) as [n|]; simpl.
    + rewrite Z.leb_le. split.
      * intros H. exists n. split; auto.
      * intros (n' & Hn & Hle). inversion Hn; subst. lia.
    + split; [discriminate|]. intros (n & Hn & _). discriminate.
Qed.

Lemma destroy_closes_every_entry_silently_witness :
  let s := run (constructor "app" true)
               [RelayRoomCount 2; RelayInitialize "a"; PeerConnects 0] in
  isFullyConnected s = true /\
  (exists p', nth_error (heap (after s CallDestroy)) 0 = Some p' /\ destroyed p' = true) /\
  fresh s CallDestroy = [] /\
  isFullyConnected (after s CallDestroy) = false.
Proof.
  cbv zeta. split; [vm_compute; reflexivity|].
  destruct (destroy_closes_every_entry_silently "app" true
              [RelayRoomCount 2; RelayInitialize "a"; PeerConnects 0])
    as (_ & _ & _ & Hclosed & _ & Hlog & _ & Hfull).
  split; [apply (Hclosed "a" 0); vm_compute; reflexivity|].
  split; [exact Hlog|].
  apply Bool.not_true_is_false. intros E.
  apply Hfull in E as (n & Hn & Hle). vm_compute in Hn. injection Hn as <-. lia.
Defined.

(** *** [waitFor] and [join] *)

(** X10.  [waitFor(event, timeout)] returns a pending promise that the
    first of its two triggers settles for good.  An emission of that event
    fulfils it, and a timer firing afterwards changes nothing; an emission
    of any other event leaves it pending.  With a timeout, the timer
    firing first rejects it, and no later emission fulfils it.  Without a
    timeout ([false]) there is no timer: it stays pending until the event. *)
Theorem waitFor_first_settlement_wins (s : Mesh) (ev : string) (timeout : option Z) :
  let w := fst (waitFor ev timeout s) in
  let s1 := snd (waitFor ev timeout s) in
  let promise := fun s' : Mesh => option_map w_promise (nth_error (waits s') w) in
  promise s1 = Some Pending /\
  (forall n, event_name n = ev ->
             promise (emit n s1) = Some Fulfilled /\
             promise (after (emit n s1) (WaitTimeout w)) = Some Fulfilled) /\
  (forall n, event_name n <> ev -> promise (emit n s1) = Some Pending) /\
  (timeout <> None ->
   promise (after s1 (WaitTimeout w)) = Some Rejected /\
   forall n, promise (emit n (after s1 (WaitTimeout w))) = Some Rejected) /\
  (timeout = None -> promise (after s1 (WaitTimeout w)) = Some Pending).
Proof.
  cbv zeta. unfold waitFor, after. simpl.
  split; [now rewrite nth_error_app_last|].
  split; [|split; [|split]].
  - intros n Hn. rewrite nth_error_update_nth_eq, !nth_error_map, nth_error_app_last.
    simpl. unfold once_fire. simpl. rewrite Hn, String.eqb_refl. simpl. auto.
  - intros n Hn. rewrite nth_error_map, nth_error_app_last.
    simpl. unfold once_fire. simpl.
    destruct (String.eqb_spec ev (event_name n)); [congruence|reflexivity].
  - intros Ht. destruct timeout as [t|]; [|congruence].
    split.
    + now rewrite nth_error_update_nth_eq, nth_error_app_last.
    + intros n. rewrite nth_error_map, nth_error_update_nth_eq, nth_error_app_last.
      simpl. unfold once_fire. simpl. now destruct (String.eqb ev (event_name n)).
  - intros ->. now rewrite nth_error_update_nth_eq, nth_error_app_last.
Qed.

Lemma waitFor_first_settlement_wins_witness :
  let s := run (constructor "app" true) [CallJoin "room" ""; RelayRoomCount 2] in
  let w := fst (waitFor "connect" (Some 3000%Z) s) in
  let s1 := snd (waitFor "connect" (Some 3000%Z) s) in
  w = 1 /\
  option_map w_promise (nth_error (waits (emit (NConnect "a") s1)) w) = Some Fulfilled /\
  option_map w_promise (nth_error (waits (emit (NData "a" "x") s1)) w) = Some Pending /\
  option_map w_promise
    (nth_error (waits (emit (NConnect "a") (after s1 (WaitTimeout w)))) w) = Some Rejected /\
  (let s2 := snd (waitFor "connect" None s) in
   option_map w_promise (nth_error (waits (after s2 (WaitTimeout 1))) 1) = Some Pending).
Proof.
  cbv zeta. split; [vm_compute; reflexivity|].
  destruct (waitFor_first_settlement_wins
              (run (constructor "app" true) [CallJoin "room" ""; RelayRoomCount 2])
              "connect" (Some 3000%Z)) as (_ & Hevent & Hother & Htimer & _).
  destruct (Hevent (NConnect "a") eq_refl) as [Hfulfilled _].
  split; [exact Hfulfilled|].
  split; [apply (Hother (NData "a" "x")); discriminate|].
  destruct Htimer as [_ Hrejected]; [discriminate|].
  split; [exact (Hrejected (NConnect "a"))|].
  destruct (waitFor_first_settlement_wins
              (run (constructor "app" true) [CallJoin "room" ""; RelayRoomCount 2])
              "connect" None) as (_ & _ & _ & _ & Hnone).
  apply Hnone. reflexivity.
Defined.

(** X11.  For an identity other than the empty string, [sendStream] and
    [removeStream] look up the key "true" instead of the identity.  While
    no peer has the identity "true" they do nothing at all, even for a
    connected peer.  When such a peer is in the map they act on the entry
    of the identity they were given, and raise a TypeError if that
    identity has no entry; the call on the entry's object is recorded
    there, unless that object is closed, in which case the call ends in
    the raise of the object and nothing changes. *)
Theorem stream_calls_look_up_true (s : Mesh) (id : string) (st : Stream) :
  id <> "" ->
  (get "true" (peers s) = None ->
   step s (CallSendStream id st) = Normal s /\
   step s (CallRemoveStream id st) = Normal s) /\
  (get "true" (peers s) <> None ->
   (get id (peers s) = None ->
    step s (CallSendStream id st) = Throw (TypeError "this.peers[id] is undefined") /\
    step s (CallRemoveStream id st) = Throw (TypeError "this.peers[id] is undefined")) /\
   (forall r, get id (peers s) = Some r ->
              step s (CallSendStream id st)
                = (if is_closed (heap s) r
                   then Throw (PeerError "cannot addStream after peer is destroyed")
                   else Normal (with_heap (update r (record_addStream st) (heap s)) s)) /\
              step s (CallRemoveStream id st)
                = (if is_closed (heap s) r
                   then Throw (PeerError "cannot removeStream after peer is destroyed")
                   else Normal (with_heap (update r (record_removeStream st) (heap s)) s)))).
Proof.
  intros Hid. unfold step. simpl.
  unfold sendStream, removeStream, stream_check_key, hasOwnProperty.
  destruct (String.eqb_spec id "") as [->|_]; [congruence|].
  split.
  - intros ->. auto.
  - intros Htrue. destruct (get "true" (peers s)); [|congruence].
    split.
    + intros ->. auto.
    + intros r ->. unfold served, call_peer, is_closed, Peer_addStream, Peer_removeStream.
      destruct (nth_error (heap s) r) as [p|] eqn:E; simpl.
      * destruct (destroyed p); simpl; [auto|].
        now rewrite !(update_at _ _ _ _ E).
      * now rewrite !(update_absent _ _ _ E), with_heap_same.
Qed.

Lemma stream_calls_look_up_true_witness :
  (let s := run (constructor "app" true) [RelayInitialize "a"; PeerConnects 0] in
   step s (CallSendStream "a" "camera") = Normal s) /\
  (let s := run (constructor "app" true) [RelayInitialize "true"; RelayInitialize "a"] in
   step s (CallSendStream "zz" "camera") = Throw (TypeError "this.peers[id] is undefined") /\
   step s (CallSendStream "a" "camera")
     = Normal (with_heap (update 1 (record_addStream "camera") (heap s)) s)) /\
  (let s := run (constructor "app" true)
                [RelayInitialize "true"; RelayInitialize "a"; PeerCloses 1;
                 RelayInitialize "true"] in
   step s (CallRemoveStream "a" "camera")
     = Throw (PeerError "cannot removeStream after peer is destroyed")).
Proof.
  cbv zeta. split.
  - destruct (stream_calls_look_up_true
                (run (constructor "app" true) [RelayInitialize "a"; PeerConnects 0])
                "a" "camera") as (Hnone & _); [discriminate|].
    destruct Hnone as [Hsend _]; [vm_compute; reflexivity|].
    exact Hsend.
  - split; [split|].
    + destruct (stream_calls_look_up_true
                  (run (constructor "app" true) [RelayInitialize "true"; RelayInitialize "a"])
                  "zz" "camera") as (_ & Hsome); [discriminate|].
      destruct Hsome as (Habsent & _); [vm_compute; discriminate|].
      destruct Habsent as [Hsend _]; [vm_compute; reflexivity|].
      exact Hsend.
    + destruct (stream_calls_look_up_true
                  (run (constructor "app" true) [RelayInitialize "true"; RelayInitialize "a"])
                  "a" "camera") as (_ & Hsome); [discriminate|].
      destruct Hsome as (_ & Hpresent); [vm_compute; discriminate|].
      destruct (Hpresent 1) as [Hsend _]; [vm_compute; reflexivity|].
      exact Hsend.
    + destruct (stream_calls_look_up_true
                  (run (constructor "app" true)
                     [RelayInitialize "true"; RelayInitialize "a"; PeerCloses 1;
                      RelayInitialize "true"])
                  "a" "camera") as (_ & Hsome); [discriminate|].
      destruct Hsome as (_ & Hpresent); [vm_compute; discriminate|].
      destruct (Hpresent 1) as [_ Hremove]; [vm_compute; reflexivity|].
      exact Hremove.
Defined.

(** X12.  One room-count update resumes every [join] that is waiting for
    it: afterwards none is left at its room-count wait, no [join] is added
    or dropped, and those that go on to wait for full-connect each get a
    wait of their own, in the order the [join]s were called. *)
Theorem room_count_resumes_every_join (s : Mesh) (n : Z) :
  let s' := after s (RelayRoomCount n) in
  List.length (joins s') = List.length (joins s) /\
  (forall j, nth_error (joins s') j <> Some JAwaitRoomCount) /\
  (forall j1 j2 w1 w2,
      j1 < j2 ->
      nth_error (joins s) j1 = Some JAwaitRoomCount ->
      nth_error (joins s) j2 = Some JAwaitRoomCount ->
      nth_error (joins s') j1 = Some (JAwaitFullConnect w1) ->
      nth_error (joins s') j2 = Some (JAwaitFullConnect w2) ->
      w1 < w2).
Proof.
  cbv zeta. rewrite joins_after.
  destruct (resume_joins n _ _) as [js s3] eqn:E. simpl.
  split; [eapply resume_joins_length; eauto|]. split.
  - intros j Hj. pose proof (resume_joins_nth _ _ _ _ _ j E) as H.
    destruct (nth_error (joins s) j) as [[]|]; try congruence.
    destruct H as [[_ H]|(_ & w & H & _)]; congruence.
  - intros j1 j2 w1 w2. eapply resume_joins_ordered; eauto.
Qed.

Lemma room_count_resumes_every_join_witness :
  let s := run (constructor "app" true) [CallJoin "room" ""; CallJoin "room" ""] in
  let s' := after s (RelayRoomCount 3) in
  joins s' = [JAwaitFullConnect 0; JAwaitFullConnect 1] /\ 0 < 1.
Proof.
  cbv zeta. split; [vm_compute; reflexivity|].
  destruct (room_count_resumes_every_join
              (run (constructor "app" true) [CallJoin "room" ""; CallJoin "room" ""]) 3)
    as (_ & _ & Hordered).
  apply (Hordered 0 1 0 1); [lia | vm_compute; reflexivity ..].
Defined.

(** X13.  [join] registers its full-connect wait only after its own check.
    When the first room count it sees is not 1, the [join] called last is
    still pending at the end of that event even if the mesh is complete by
    then: full-connect was announced, by the listener and by the [join]s,
    before its wait existed.  It then depends on a later announcement or
    ends by its timeout. *)
Theorem join_misses_announcement_before_its_wait (s : Mesh) (n : Z) (j : nat) :
  let s' := after s (RelayRoomCount n) in
  n <> 1%Z ->
  nth_error (joins s) j = Some JAwaitRoomCount ->
  (forall j', j < j' -> nth_error (joins s) j' <> Some JAwaitRoomCount) ->
  joinPromise s' j = Pending /\
  (isFullyConnected s' = true ->
   2 <= List.length (filter is_full_connect (fresh s (RelayRoomCount n)))).
Proof.
  cbv zeta. intros Hne Hj Hlast. split.
  - unfold joinPromise. rewrite joins_after, waits_after_room_count.
    destruct (resume_joins n _ _) as [js s3] eqn:E. simpl.
    destruct (resume_joins_last _ _ _ _ _ j E Hne Hj Hlast) as (w & -> & ->).
    reflexivity.
  - intros Hfull. rewrite fresh_full_count, Hfull, checks_after_room_count.
    assert (1 <= List.length (filter awaiting_room_count (joins s))); [|lia].
    assert (Hin : In JAwaitRoomCount (filter awaiting_room_count (joins s))).
    { apply filter_In. split; [eapply nth_error_In; eauto | reflexivity]. }
    destruct (filter awaiting_room_count (joins s)); [destruct Hin | simpl; lia].
Qed.

Lemma join_misses_announcement_before_its_wait_witness :
  let s := run (constructor "app" true)
               [RelayInitialize "a"; PeerConnects 0; CallJoin "room" ""] in
  let s' := after s (RelayRoomCount 2) in
  isFullyConnected s' = true /\
  joinPromise s' 0 = Pending /\
  2 <= List.length (filter is_full_connect (fresh s (RelayRoomCount 2))).
Proof.
  cbv zeta. split; [vm_compute; reflexivity|].
  destruct (join_misses_announcement_before_its_wait
              (run (constructor "app" true)
                   [RelayInitialize "a"; PeerConnects 0; CallJoin "room" ""]) 2 0)
    as (Hpending & Htwice).
  - discriminate.
  - vm_compute. reflexivity.
  - intros [|[|j']] Hlt; try lia; vm_compute; discriminate.
  - split; [exact Hpending|]. apply Htwice. vm_compute. reflexivity.
Defined.

(** *** Messages, signals and closes *)



(** X24.  When a transport object closes by itself the orchestrator only
    logs it: the entry stays in the peer map, no disconnect or other
    notification is emitted and the full-mesh predicate is not evaluated.
    In a reachable state the connected count drops by one when the object
    was connected and filed in the map, and is unchanged otherwise. *)
Theorem transport_close_keeps_entry app trick (es : list Event) r p :
  let s := run (constructor app trick) es in
  let s' := after s (PeerCloses r) in
  nth_error (heap s) r = Some p -> destroyed p = false ->
  peers s' = peers s /\ emitted s' = emitted s /\ checks s' = checks s /\
  nth_error (heap s') r = Some (Peer_close p) /\
  (In r (values (peers s)) -> connected p = true ->
   S (getConnectedPeerCount s') = getConnectedPeerCount s) /\
  (connected p = false \/ ~ In r (values (peers s)) ->
   getConnectedPeerCount s' = getConnectedPeerCount s).
Proof.
  cbv zeta. intros Hp Hd.
  pose proof (Inv_run es _ (Inv_constructor app trick)) as HI.
  set (s := run (constructor app trick) es) in *.
  assert (Hafter : after s (PeerCloses r) = with_heap (update r Peer_close (heap s)) s).
  { unfold after. simpl. unfold from_peer. now rewrite Hp, Hd. }
  rewrite Hafter. cbn [peers emitted checks heap with_heap].
  split; [reflexivity|]. split; [reflexivity|]. split; [reflexivity|].
  split; [now rewrite nth_error_update_eq, Hp|].
  unfold getConnectedPeerCount. cbn [peers heap with_heap]. split.
  - intros Hin Hc. symmetry.
    apply (filter_length_flip (peers s) (is_connected (update r Peer_close (heap s)))
             (is_connected (heap s)) r); auto.
    + apply (inv_refs _ HI).
    + unfold is_connected. now rewrite nth_error_update_eq, Hp.
    + unfold is_connected. now rewrite Hp.
    + intros r' Hne. unfold is_connected. now rewrite nth_error_update_ne by congruence.
  - intros Hcase. apply filter_length_ext. intros [k r'] Hin. simpl.
    unfold is_connected. destruct (Nat.eq_dec r r') as [<-|Hne].
    + rewrite nth_error_update_eq, Hp. simpl. destruct Hcase as [Hc|Hout].
      * now rewrite Hc.
      * destruct Hout. unfold values. change r with (snd (k, r)). now apply in_map.
    + now rewrite nth_error_update_ne.
Qed.

Lemma transport_close_keeps_entry_witness :
  let s := run (constructor "app" true)
               [RelayInitialize "a"; PeerConnects 0; RelayRoomCount 2] in
  let s' := after s (PeerCloses 0) in
  isFullyConnected s = true /\ isFullyConnected s' = false /\
  peers s' = peers s /\ emitted s' = emitted s /\
  S (getConnectedPeerCount s') = getConnectedPeerCount s.
Proof.
  cbv zeta.
  destruct (transport_close_keeps_entry "app" true
              [RelayInitialize "a"; PeerConnects 0; RelayRoomCount 2] 0
              (Peer_open (new_Peer "a" true true None)))
    as (Hpeers & Hquiet & _ & _ & Hdrop & _);
    [vm_compute; reflexivity | reflexivity |].
  split; [vm_compute; reflexivity|]. split; [vm_compute; reflexivity|].
  split; [exact Hpeers|]. split; [exact Hquiet|].
  apply Hdrop; [vm_compute; auto | reflexivity].
Defined.

Lemma update_last f (h : Heap) p : update (List.length h) f (h ++ [p]) = h ++ [f p].
Proof. induction h as [|q h IH]; simpl; [reflexivity | now rewrite IH]. Qed.

(** X25.  A relay signal is handed to the transport object filed under
    the sender's identity and to no other.  With an entry nothing is
    created and the map is unchanged; without one a responder is created
    first, filed under the identity, and given the signal.  Either way
    nothing is emitted and nothing is sent to the relay. *)
Theorem relay_signal_goes_to_entry_object (s : Mesh) (id : string) (data : Payload) :
  let s' := after s (RelaySignal id data) in
  emitted s' = emitted s /\ requests s' = requests s /\
  (forall r p, get id (peers s) = Some r -> nth_error (heap s) r = Some p ->
               peers s' = peers s /\
               List.length (heap s') = List.length (heap s) /\
               nth_error (heap s') r = Some (Peer_signal data p) /\
               (forall r', r' <> r -> nth_error (heap s') r' = nth_error (heap s) r')) /\
  (get id (peers s) = None ->
   peers s' = set id (List.length (heap s)) (peers s) /\
   heap s' = heap s ++ [Peer_signal data
                          (new_Peer id false (trickle_option s) (broadcastedStream s))]).
Proof.
  cbv zeta. unfold after. cbn [perform fst]. unfold on_signal, hasOwnProperty.
  destruct (get id (peers s)) as [r0|] eqn:Hget.
  - rewrite Hget. cbn [emitted requests peers heap with_heap].
    split; [reflexivity|]. split; [reflexivity|]. split; [|discriminate].
    intros r p Hr Hp. injection Hr as ->.
    split; [reflexivity|]. split; [apply update_length|].
    split; [now rewrite nth_error_update_eq, Hp|].
    intros r' Hne. now apply nth_error_update_ne.
  - unfold createPeer, alloc. cbn [peers heap with_heap with_peers fst snd].
    rewrite get_set_eq. cbn [emitted requests peers heap with_heap with_peers].
    split; [reflexivity|]. split; [reflexivity|]. split; [discriminate|].
    intros _. split; [reflexivity|]. apply update_last.
Qed.

Lemma relay_signal_goes_to_entry_object_witness :
  let s := run (constructor "app" true) [RelayInitialize "a"; RelayInitialize "b"] in
  let s' := after s (RelaySignal "b" "answer") in
  option_map signalled (nth_error (heap s') 1) = Some ["answer"] /\
  option_map signalled (nth_error (heap s') 0) = Some [] /\
  List.length (heap s') = 2.
Proof.
  cbv zeta.
  destruct (relay_signal_goes_to_entry_object
              (run (constructor "app" true) [RelayInitialize "a"; RelayInitialize "b"])
              "b" "answer") as (_ & _ & Hentry & _).
  destruct (Hentry 1 (new_Peer "b" true true None))
    as (_ & Hlen & Hr & Hother); [vm_compute; reflexivity | vm_compute; reflexivity |].
  rewrite Hr, (Hother 0), Hlen by discriminate. vm_compute. auto.
Defined.

(** * Further properties: [getServerRooms] *)

Module RoomsProps.
Import JS ServerRooms.
#[local] Open Scope string_scope.

Lemma last_code_unit_slash url : last_code_unit (url ++ "/") = Some "/"%char.
Proof.
  induction url as [|c rest IH]; [reflexivity|].
  simpl. destruct (rest ++ "/") eqn:E; [|exact IH].
  destruct rest; discriminate.
Qed.

Lemma append_assoc (a b c : string) : ((a ++ b) ++ c = a ++ (b ++ c))%string.
Proof. induction a as [|x a IH]; simpl; [reflexivity | now rewrite IH]. Qed.

Lemma rooms_address_cases url :
  (last_code_unit url = Some "/"%char /\ rooms_address url = url ++ "rooms") \/
  (last_code_unit url <> Some "/"%char /\ rooms_address url = url ++ "/rooms").
Proof.
  unfold rooms_address. destruct (last_code_unit url) as [c|].
  - destruct (Ascii.eqb_spec c "/"%char) as [->|Hne].
    + left. auto.
    + right. split; [congruence|]. apply append_assoc.
  - right. split; [discriminate|]. apply append_assoc.
Qed.

Lemma filter_rooms_normal appName rooms :
  forallb (fun r => negb (is_null r)) rooms = true ->
  filter_rooms appName rooms = Normal (filter (own_room appName) rooms).
Proof.
  induction rooms as [|room rest IH]; simpl; [reflexivity|].
  intros H. apply andb_true_iff in H as [Hr Hrest].
  rewrite (IH Hrest).
  destruct room as [| | | | |fields]; try discriminate; try reflexivity.
  simpl. destruct (get "appName" fields) as [[]|]; reflexivity.
Qed.

Lemma filter_rooms_throw appName rooms :
  forallb (fun r => negb (is_null r)) rooms = false ->
  exists e, filter_rooms appName rooms = Throw e.
Proof.
  induction rooms as [|room rest IH]; simpl; [discriminate|].
  intros H. apply andb_false_iff in H as [Hr|Hrest].
  - destruct room; try discriminate. simpl. eauto.
  - destruct (IH Hrest) as [e ->].
    destruct (is_own_room appName room); eauto.
Qed.

End RoomsProps.

Import JS ServerRooms RoomsProps.

(** X14.  [getServerRooms(url)] asks for [url + 'rooms'] when [url] ends in
    a slash and for [url + '/rooms'] otherwise, so a trailing slash makes
    no difference.  When the answer is an array without a [null] element,
    the result is that array restricted, in order, to the objects whose
    [appName] is the application's own: rooms of other applications and
    elements that are not objects are dropped, and every room of the
    application is kept. *)
Theorem getServerRooms_keeps_own_rooms
  (fetch : string -> option JsValue) (appName url : string) (rooms : list JsValue) :
  last_code_unit url <> Some "/"%char ->
  fetch (url ++ "/rooms")%string = Some (JArr rooms) ->
  forallb (fun r => negb (is_null r)) rooms = true ->
  getServerRooms fetch appName url = JArr (filter (own_room appName) rooms) /\
  getServerRooms fetch appName (url ++ "/")%string = getServerRooms fetch appName url /\
  (forall room, In room (filter (own_room appName) rooms) <->
                In room rooms /\
                exists fields, room = JObj fields /\
                               get "appName" fields = Some (JStr appName)).
Proof.
  intros Hurl Hfetch Hrooms.
  assert (Haddr : rooms_address url = (url ++ "/rooms")%string).
  { destruct (rooms_address_cases url) as [[H _]|[_ H]]; [contradiction | exact H]. }
  assert (Haddr' : rooms_address (url ++ "/")%string = (url ++ "/rooms")%string).
  { destruct (rooms_address_cases (url ++ "/")%string) as [[_ H]|[H _]].
    - rewrite H. apply append_assoc.
    - destruct H. apply last_code_unit_slash. }
  split; [|split].
  - unfold getServerRooms. now rewrite Haddr, Hfetch, filter_rooms_normal.
  - unfold getServerRooms. now rewrite Haddr, Haddr'.
  - intros room. rewrite filter_In. split.
    + intros [Hin Hown]. split; [exact Hin|].
      destruct room as [| | | | |fields]; try discriminate.
      exists fields. split; [reflexivity|].
      simpl in Hown. destruct (get "appName" fields) as [[]|]; try discriminate.
      apply String.eqb_eq in Hown. now subst.
    + intros [Hin (fields & -> & Hget)]. split; [exact Hin|].
      simpl. rewrite Hget. apply String.eqb_refl.
Qed.

Lemma getServerRooms_keeps_own_rooms_witness :
  let mine := JObj [("name", JStr "lobby"); ("appName", JStr "chat")] in
  let other := JObj [("name", JStr "lobby"); ("appName", JStr "game")] in
  let fetch := fun address : string =>
                 if String.eqb address "http://relay/rooms"
                 then Some (JArr [other; mine; JNum 3; mine]) else None in
  getServerRooms fetch "chat" "http://relay" = JArr [mine; mine] /\
  getServerRooms fetch "chat" "http://relay/" = JArr [mine; mine].
Proof.
  cbv zeta.
  destruct (getServerRooms_keeps_own_rooms
              (fun address : string =>
                 if String.eqb address "http://relay/rooms"
                 then Some (JArr [JObj [("name", JStr "lobby"); ("appName", JStr "game")];
                                  JObj [("name", JStr "lobby"); ("appName", JStr "chat")];
                                  JNum 3;
                                  JObj [("name", JStr "lobby"); ("appName", JStr "chat")]])
                 else None)
              "chat" "http://relay"
              [JObj [("name", JStr "lobby"); ("appName", JStr "game")];
               JObj [("name", JStr "lobby"); ("appName", JStr "chat")];
               JNum 3;
               JObj [("name", JStr "lobby"); ("appName", JStr "chat")]])
    as (Hresult & Hslash & _).
  - vm_compute. discriminate.
  - vm_compute. reflexivity.
  - vm_compute. reflexivity.
  - split.
    + rewrite Hresult. vm_compute. reflexivity.
    + change "http://relay/" with ("http://relay" ++ "/")%string.
      rewrite Hslash, Hresult. vm_compute. reflexivity.
Defined.

(** X15.  [getServerRooms] never raises, and its result is [null] exactly
    when the request fails, the answer is not an array, or the array has a
    [null] element: one such element discards the whole list, the
    application's own rooms included. *)
Theorem getServerRooms_null_exactly_on_failure
  (fetch : string -> option JsValue) (appName url : string) :
  getServerRooms fetch appName url = JNull <->
  match fetch (rooms_address url) with
  | Some (JArr rooms) => In JNull rooms
  | _ => True
  end.
Proof.
  unfold getServerRooms.
  destruct (fetch (rooms_address url)) as [[| | | |rooms|]|]; try tauto.
  destruct (forallb (fun r => negb (is_null r)) rooms) eqn:E.
  - rewrite (filter_rooms_normal _ _ E). split; [discriminate|].
    intros Hin. rewrite forallb_forall in E. apply E in Hin. discriminate.
  - destruct (filter_rooms_throw appName _ E) as [e ->].
    split; [|reflexivity]. intros _.
    assert (H : ~ (forall r, In r rooms -> negb (is_null r) = true)).
    { rewrite <- forallb_forall. congruence. }
    clear E. induction rooms as [|room rest IH].
    + destruct H. intros r [].
    + destruct room; try (left; reflexivity);
        right; apply IH; intros Hall; apply H; intros r [<-|Hr]; auto.
Qed.

(** * Further properties: the listener registry of [SimplePeerMesh] *)

Module RegistryProps.
Import JS Transport Registry RegistrySpec.

Lemma Listener_eqb_spec a b : reflect (a = b) (Listener_eqb a b).
Proof.
  destruct a as [f|j|j k], b as [f'|j'|j' k']; simpl; try (constructor; discriminate).
  - destruct (Nat.eqb_spec f f'); constructor; congruence.
  - destruct (Nat.eqb_spec j j'); constructor; congruence.
  - destruct (Nat.eqb_spec j j'), (Nat.eqb_spec k k'); constructor; congruence.
Qed.

Lemma Listener_eqb_refl a : Listener_eqb a a = true.
Proof. now destruct (Listener_eqb_spec a a). Qed.

Lemma indexOf_range f arr : (-1 <= indexOf f arr < Z.of_nat (List.length arr))%Z.
Proof.
  induction arr as [|g rest IH]; simpl List.length; simpl indexOf; [lia|].
  destruct (Listener_eqb g f); [lia|].
  destruct (Z.ltb_spec (indexOf f rest) 0); lia.
Qed.

Lemma indexOf_absent f arr : ~ In f arr -> indexOf f arr = (-1)%Z.
Proof.
  induction arr as [|g rest IH]; simpl; [reflexivity|].
  intros H. destruct (Listener_eqb_spec g f) as [->|_]; [tauto|].
  rewrite IH by tauto. reflexivity.
Qed.

Lemma indexOf_first f l1 l2 :
  ~ In f l1 -> indexOf f (l1 ++ f :: l2) = Z.of_nat (List.length l1).
Proof.
  induction l1 as [|g rest IH]; simpl List.length; simpl indexOf; intros H.
  - now rewrite Listener_eqb_refl.
  - simpl in H. destruct (Listener_eqb_spec g f) as [->|_]; [tauto|].
    rewrite IH by tauto.
    destruct (Z.ltb_spec (Z.of_nat (List.length rest)) 0); lia.
Qed.

Lemma In_first (f : Listener) arr :
  In f arr -> exists l1 l2, arr = l1 ++ f :: l2 /\ ~ In f l1.
Proof.
  induction arr as [|g rest IH]; [intros []|].
  intros H. destruct (Listener_eqb_spec g f) as [->|Hne].
  - exists [], rest. auto.
  - destruct H as [H|H]; [contradiction|].
    destruct (IH H) as (l1 & l2 & -> & Hl1).
    exists (g :: l1), l2. split; [reflexivity|]. simpl. tauto.
Qed.

Lemma splice_at l1 f l2 :
  splice (Z.of_nat (List.length l1)) (l1 ++ f :: l2) = l1 ++ l2.
Proof.
  unfold splice. rewrite length_app. simpl List.length.
  destruct (Z.ltb_spec (Z.of_nat (List.length l1)) 0); [lia|].
  rewrite Z.min_l by lia. rewrite Nat2Z.id.
  rewrite firstn_app, firstn_all, Nat.sub_diag. simpl firstn. rewrite app_nil_r.
  f_equal.
  change (S (List.length l1)) with (1 + List.length l1).
  rewrite <- skipn_skipn. rewrite skipn_app, skipn_all, Nat.sub_diag. reflexivity.
Qed.

Lemma splice_last arr : splice (-1) arr = removelast arr.
Proof.
  destruct arr as [|x rest] using rev_ind; [reflexivity|].
  rewrite removelast_last. clear IHrest.
  unfold splice. change (-1 <? 0)%Z with true. cbv iota.
  replace (Z.max (Z.of_nat (List.length (rest ++ [x])) + -1) 0)
    with (Z.of_nat (List.length rest)) by (rewrite length_app; simpl List.length; lia).
  rewrite Nat2Z.id.
  rewrite firstn_app, firstn_all, Nat.sub_diag. simpl firstn. rewrite app_nil_r.
  replace (S (List.length rest)) with (List.length (rest ++ [x]))
    by (rewrite length_app; simpl; lia).
  now rewrite skipn_all, app_nil_r.
Qed.

Lemma remove_first_at l1 f l2 : ~ In f l1 -> remove_first f (l1 ++ f :: l2) = l1 ++ l2.
Proof.
  induction l1 as [|g rest IH]; simpl; intros H.
  - now rewrite Listener_eqb_refl.
  - destruct (Listener_eqb_spec g f) as [->|_]; [tauto|].
    now rewrite IH by tauto.
Qed.

Lemma splice_indexOf f arr :
  In f arr -> splice (indexOf f arr) arr = remove_first f arr.
Proof.
  intros H. destruct (In_first _ _ H) as (l1 & l2 & -> & Hl1).
  now rewrite indexOf_first, splice_at, remove_first_at.
Qed.

Lemma splice_indexOf_absent f arr :
  ~ In f arr -> splice (indexOf f arr) arr = removelast arr.
Proof. intros H. now rewrite indexOf_absent, splice_last. Qed.

Lemma listeners_on_eq ev f s : listeners ev (on ev f s) = listeners ev s ++ [f].
Proof. unfold listeners at 1, on. simpl. now rewrite get_set_eq. Qed.

Lemma listeners_on_ne ev ev' f s : ev' <> ev -> listeners ev' (on ev f s) = listeners ev' s.
Proof. intros H. unfold listeners, on. simpl. now rewrite get_set_ne by congruence. Qed.

Lemma listeners_off_eq ev f s :
  listeners ev (off ev f s) = splice (indexOf f (listeners ev s)) (listeners ev s).
Proof.
  unfold listeners, off. destruct (get ev (_events s)) as [arr|] eqn:E.
  - simpl. now rewrite get_set_eq.
  - rewrite E. reflexivity.
Qed.

Lemma listeners_off_ne ev ev' f s : ev' <> ev -> listeners ev' (off ev f s) = listeners ev' s.
Proof.
  intros H. unfold listeners, off. destruct (get ev (_events s)) as [arr|] eqn:E.
  - simpl. now rewrite get_set_ne by congruence.
  - reflexivity.
Qed.

(** ** What a call of a listener changes *)

Lemma mesh_off ev f s : mesh (off ev f s) = mesh s.
Proof. unfold off. now destruct (get ev (_events s)). Qed.

Lemma mesh_call f s : mesh (call f s) = mesh s.
Proof.
  destruct f as [f|j|j k]; unfold call; [reflexivity| |].
  - rewrite mesh_off. cbn [mesh]. now destruct (_ =? 1)%Z.
  - now rewrite mesh_off.
Qed.

Lemma mesh_fire_from fuel ev : forall i s, mesh (snd (fire_from fuel ev i s)) = mesh s.
Proof.
  induction fuel as [|fuel IH]; intros i s; simpl; [reflexivity|].
  destruct (nth_error (listeners ev s) i); [|reflexivity].
  now rewrite IH, mesh_call.
Qed.

Lemma mesh_fire f s : mesh (fire f s) = SimplePeerMesh.fire f (mesh s).
Proof. unfold fire, fire_event. now rewrite mesh_fire_from. Qed.

Lemma mesh_checkFullConnect s :
  mesh (checkFullConnect s) = SimplePeerMesh.checkFullConnect (mesh s).
Proof.
  unfold checkFullConnect, SimplePeerMesh.checkFullConnect.
  destruct (_ <=? _)%Z; [apply mesh_fire | reflexivity].
Qed.

Lemma called_off ev f s : called (off ev f s) = called s.
Proof. unfold off. now destruct (get ev (_events s)). Qed.

Lemma called_call f s : called (call f s) = called s ++ [f].
Proof.
  destruct f as [f|j|j k]; unfold call; [reflexivity| |].
  - rewrite called_off. cbn [mesh]. now destruct (_ =? 1)%Z.
  - now rewrite called_off.
Qed.

Lemma listeners_call ev f s :
  listeners ev (call f s) =
  match f with
  | Handler _ => listeners ev s
  | roomCountEventCallback j =>
      let a1 := if (SimplePeerMesh.roomCount (mesh s) =? 1)%Z then listeners ev s
                else if String.eqb ev "fullConnect"
                     then listeners ev s ++ [fullConnectEventCallback j (closures s)]
                     else listeners ev s in
      if String.eqb ev "roomCount" then splice (indexOf f a1) a1 else a1
  | fullConnectEventCallback j k =>
      if String.eqb ev "fullConnect"
      then splice (indexOf f (listeners ev s)) (listeners ev s)
      else listeners ev s
  end.
Proof.
  destruct f as [f|j|j k]; unfold call; [reflexivity| |].
  - cbv zeta. cbn [mesh closures].
    destruct (String.eqb_spec ev "roomCount") as [->|Hrc].
    + rewrite listeners_off_eq.
      destruct (_ =? 1)%Z; [reflexivity|].
      rewrite listeners_on_ne by discriminate. reflexivity.
    + rewrite listeners_off_ne by assumption.
      destruct (_ =? 1)%Z; [reflexivity|].
      destruct (String.eqb_spec ev "fullConnect") as [->|Hfc].
      * rewrite listeners_on_eq. reflexivity.
      * now rewrite listeners_on_ne.
  - destruct (String.eqb_spec ev "fullConnect") as [->|Hfc].
    + rewrite listeners_off_eq. reflexivity.
    + now rewrite listeners_off_ne.
Qed.

(** ** The loop of [fire] ends *)

Lemma weight_app l l' : weight (l ++ l') = weight l + weight l'.
Proof. unfold weight. rewrite filter_app, !length_app. lia. Qed.

Lemma skipn_nth {A} (arr : list A) i f :
  nth_error arr i = Some f -> skipn i arr = f :: skipn (S i) arr.
Proof.
  revert i. induction arr as [|x rest IH]; intros [|i] H; try discriminate.
  - now injection H as ->.
  - simpl in H. simpl skipn at 1. rewrite (IH _ H). reflexivity.
Qed.

Lemma skipn_none {A} (arr : list A) i :
  nth_error arr i = None -> skipn i arr = [].
Proof. intros H. apply skipn_all2. now apply nth_error_None. Qed.

Lemma weight_skipn_S arr i : weight (skipn (S i) arr) <= weight (skipn i arr).
Proof.
  destruct (nth_error arr i) as [f|] eqn:E.
  - rewrite (skipn_nth _ _ _ E).
    change (f :: skipn (S i) arr) with ([f] ++ skipn (S i) arr).
    rewrite weight_app. lia.
  - rewrite (skipn_none _ _ E).
    rewrite skipn_all2; [lia|]. apply nth_error_None in E. lia.
Qed.

Lemma weight_skipn_pos arr i f :
  nth_error arr i = Some f ->
  weight (skipn i arr) =
  (if is_roomCountEventCallback f then 2 else 1) + weight (skipn (S i) arr).
Proof.
  intros E. rewrite (skipn_nth _ _ _ E).
  change (f :: skipn (S i) arr) with ([f] ++ skipn (S i) arr).
  rewrite weight_app. unfold weight at 1. simpl.
  now destruct (is_roomCountEventCallback f).
Qed.

Lemma first_before (f : Listener) l1 l2 i :
  ~ In f l1 -> nth_error (l1 ++ f :: l2) i = Some f -> List.length l1 <= i.
Proof.
  intros Hl1 H. destruct (Nat.le_gt_cases (List.length l1) i) as [|Hlt]; [assumption|].
  rewrite nth_error_app1 in H by assumption.
  apply nth_error_In in H. contradiction.
Qed.

Lemma skipn_remove_first (f : Listener) arr i :
  nth_error arr i = Some f ->
  skipn (S i) (remove_first f arr) = skipn (S (S i)) arr.
Proof.
  intros H. destruct (In_first f arr (nth_error_In _ _ H)) as (l1 & l2 & -> & Hl1).
  pose proof (first_before _ _ _ _ Hl1 H) as Hle.
  rewrite remove_first_at by assumption.
  rewrite !skipn_app.
  rewrite (skipn_all2 (n := S i)) by lia.
  rewrite (skipn_all2 (n := S (S i))) by lia.
  replace (S (S i) - List.length l1) with (S (S i - List.length l1)) by lia.
  reflexivity.
Qed.

Lemma skipn_app_last {A} (arr : list A) x i :
  i <= List.length arr -> skipn i (arr ++ [x]) = skipn i arr ++ [x].
Proof.
  intros H. rewrite skipn_app.
  replace (i - List.length arr) with 0 by lia. reflexivity.
Qed.

Lemma steps_left_call ev i f s :
  nth_error (listeners ev s) i = Some f ->
  steps_left ev (S i) (call f s) < steps_left ev i s.
Proof.
  intros E. unfold steps_left. fold (weight (skipn (S i) (listeners ev (call f s)))).
  fold (weight (skipn i (listeners ev s))).
  pose proof (weight_skipn_pos _ _ _ E) as Hpos.
  pose proof (weight_skipn_S (listeners ev s) (S i)) as Hmono.
  assert (Hlt : i < List.length (listeners ev s)).
  { apply nth_error_Some. congruence. }
  rewrite listeners_call.
  destruct f as [f|j|j k]; cbn [is_roomCountEventCallback] in Hpos.
  - lia.
  - cbv zeta. destruct (String.eqb_spec ev "roomCount") as [->|Hrc].
    + replace (if (SimplePeerMesh.roomCount (mesh s) =? 1)%Z
               then listeners "roomCount" s
               else if String.eqb "roomCount" "fullConnect"
                    then listeners "roomCount" s ++
                         [fullConnectEventCallback j (closures s)]
                    else listeners "roomCount" s)
        with (listeners "roomCount" s)
        by (now destruct (_ =? 1)%Z).
      rewrite splice_indexOf by (eapply nth_error_In; eauto).
      rewrite skipn_remove_first by assumption. lia.
    + destruct (_ =? 1)%Z; [lia|].
      destruct (String.eqb ev "fullConnect"); [|lia].
      rewrite skipn_app_last by lia. rewrite weight_app.
      change (weight [fullConnectEventCallback j (closures s)]) with 1. lia.
  - destruct (String.eqb ev "fullConnect"); [|lia].
    rewrite splice_indexOf by (eapply nth_error_In; eauto).
    rewrite skipn_remove_first by assumption. lia.
Qed.

Lemma fire_from_done fuel ev : forall i s,
  steps_left ev i s <= fuel ->
  nth_error (listeners ev (snd (fire_from fuel ev i s)))
            (fst (fire_from fuel ev i s)) = None.
Proof.
  induction fuel as [|fuel IH]; intros i s H; simpl.
  - unfold steps_left in H.
    destruct (nth_error (listeners ev s) i) as [f|] eqn:E; [|reflexivity].
    rewrite (skipn_nth _ _ _ E) in H. cbn [List.length] in H. lia.
  - destruct (nth_error (listeners ev s) i) as [f|] eqn:E; [|exact E].
    apply IH. pose proof (steps_left_call _ _ _ _ E). lia.
Qed.

Lemma fire_from_more fuel ev : forall i s extra,
  steps_left ev i s <= fuel ->
  fire_from (fuel + extra) ev i s = fire_from fuel ev i s.
Proof.
  induction fuel as [|fuel IH]; intros i s extra H.
  - simpl. destruct extra as [|extra]; [reflexivity|]. simpl.
    unfold steps_left in H.
    destruct (nth_error (listeners ev s) i) as [f|] eqn:E; [|reflexivity].
    rewrite (skipn_nth _ _ _ E) in H. cbn [List.length] in H. lia.
  - simpl. destruct (nth_error (listeners ev s) i) as [f|] eqn:E; [|reflexivity].
    apply IH. pose proof (steps_left_call _ _ _ _ E). lia.
Qed.

Lemma called_fire_from fuel ev : forall i s,
  exists calls, called (snd (fire_from fuel ev i s)) = called s ++ calls /\
                List.length calls <= fuel.
Proof.
  induction fuel as [|fuel IH]; intros i s; simpl.
  - exists []. rewrite app_nil_r. auto.
  - destruct (nth_error (listeners ev s) i) as [f|].
    + destruct (IH (S i) (call f s)) as (calls & -> & Hlen).
      exists (f :: calls). rewrite called_call, <- app_assoc. simpl. split; [reflexivity|lia].
    + exists []. rewrite app_nil_r. split; [reflexivity|simpl; lia].
Qed.

Lemma calls_since_app s s' calls :
  called s' = called s ++ calls -> calls_since s s' = calls.
Proof.
  intros H. unfold calls_since. rewrite H, skipn_app, skipn_all, Nat.sub_diag. reflexivity.
Qed.

Lemma mesh_after_socket s e :
  mesh (after s (Socket e)) = SimplePeerMesh.after (mesh s) e.
Proof.
  unfold after, SimplePeerMesh.after.
  destruct e as [n|id|id|id data|r|r|m]; simpl.
  - unfold on_roomCount, SimplePeerMesh.on_roomCount.
    now rewrite mesh_checkFullConnect, mesh_fire.
  - reflexivity.
  - unfold on_destroy, SimplePeerMesh.on_destroy.
    destruct (get id (SimplePeerMesh.peers (mesh s))) as [r|]; [|reflexivity].
    destruct (nth_error (SimplePeerMesh.heap (mesh s)) r) as [p|]; [|reflexivity].
    destruct (Peer_destroy p); [|reflexivity].
    now rewrite mesh_fire.
  - reflexivity.
  - destruct (nth_error (SimplePeerMesh.heap (mesh s)) r) as [p|]; [|reflexivity].
    destruct (destroyed p); [reflexivity|].
    unfold peer_on_connect, SimplePeerMesh.peer_on_connect.
    now rewrite mesh_checkFullConnect, mesh_fire.
  - destruct (nth_error (SimplePeerMesh.heap (mesh s)) r) as [p|]; [|reflexivity].
    now destruct (destroyed p).
  - reflexivity.
Qed.

Lemma mesh_after_call s e :
  (forall e', e <> Socket e') -> mesh (after s e) = mesh s.
Proof.
  intros H. destruct e as [e'|r what|room|ev f|ev f].
  - now destruct (H e').
  - unfold after. simpl.
    destruct (nth_error (SimplePeerMesh.heap (mesh s)) r) as [p|]; [|reflexivity].
    destruct (destroyed p); [reflexivity|]. apply mesh_fire_from.
  - reflexivity.
  - reflexivity.
  - unfold after. simpl. apply mesh_off.
Qed.

(** ** Runs of the loop over functions of the application *)

Lemma log_calls_nil s : log_calls [] s = s.
Proof. destruct s. unfold log_calls. simpl. now rewrite app_nil_r. Qed.

Lemma log_calls_app fs gs s : log_calls gs (log_calls fs s) = log_calls (fs ++ gs) s.
Proof. unfold log_calls. simpl. now rewrite app_assoc. Qed.

Lemma Forall_Handler_call f s : is_Handler f = true -> call f s = log_calls [f] s.
Proof. destruct f; try discriminate. reflexivity. Qed.

Lemma fire_from_handlers ev hs : forall fuel i s,
  Forall (fun f => is_Handler f = true) hs ->
  (forall k, k < List.length hs ->
             nth_error (listeners ev s) (i + k) = nth_error hs k) ->
  fire_from (List.length hs + fuel) ev i s
  = fire_from fuel ev (i + List.length hs) (log_calls hs s).
Proof.
  induction hs as [|h hs IH]; intros fuel i s Hall Hnth.
  - simpl. now rewrite Nat.add_0_r, log_calls_nil.
  - inversion Hall as [|? ? Hh Hhs]; subst.
    simpl List.length. simpl fire_from at 1.
    pose proof (Hnth 0 ltac:(simpl; lia)) as H0.
    rewrite Nat.add_0_r in H0. simpl in H0. rewrite H0.
    rewrite (Forall_Handler_call _ _ Hh).
    rewrite IH; [| assumption |].
    + rewrite log_calls_app. simpl app.
      replace (S i + List.length hs) with (i + S (List.length hs)) by lia. reflexivity.
    + intros k Hk. specialize (Hnth (S k) ltac:(simpl; lia)).
      replace (S i + k) with (i + S k) by lia. exact Hnth.
Qed.

Lemma promises_off ev f s : promises (off ev f s) = promises s.
Proof. unfold off. now destruct (get ev (_events s)). Qed.

Lemma closures_off ev f s : closures (off ev f s) = closures s.
Proof. unfold off. now destruct (get ev (_events s)). Qed.

Lemma promises_call f s :
  promises (call f s) =
  match f with
  | Handler _ => promises s
  | roomCountEventCallback j =>
      if (SimplePeerMesh.roomCount (mesh s) =? 1)%Z
      then MultiPeerMesh.update_nth j resolve (promises s) else promises s
  | fullConnectEventCallback j _ => MultiPeerMesh.update_nth j resolve (promises s)
  end.
Proof.
  destruct f as [f|j|j k]; unfold call; [reflexivity| |].
  - rewrite promises_off. cbn [mesh]. now destruct (_ =? 1)%Z.
  - now rewrite promises_off.
Qed.

Lemma remove_first_app_absent (f : Listener) l1 l2 :
  ~ In f l1 -> remove_first f (l1 ++ l2) = l1 ++ remove_first f l2.
Proof.
  induction l1 as [|g rest IH]; simpl; intros H; [reflexivity|].
  destruct (Listener_eqb_spec g f) as [->|_]; [tauto|].
  now rewrite IH by tauto.
Qed.

Lemma In_remove_first (x f : Listener) l : In x (remove_first f l) -> In x l.
Proof.
  induction l as [|g rest IH]; simpl; [tauto|].
  destruct (Listener_eqb g f); simpl; tauto.
Qed.

Lemma Forall_Handler_absent hs f :
  Forall (fun f => is_Handler f = true) hs -> is_Handler f = false -> ~ In f hs.
Proof.
  intros Hall Hf Hin. rewrite Forall_forall in Hall. apply Hall in Hin. congruence.
Qed.

(** ** A listener behind one that removes itself *)

Lemma roomCount_loop_passes_over fuel pre g : forall i s t,
  listeners "roomCount" s = pre ++ g :: t ->
  Forall (fun f => is_Handler f = true) pre ->
  ~ In g t -> List.length pre < i ->
  exists calls t',
    called (snd (fire_from fuel "roomCount" i s)) = called s ++ calls /\
    ~ In g calls /\
    listeners "roomCount" (snd (fire_from fuel "roomCount" i s)) = pre ++ g :: t'.
Proof.
  induction fuel as [|fuel IH]; intros i s t Harr Hpre Hg Hi; simpl.
  - exists [], t. rewrite app_nil_r. auto.
  - destruct (nth_error (listeners "roomCount" s) i) as [f|] eqn:E.
    2: { exists [], t. rewrite app_nil_r. auto. }
    assert (Hft : In f t).
    { rewrite Harr in E. rewrite nth_error_app2 in E by lia.
      destruct (i - List.length pre) as [|k] eqn:Ek; [lia|].
      simpl in E. eapply nth_error_In; eauto. }
    assert (Hfg : f <> g) by (intros ->; contradiction).
    assert (Harr' : exists t1, listeners "roomCount" (call f s) = pre ++ g :: t1 /\
                               ~ In g t1).
    { rewrite listeners_call. destruct f as [f|j|j k].
      - exists t. auto.
      - cbv zeta. change (String.eqb "roomCount" "fullConnect") with false.
        change (String.eqb "roomCount" "roomCount") with true. cbv iota.
        replace (if (SimplePeerMesh.roomCount (mesh s) =? 1)%Z
                 then listeners "roomCount" s else listeners "roomCount" s)
          with (listeners "roomCount" s) by (now destruct (_ =? 1)%Z).
        rewrite splice_indexOf by (eapply nth_error_In; eauto).
        rewrite Harr.
        rewrite remove_first_app_absent
          by (apply Forall_Handler_absent; [assumption | reflexivity]).
        simpl remove_first.
        destruct (Listener_eqb_spec g (roomCountEventCallback j)) as [->|_];
          [congruence|].
        exists (remove_first (roomCountEventCallback j) t). split; [reflexivity|].
        intros H. apply In_remove_first in H. contradiction.
      - change (String.eqb "roomCount" "fullConnect") with false. cbv iota.
        exists t. auto. }
    destruct Harr' as (t1 & Harr1 & Hg1).
    destruct (IH (S i) (call f s) t1 Harr1 Hpre Hg1 ltac:(lia))
      as (calls & t' & Hc & Hnot & Hl).
    exists (f :: calls), t'. rewrite Hc, called_call, <- app_assoc. simpl.
    split; [reflexivity|]. split; [|exact Hl].
    intros [H|H]; [congruence | contradiction].
Qed.

Lemma steps_left_length ev s : List.length (listeners ev s) <= steps_left ev 0 s.
Proof. unfold steps_left. simpl skipn. lia. Qed.

(** ** [fire] over functions of the application and one callback *)

Lemma weight_handlers hs :
  Forall (fun f => is_Handler f = true) hs -> weight hs = List.length hs.
Proof.
  induction 1 as [|f hs Hf _ IH]; [reflexivity|].
  unfold weight in *. simpl. destruct f; try discriminate. simpl. lia.
Qed.

Lemma steps_left_weight ev s : steps_left ev 0 s = weight (listeners ev s).
Proof. reflexivity. Qed.

Lemma fire_from_past_end fuel ev i s :
  nth_error (listeners ev s) i = None -> fire_from fuel ev i s = (i, s).
Proof. intros H. destruct fuel; simpl; [reflexivity | now rewrite H]. Qed.

Lemma fire_over_handlers f s :
  Forall (fun g => is_Handler g = true) (listeners (event_name f) s) ->
  fire f s = log_calls (listeners (event_name f) s)
                       (with_mesh (SimplePeerMesh.fire f (mesh s)) s).
Proof.
  intros Hall. unfold fire, fire_event.
  set (s1 := with_mesh (SimplePeerMesh.fire f (mesh s)) s).
  change (listeners (event_name f) s) with (listeners (event_name f) s1) in *.
  rewrite steps_left_weight, (weight_handlers _ Hall).
  rewrite <- (Nat.add_0_r (List.length (listeners (event_name f) s1))).
  rewrite fire_from_handlers; [reflexivity | assumption |].
  intros k _. reflexivity.
Qed.

Lemma fire_over_handlers_and_one f s hs g :
  listeners (event_name f) s = hs ++ [g] ->
  Forall (fun g => is_Handler g = true) hs ->
  nth_error (listeners (event_name f)
               (call g (log_calls hs (with_mesh (SimplePeerMesh.fire f (mesh s)) s))))
            (S (List.length hs)) = None ->
  fire f s = call g (log_calls hs (with_mesh (SimplePeerMesh.fire f (mesh s)) s)).
Proof.
  intros Harr Hall Hend. unfold fire, fire_event.
  set (s1 := with_mesh (SimplePeerMesh.fire f (mesh s)) s) in *.
  assert (Harr1 : listeners (event_name f) s1 = hs ++ [g]) by exact Harr.
  assert (Hfuel : exists fuel, steps_left (event_name f) 0 s1 = List.length hs + S fuel).
  { pose proof (steps_left_length (event_name f) s1) as H.
    rewrite Harr1, length_app in H. simpl in H.
    exists (steps_left (event_name f) 0 s1 - List.length hs - 1). lia. }
  destruct Hfuel as [fuel ->].
  rewrite fire_from_handlers; [| assumption |].
  2: { intros k Hk. rewrite Harr1. simpl. now rewrite nth_error_app1. }
  simpl fire_from.
  replace (nth_error (listeners (event_name f) (log_calls hs s1)) (List.length hs))
    with (Some g).
  2: { change (listeners (event_name f) (log_calls hs s1))
         with (listeners (event_name f) s1).
       rewrite Harr1. rewrite nth_error_app2, Nat.sub_diag by lia. reflexivity. }
  now rewrite fire_from_past_end.
Qed.

Lemma closures_call f s :
  closures (call f s) =
  match f with
  | roomCountEventCallback _ =>
      if (SimplePeerMesh.roomCount (mesh s) =? 1)%Z then closures s else S (closures s)
  | _ => closures s
  end.
Proof.
  destruct f as [f|j|j k]; unfold call; [reflexivity| |].
  - rewrite closures_off. cbn [mesh]. now destruct (_ =? 1)%Z.
  - now rewrite closures_off.
Qed.

Lemma update_nth_last {A} (l : list A) x g :
  MultiPeerMesh.update_nth (List.length l) g (l ++ [x]) = l ++ [g x].
Proof. induction l as [|y l IH]; simpl; [reflexivity | now rewrite IH]. Qed.

Lemma splice_self_last hs (g : Listener) :
  ~ In g hs -> splice (indexOf g (hs ++ [g])) (hs ++ [g]) = hs.
Proof.
  intros H. rewrite indexOf_first by assumption. rewrite splice_at. apply app_nil_r.
Qed.

(** ** Who settles the promise of a [join] *)

Lemma settles_same j s s' :
  called s' = called s -> promises s' = promises s -> settles j s s'.
Proof.
  intros Hc Hp. exists []. rewrite app_nil_r. split; [exact Hc|].
  intros p H. exists p. rewrite Hp. auto.
Qed.

Lemma settles_trans j s1 s2 s3 : settles j s1 s2 -> settles j s2 s3 -> settles j s1 s3.
Proof.
  intros (c1 & Hc1 & H1) (c2 & Hc2 & H2). exists (c1 ++ c2).
  split; [rewrite Hc2, Hc1; now rewrite app_assoc|].
  intros p Hp. destruct (H1 p Hp) as (p1 & Hp1 & Hstep1 & Hown1).
  destruct (H2 p1 Hp1) as (p2 & Hp2 & Hstep2 & Hown2).
  exists p2. split; [exact Hp2|]. split.
  - destruct Hstep1 as [->|[-> ->]], Hstep2 as [->|[E ->]]; auto; discriminate.
  - intros Hall.
    rewrite Hown2 by (intros f Hf; apply Hall, in_or_app; auto).
    apply Hown1. intros f Hf. apply Hall, in_or_app. auto.
Qed.

Lemma resolve_step p : resolve p = p \/ (p = Pending /\ resolve p = Fulfilled).
Proof. destruct p; simpl; auto. Qed.

Lemma settles_call j f s : settles j s (call f s).
Proof.
  exists [f]. split; [apply called_call|].
  intros p Hp. rewrite promises_call.
  assert (Hres : forall j',
             exists p', nth_error (MultiPeerMesh.update_nth j' resolve (promises s)) j
                        = Some p' /\
                        (p' = p \/ (p = Pending /\ p' = Fulfilled)) /\
                        (j' <> j -> p' = p)).
  { intros j'. destruct (Nat.eq_dec j' j) as [->|Hne].
    - rewrite nth_error_update_nth_eq, Hp. simpl. exists (resolve p).
      split; [reflexivity|]. split; [|congruence].
      destruct (resolve_step p) as [->|[-> ->]]; auto.
    - rewrite nth_error_update_nth_ne by assumption. exists p. auto. }
  assert (Hsame : exists p', nth_error (promises s) j = Some p' /\
                             (p' = p \/ (p = Pending /\ p' = Fulfilled)) /\
                             ((forall g, In g [f] -> owner g <> Some j) -> p' = p))
    by (exists p; auto).
  destruct f as [f|j'|j' k].
  - exact Hsame.
  - destruct (_ =? 1)%Z; [|exact Hsame].
    destruct (Hres j') as (p' & E & Hstep & Hown). exists p'.
    split; [exact E|]. split; [exact Hstep|].
    intros Hall. apply Hown. intros ->. apply (Hall _ (or_introl eq_refl)). reflexivity.
  - destruct (Hres j') as (p' & E & Hstep & Hown). exists p'.
    split; [exact E|]. split; [exact Hstep|].
    intros Hall. apply Hown. intros ->. apply (Hall _ (or_introl eq_refl)). reflexivity.
Qed.

Lemma settles_fire_from j fuel ev : forall i s, settles j s (snd (fire_from fuel ev i s)).
Proof.
  induction fuel as [|fuel IH]; intros i s; simpl.
  - now apply settles_same.
  - destruct (nth_error (listeners ev s) i) as [f|]; [|now apply settles_same].
    eapply settles_trans; [apply settles_call | apply IH].
Qed.

Lemma settles_fire j f s : settles j s (fire f s).
Proof.
  unfold fire, fire_event. eapply settles_trans; [|apply settles_fire_from].
  now apply settles_same.
Qed.

Lemma settles_checkFullConnect j s : settles j s (checkFullConnect s).
Proof.
  unfold checkFullConnect. destruct (_ <=? _)%Z; [apply settles_fire|].
  now apply settles_same.
Qed.

Lemma settles_after j s e : settles j s (after s e).
Proof.
  unfold after. destruct e as [e|r what|room|ev f|ev f].
  2: { simpl.
       destruct (nth_error (SimplePeerMesh.heap (mesh s)) r) as [p|];
         [|now apply settles_same].
       destruct (destroyed p); [now apply settles_same|].
       apply settles_fire_from. }
  - destruct e as [n|id|id|id data|r|r|m]; simpl;
      try (now apply settles_same).
    + unfold on_roomCount.
      eapply settles_trans; [|apply settles_checkFullConnect].
      eapply settles_trans; [|apply settles_fire].
      now apply settles_same.
    + unfold on_destroy.
      destruct (get id (SimplePeerMesh.peers (mesh s))) as [r|];
        [|now apply settles_same].
      destruct (nth_error (SimplePeerMesh.heap (mesh s)) r) as [p|];
        [|now apply settles_same].
      destruct (Peer_destroy p); [|now apply settles_same].
      eapply settles_trans; [|apply settles_fire]. now apply settles_same.
    + destruct (nth_error (SimplePeerMesh.heap (mesh s)) r) as [p|];
        [|now apply settles_same].
      destruct (destroyed p); [now apply settles_same|].
      unfold peer_on_connect.
      eapply settles_trans; [|apply settles_checkFullConnect].
      eapply settles_trans; [|apply settles_fire].
      now apply settles_same.
    + destruct (nth_error (SimplePeerMesh.heap (mesh s)) r) as [p|];
        [|now apply settles_same].
      destruct (destroyed p); now apply settles_same.
  - simpl. exists []. rewrite app_nil_r. split; [reflexivity|].
    intros p Hp. exists p. split; [|auto].
    unfold join. cbn [snd]. change (promises (on _ _ ?x)) with (promises x).
    cbn [promises]. rewrite nth_error_app1; [exact Hp|].
    apply nth_error_Some. congruence.
  - simpl. now apply settles_same.
  - simpl. apply settles_same; [apply called_off | apply promises_off].
Qed.

(** ** A [join] none of whose callbacks is registered *)

Lemma In_splice (x : Listener) start arr : In x (splice start arr) -> In x arr.
Proof.
  unfold splice. intros H. apply in_app_or in H as [H|H].
  - rewrite <- (firstn_skipn (Z.to_nat
        (if (start <? 0)%Z then Z.max (Z.of_nat (List.length arr) + start) 0
         else Z.min start (Z.of_nat (List.length arr)))) arr).
    apply in_or_app. auto.
  - rewrite <- (firstn_skipn (S (Z.to_nat
        (if (start <? 0)%Z then Z.max (Z.of_nat (List.length arr) + start) 0
         else Z.min start (Z.of_nat (List.length arr))))) arr).
    apply in_or_app. auto.
Qed.

Lemma unregistered_same j s s' :
  _events s' = _events s -> unregistered j s -> unregistered j s'.
Proof. intros E H ev f. unfold listeners. rewrite E. apply H. Qed.

Lemma unregistered_off j ev f s : unregistered j s -> unregistered j (off ev f s).
Proof.
  intros H ev' g Hin. destruct (String.eqb_spec ev' ev) as [->|Hne].
  - rewrite listeners_off_eq in Hin. apply In_splice in Hin. eapply H; eauto.
  - rewrite listeners_off_ne in Hin by assumption. eapply H; eauto.
Qed.

Lemma unregistered_on j ev f s :
  owner f <> Some j -> unregistered j s -> unregistered j (on ev f s).
Proof.
  intros Hf H ev' g Hin. destruct (String.eqb_spec ev' ev) as [->|Hne].
  - rewrite listeners_on_eq in Hin. apply in_app_or in Hin as [Hin|[<-|[]]].
    + eapply H; eauto.
    + exact Hf.
  - rewrite listeners_on_ne in Hin by assumption. eapply H; eauto.
Qed.

Lemma unregistered_call j f s :
  owner f <> Some j -> unregistered j s -> unregistered j (call f s).
Proof.
  intros Hf H. destruct f as [f|j'|j' k]; unfold call.
  - exact H.
  - apply unregistered_off. cbn [mesh]. destruct (_ =? 1)%Z.
    + exact H.
    + apply unregistered_on; [exact Hf | exact H].
  - apply unregistered_off. exact H.
Qed.

Lemma unregistered_fire_from j fuel ev : forall i s,
  unregistered j s ->
  unregistered j (snd (fire_from fuel ev i s)) /\
  promises_at j (snd (fire_from fuel ev i s)) = promises_at j s.
Proof.
  induction fuel as [|fuel IH]; intros i s H; simpl; [auto|].
  destruct (nth_error (listeners ev s) i) as [f|] eqn:E; [|auto].
  assert (Hf : owner f <> Some j) by (eapply H, nth_error_In; eauto).
  destruct (IH (S i) (call f s) (unregistered_call _ _ _ Hf H)) as [Hu Hp].
  split; [exact Hu|]. rewrite Hp. unfold promises_at.
  rewrite promises_call. destruct f as [f|j'|j' k].
  - reflexivity.
  - destruct (_ =? 1)%Z; [|reflexivity].
    rewrite update_nth_length, nth_error_update_nth_ne; [reflexivity|].
    simpl in Hf. congruence.
  - rewrite update_nth_length, nth_error_update_nth_ne; [reflexivity|].
    simpl in Hf. congruence.
Qed.

Lemma unregistered_fire j f s :
  unregistered j s ->
  unregistered j (fire f s) /\ promises_at j (fire f s) = promises_at j s.
Proof.
  intros H. unfold fire, fire_event.
  apply (unregistered_fire_from j _ _ 0
           (with_mesh (SimplePeerMesh.fire f (mesh s)) s)).
  exact H.
Qed.

Lemma unregistered_checkFullConnect j s :
  unregistered j s ->
  unregistered j (checkFullConnect s) /\
  promises_at j (checkFullConnect s) = promises_at j s.
Proof.
  intros H. unfold checkFullConnect.
  destruct (_ <=? _)%Z; [now apply unregistered_fire | auto].
Qed.

Lemma unregistered_after j s e :
  j < List.length (promises s) -> unregistered j s ->
  unregistered j (after s e) /\
  nth_error (promises (after s e)) j = nth_error (promises s) j /\
  j < List.length (promises (after s e)).
Proof.
  intros Hj H.
  assert (Hat : forall s', unregistered j s' /\ promises_at j s' = promises_at j s ->
                           unregistered j s' /\
                           nth_error (promises s') j = nth_error (promises s) j /\
                           j < List.length (promises s')).
  { intros s' [Hu Hp]. unfold promises_at in Hp. injection Hp as Hn Hl.
    split; [exact Hu|]. split; [exact Hn | lia]. }
  assert (Hsame : forall s', _events s' = _events s -> promises s' = promises s ->
                             unregistered j s' /\ promises_at j s' = promises_at j s).
  { intros s' He Hp. split; [now apply (unregistered_same j s)|].
    unfold promises_at. now rewrite Hp. }
  unfold after. destruct e as [e|r what|room|ev f|ev f].
  2: { apply Hat. simpl.
       destruct (nth_error (SimplePeerMesh.heap (mesh s)) r) as [p|]; [|auto].
       destruct (destroyed p); [auto|].
       now apply unregistered_fire_from. }
  - apply Hat. destruct e as [n|id|id|id data|r|r|m]; simpl; try (now apply Hsame).
    + unfold on_roomCount.
      destruct (unregistered_fire j (SimplePeerMesh.FRoomCount n)
                  (with_mesh (SimplePeerMesh.with_roomCount n (mesh s)) s) H)
        as [Hu Hp].
      destruct (unregistered_checkFullConnect j _ Hu) as [Hu' Hp'].
      split; [exact Hu'|]. now rewrite Hp', Hp.
    + unfold on_destroy.
      destruct (get id (SimplePeerMesh.peers (mesh s))) as [r|]; [|auto].
      destruct (nth_error (SimplePeerMesh.heap (mesh s)) r) as [p|]; [|auto].
      destruct (Peer_destroy p); [|auto].
      match goal with
      | |- context [fire ?f ?x] => destruct (unregistered_fire j f x H) as [Hu Hp]
      end.
      split; [exact Hu | exact Hp].
    + destruct (nth_error (SimplePeerMesh.heap (mesh s)) r) as [p|]; [|auto].
      destruct (destroyed p); [auto|].
      unfold peer_on_connect.
      destruct (unregistered_fire j (SimplePeerMesh.FConnect (socketId p))
                  (with_mesh (SimplePeerMesh.with_heap
                                (update r Peer_open (SimplePeerMesh.heap (mesh s)))
                                (mesh s)) s) H)
        as [Hu Hp].
      destruct (unregistered_checkFullConnect j _ Hu) as [Hu' Hp'].
      split; [exact Hu'|]. now rewrite Hp', Hp.
    + destruct (nth_error (SimplePeerMesh.heap (mesh s)) r) as [p|]; [|auto].
      destruct (destroyed p); auto.
  - clear Hat Hsame. simpl. unfold join. cbn [snd]. split; [|split].
    + apply unregistered_on; [simpl; intros E; injection E as E; lia|].
      exact H.
    + change (promises (on _ _ ?x)) with (promises x).
      cbn [promises]. now rewrite nth_error_app1.
    + change (promises (on _ _ ?x)) with (promises x).
      cbn [promises]. rewrite length_app. lia.
  - apply Hat. simpl. split; [|reflexivity].
    apply unregistered_on; [discriminate | exact H].
  - apply Hat. simpl. split; [now apply unregistered_off|].
    unfold promises_at. now rewrite promises_off.
Qed.

(** ** When the promise of a [join] is fulfilled *)

Lemma placed_same s s' : _events s' = _events s -> placed s -> placed s'.
Proof. intros E H ev f. unfold listeners. rewrite E. apply H. Qed.

Lemma placed_off ev f s : placed s -> placed (off ev f s).
Proof.
  intros H ev' g Hin. destruct (String.eqb_spec ev' ev) as [->|Hne].
  - rewrite listeners_off_eq in Hin. apply In_splice in Hin. now apply H.
  - rewrite listeners_off_ne in Hin by assumption. now apply H.
Qed.

Lemma placed_on ev f s :
  match f with
  | Handler _ => True
  | roomCountEventCallback _ => ev = "roomCount"
  | fullConnectEventCallback _ _ => ev = "fullConnect"
  end ->
  placed s -> placed (on ev f s).
Proof.
  intros Hf H ev' g Hin. destruct (String.eqb_spec ev' ev) as [->|Hne].
  - rewrite listeners_on_eq in Hin. apply in_app_or in Hin as [Hin|[<-|[]]].
    + now apply H.
    + exact Hf.
  - rewrite listeners_on_ne in Hin by assumption. now apply H.
Qed.

Lemma placed_call f s : placed s -> placed (call f s).
Proof.
  intros H. destruct f as [f|j|j k]; unfold call.
  - exact H.
  - apply placed_off. cbn [mesh]. destruct (_ =? 1)%Z.
    + exact H.
    + apply placed_on; [reflexivity | exact H].
  - apply placed_off. exact H.
Qed.

Lemma placed_fire_from fuel ev : forall i s,
  placed s -> placed (snd (fire_from fuel ev i s)).
Proof.
  induction fuel as [|fuel IH]; intros i s H; simpl; [exact H|].
  destruct (nth_error (listeners ev s) i) as [f|]; [|exact H].
  apply IH. now apply placed_call.
Qed.

Lemma placed_fire f s : placed s -> placed (fire f s).
Proof. intros H. unfold fire, fire_event. apply placed_fire_from. exact H. Qed.

Lemma placed_checkFullConnect s : placed s -> placed (checkFullConnect s).
Proof.
  intros H. unfold checkFullConnect. destruct (_ <=? _)%Z; [now apply placed_fire | exact H].
Qed.

Lemma placed_after s e : placed s -> placed (after s e).
Proof.
  intros H. unfold after. destruct e as [e|r what|room|ev f|ev f]; simpl.
  - destruct e as [n|id|id|id data|r|r|m]; simpl; try exact H.
    + unfold on_roomCount. apply placed_checkFullConnect, placed_fire. exact H.
    + unfold on_destroy.
      destruct (get id (SimplePeerMesh.peers (mesh s))) as [r|]; [|exact H].
      destruct (nth_error (SimplePeerMesh.heap (mesh s)) r) as [p|]; [|exact H].
      destruct (Peer_destroy p); [|exact H].
      apply placed_fire. exact H.
    + destruct (nth_error (SimplePeerMesh.heap (mesh s)) r) as [p|]; [|exact H].
      destruct (destroyed p); [exact H|].
      unfold peer_on_connect. apply placed_checkFullConnect, placed_fire. exact H.
    + destruct (nth_error (SimplePeerMesh.heap (mesh s)) r) as [p|]; [|exact H].
      destruct (destroyed p); exact H.
  - destruct (nth_error (SimplePeerMesh.heap (mesh s)) r) as [p|]; [|exact H].
    destruct (destroyed p); [exact H|]. now apply placed_fire_from.
  - unfold join. cbn [snd]. apply placed_on; [reflexivity | exact H].
  - apply placed_on; [exact I | exact H].
  - now apply placed_off.
Qed.

Lemma placed_run es : forall s, placed s -> placed (run s es).
Proof.
  induction es as [|e es IH]; intros s H; [exact H|].
  simpl. apply IH. now apply placed_after.
Qed.

Lemma placed_constructor : placed constructor.
Proof. intros ev f []. Qed.

Lemma call_fulfils j f s :
  nth_error (promises s) j = Some Pending ->
  nth_error (promises (call f s)) j = Some Pending \/
  (nth_error (promises (call f s)) j = Some Fulfilled /\
   ((f = roomCountEventCallback j /\ SimplePeerMesh.roomCount (mesh s) = 1%Z) \/
    exists k, f = fullConnectEventCallback j k)).
Proof.
  intros Hp. rewrite promises_call. destruct f as [f|j'|j' k].
  - now left.
  - destruct (Z.eqb_spec (SimplePeerMesh.roomCount (mesh s)) 1) as [Hrc|_]; [|now left].
    destruct (Nat.eq_dec j' j) as [->|Hne].
    + right. rewrite nth_error_update_nth_eq, Hp. auto.
    + left. now rewrite nth_error_update_nth_ne.
  - destruct (Nat.eq_dec j' j) as [->|Hne].
    + right. rewrite nth_error_update_nth_eq, Hp. eauto.
    + left. now rewrite nth_error_update_nth_ne.
Qed.

Lemma fire_from_fulfils j fuel ev : forall i s,
  placed s -> nth_error (promises s) j = Some Pending ->
  nth_error (promises (snd (fire_from fuel ev i s))) j = Some Pending \/
  (nth_error (promises (snd (fire_from fuel ev i s))) j = Some Fulfilled /\
   ((ev = "roomCount" /\ SimplePeerMesh.roomCount (mesh s) = 1%Z) \/
    ev = "fullConnect")).
Proof.
  induction fuel as [|fuel IH]; intros i s Hpl Hp; simpl; [now left|].
  destruct (nth_error (listeners ev s) i) as [f|] eqn:E; [|now left].
  pose proof (Hpl ev f (nth_error_In _ _ E)) as Hplace.
  destruct (call_fulfils j f s Hp) as [Hstill|[Hful Hwho]].
  - rewrite <- (mesh_call f s). apply IH; [now apply placed_call | exact Hstill].
  - right. split.
    + destruct (settles_fire_from j fuel ev (S i) (call f s)) as (calls & _ & H).
      destruct (H _ Hful) as (p' & -> & [->|[Habs _]] & _); [reflexivity | discriminate].
    + destruct Hwho as [[-> Hrc]|[k ->]]; simpl in Hplace; auto.
Qed.

Lemma fire_fulfils j f s :
  placed s -> nth_error (promises s) j = Some Pending ->
  nth_error (promises (fire f s)) j = Some Pending \/
  (nth_error (promises (fire f s)) j = Some Fulfilled /\
   ((event_name f = "roomCount" /\ SimplePeerMesh.roomCount (mesh s) = 1%Z) \/
    event_name f = "fullConnect")).
Proof.
  intros Hpl Hp. unfold fire, fire_event.
  apply (fire_from_fulfils j _ (event_name f) 0
           (with_mesh (SimplePeerMesh.fire f (mesh s)) s)); assumption.
Qed.

Lemma complete_fire f m : complete (SimplePeerMesh.fire f m) = complete m.
Proof. reflexivity. Qed.

Lemma complete_checkFullConnect s : complete (mesh (checkFullConnect s)) = complete (mesh s).
Proof.
  unfold checkFullConnect. destruct (_ <=? _)%Z; [|reflexivity].
  now rewrite mesh_fire, complete_fire.
Qed.

Lemma checkFullConnect_fulfils j s :
  nth_error (promises s) j = Some Pending ->
  nth_error (promises (checkFullConnect s)) j = Some Fulfilled ->
  complete (mesh s) = true.
Proof.
  intros Hp Hf. unfold checkFullConnect in Hf. unfold complete.
  destruct (_ <=? _)%Z; [reflexivity | congruence].
Qed.

(** A promise turns from pending to fulfilled only in an event after
    which the test of [checkFullConnect] holds. *)
Lemma after_fulfils j s e :
  placed s -> nth_error (promises s) j = Some Pending ->
  nth_error (promises (after s e)) j = Some Fulfilled ->
  complete (mesh (after s e)) = true.
Proof.
  intros Hpl Hp. unfold after. destruct e as [e|r what|room|ev f|ev f]; simpl.
  - destruct e as [n|id|id|id data|r|r|m]; simpl; try congruence.
    + unfold on_roomCount. intros Hf. rewrite complete_checkFullConnect.
      set (s1 := with_mesh (SimplePeerMesh.with_roomCount n (mesh s)) s) in *.
      destruct (fire_fulfils j (SimplePeerMesh.FRoomCount n) s1 Hpl Hp)
        as [Hstill|[_ [[_ Hrc]|Habs]]].
      * exact (checkFullConnect_fulfils j _ Hstill Hf).
      * rewrite mesh_fire, complete_fire. unfold complete. rewrite Hrc.
        apply Z.leb_le. lia.
      * discriminate.
    + unfold on_destroy.
      destruct (get id (SimplePeerMesh.peers (mesh s))) as [r|]; [|congruence].
      destruct (nth_error (SimplePeerMesh.heap (mesh s)) r) as [p|]; [|congruence].
      destruct (Peer_destroy p) as [p'|]; [|congruence].
      match goal with
      | |- context [fire ?f ?x] =>
          destruct (fire_fulfils j f x Hpl Hp) as [Hstill|[_ [[Habs _]|Habs]]]
      end; [congruence | discriminate | discriminate].
    + destruct (nth_error (SimplePeerMesh.heap (mesh s)) r) as [p|]; [|congruence].
      destruct (destroyed p); [congruence|].
      unfold peer_on_connect. intros Hf. rewrite complete_checkFullConnect.
      match type of Hf with
      | context [fire ?f ?x] =>
          destruct (fire_fulfils j f x Hpl Hp) as [Hstill|[_ [[Habs _]|Habs]]]
      end; [|discriminate|discriminate].
      exact (checkFullConnect_fulfils j _ Hstill Hf).
    + destruct (nth_error (SimplePeerMesh.heap (mesh s)) r) as [p|]; simpl; [|congruence].
      destruct (destroyed p); simpl; congruence.
  - destruct (nth_error (SimplePeerMesh.heap (mesh s)) r) as [p|]; [|congruence].
    destruct (destroyed p); [congruence|].
    unfold fire_event.
    destruct (fire_from_fulfils j (steps_left (notice_name what) 0 s)
                (notice_name what) 0 s Hpl Hp) as [Hstill|[_ [[Habs _]|Habs]]];
      [congruence | destruct what; discriminate ..].
  - unfold join. cbn [snd]. change (promises (on _ _ ?x)) with (promises x).
    cbn [promises]. rewrite nth_error_app1; [congruence|].
    apply nth_error_Some. congruence.
  - congruence.
  - rewrite promises_off. congruence.
Qed.

(** No promise of a [join] is ever rejected. *)
Lemma unrejected_update_nth j (ps : list Promise) :
  Forall (fun p => p <> Rejected) ps ->
  Forall (fun p => p <> Rejected) (MultiPeerMesh.update_nth j resolve ps).
Proof.
  intros H. revert j. induction H as [|p ps Hp Hps IH]; intros [|j]; simpl; auto.
  constructor; [|assumption]. now destruct p.
Qed.

Lemma unrejected_call f s :
  Forall (fun p => p <> Rejected) (promises s) ->
  Forall (fun p => p <> Rejected) (promises (call f s)).
Proof.
  intros H. rewrite promises_call. destruct f as [f|j|j k]; auto.
  - destruct (_ =? 1)%Z; auto using unrejected_update_nth.
  - now apply unrejected_update_nth.
Qed.

Lemma unrejected_fire_from fuel ev : forall i s,
  Forall (fun p => p <> Rejected) (promises s) ->
  Forall (fun p => p <> Rejected) (promises (snd (fire_from fuel ev i s))).
Proof.
  induction fuel as [|fuel IH]; intros i s H; simpl; [exact H|].
  destruct (nth_error (listeners ev s) i) as [f|]; [|exact H].
  apply IH. now apply unrejected_call.
Qed.

Lemma unrejected_fire f s :
  Forall (fun p => p <> Rejected) (promises s) ->
  Forall (fun p => p <> Rejected) (promises (fire f s)).
Proof. intros H. unfold fire, fire_event. now apply unrejected_fire_from. Qed.

Lemma unrejected_checkFullConnect s :
  Forall (fun p => p <> Rejected) (promises s) ->
  Forall (fun p => p <> Rejected) (promises (checkFullConnect s)).
Proof.
  intros H. unfold checkFullConnect.
  destruct (_ <=? _)%Z; [now apply unrejected_fire | exact H].
Qed.

Lemma unrejected_after s e :
  Forall (fun p => p <> Rejected) (promises s) ->
  Forall (fun p => p <> Rejected) (promises (after s e)).
Proof.
  intros H. unfold after. destruct e as [e|r what|room|ev f|ev f]; simpl.
  - destruct e as [n|id|id|id data|r|r|m]; simpl; try exact H.
    + unfold on_roomCount. apply unrejected_checkFullConnect, unrejected_fire. exact H.
    + unfold on_destroy.
      destruct (get id (SimplePeerMesh.peers (mesh s))) as [r|]; [|exact H].
      destruct (nth_error (SimplePeerMesh.heap (mesh s)) r) as [p|]; [|exact H].
      destruct (Peer_destroy p); [|exact H].
      apply unrejected_fire. exact H.
    + destruct (nth_error (SimplePeerMesh.heap (mesh s)) r) as [p|]; [|exact H].
      destruct (destroyed p); [exact H|].
      unfold peer_on_connect. apply unrejected_checkFullConnect, unrejected_fire. exact H.
    + destruct (nth_error (SimplePeerMesh.heap (mesh s)) r) as [p|]; [|exact H].
      destruct (destroyed p); exact H.
  - destruct (nth_error (SimplePeerMesh.heap (mesh s)) r) as [p|]; [|exact H].
    destruct (destroyed p); [exact H|]. now apply unrejected_fire_from.
  - unfold join. cbn [snd]. change (promises (on _ _ ?x)) with (promises x).
    cbn [promises]. apply Forall_app. split; [exact H|].
    constructor; [discriminate | constructor].
  - exact H.
  - rewrite promises_off. exact H.
Qed.

Lemma unrejected_run es : forall s,
  Forall (fun p => p <> Rejected) (promises s) ->
  Forall (fun p => p <> Rejected) (promises (run s es)).
Proof.
  induction es as [|e es IH]; intros s H; [exact H|].
  simpl. apply IH. now apply unrejected_after.
Qed.

(** ** The first callback of a [join] at room count 1 *)

Lemma first_callback_resolved s pre j rest :
  listeners "roomCount" s = pre ++ roomCountEventCallback j :: rest ->
  Forall (fun f => is_Handler f = true) pre ->
  nth_error (promises s) j = Some Pending ->
  nth_error (promises (after s (Socket (SimplePeerMesh.SocketRoomCount 1)))) j
  = Some Fulfilled.
Proof.
  intros Harr Hpre Hp. unfold after. cbn [step]. unfold on_roomCount.
  set (s1 := with_mesh (SimplePeerMesh.with_roomCount 1 (mesh s)) s).
  assert (Hstays : forall a b, settles j a b ->
                               nth_error (promises a) j = Some Fulfilled ->
                               nth_error (promises b) j = Some Fulfilled).
  { intros a b (calls & _ & H) Ha.
    destruct (H _ Ha) as (p' & -> & [->|[Habs _]] & _); [reflexivity | discriminate]. }
  apply (Hstays _ _ (settles_checkFullConnect j _)).
  unfold fire, fire_event.
  change (event_name (SimplePeerMesh.FRoomCount 1)) with "roomCount".
  set (s2 := with_mesh (SimplePeerMesh.fire (SimplePeerMesh.FRoomCount 1) (mesh s1)) s1).
  assert (Harr2 : listeners "roomCount" s2 = pre ++ roomCountEventCallback j :: rest)
    by exact Harr.
  assert (Hfuel : exists fuel, steps_left "roomCount" 0 s2 = List.length pre + S fuel).
  { pose proof (steps_left_length "roomCount" s2) as H.
    rewrite Harr2, length_app in H. simpl in H.
    exists (steps_left "roomCount" 0 s2 - List.length pre - 1). lia. }
  destruct Hfuel as [fuel ->].
  rewrite fire_from_handlers; [| assumption |].
  2: { intros k Hk. rewrite Harr2. simpl. now rewrite nth_error_app1. }
  simpl fire_from.
  replace (nth_error (listeners "roomCount" (log_calls pre s2)) (List.length pre))
    with (Some (roomCountEventCallback j)).
  2: { change (listeners "roomCount" (log_calls pre s2))
         with (listeners "roomCount" s2).
       rewrite Harr2. rewrite nth_error_app2, Nat.sub_diag by lia. reflexivity. }
  apply (Hstays _ _ (settles_fire_from j fuel "roomCount" _ _)).
  rewrite promises_call.
  change (SimplePeerMesh.roomCount (mesh (log_calls pre s2))) with 1%Z.
  change (promises (log_calls pre s2)) with (promises s).
  cbv iota. change (1 =? 1)%Z with true. cbv iota.
  now rewrite nth_error_update_nth_eq, Hp.
Qed.

End RegistryProps.

Import Registry RegistrySpec RegistryProps.

(** X16.  [off(event, fun)] removes the first registration of [fun] for
    the event and leaves its other registrations in place.  When [fun] is
    not registered for the event, it removes the listener registered last
    instead ([indexOf] gives [-1], which [splice] counts from the end).
    The listeners of other events are never touched. *)
Theorem off_removes_first_or_else_last (s : Mesh) (event : string) (f : Listener) :
  (In f (listeners event s) ->
   exists l1 l2, listeners event s = l1 ++ f :: l2 /\ ~ In f l1 /\
                 listeners event (off event f s) = l1 ++ l2) /\
  (~ In f (listeners event s) ->
   listeners event (off event f s) = removelast (listeners event s)) /\
  (forall event', event' <> event ->
                  listeners event' (off event f s) = listeners event' s).
Proof.
  split; [|split].
  - intros H. destruct (In_first _ _ H) as (l1 & l2 & E & Hl1).
    exists l1, l2. split; [exact E|]. split; [exact Hl1|].
    rewrite listeners_off_eq, E. now rewrite indexOf_first, splice_at.
  - intros H. rewrite listeners_off_eq. now apply splice_indexOf_absent.
  - intros event' H. now apply listeners_off_ne.
Qed.

Lemma off_removes_first_or_else_last_witness :
  let s := run constructor [CallOn "data" 1; CallOn "data" 2; CallOn "data" 1] in
  listeners "data" (off "data" (Handler 1) s) = [Handler 2; Handler 1] /\
  listeners "data" (off "data" (Handler 7) s) = [Handler 1; Handler 2].
Proof.
  cbv zeta.
  destruct (off_removes_first_or_else_last
              (run constructor [CallOn "data" 1; CallOn "data" 2; CallOn "data" 1])
              "data" (Handler 1)) as (Hfirst & _ & _).
  destruct (off_removes_first_or_else_last
              (run constructor [CallOn "data" 1; CallOn "data" 2; CallOn "data" 1])
              "data" (Handler 7)) as (_ & Hlast & _).
  split.
  - destruct Hfirst as (l1 & l2 & E & Hl1 & ->); [vm_compute; auto|].
    vm_compute in E. destruct l1 as [|x l1].
    + injection E as <-. reflexivity.
    + injection E as <- E. destruct Hl1. left. reflexivity.
  - rewrite Hlast; [vm_compute; reflexivity|].
    vm_compute. intros [H|[H|[H|[]]]]; discriminate.
Defined.

(** X17.  The listener registry and [join] never disturb the mesh: the
    peer map, the transport objects, the room count and the sequence of
    the mesh's own [fire] calls after any history are those of the socket
    events and peer connects and closes alone, whatever [join], [on] and
    [off] calls and data, stream, track and error notifications lie
    between them and whichever listeners ran.  A socket ['destroy'] raises with
    listeners exactly when it raises without. *)
Theorem listeners_leave_mesh_alone (s : Mesh) (es : list Event) :
  mesh (run s es) = SimplePeerMesh.run (mesh s) (socket_events es) /\
  (forall e err, step (run s es) (Socket e) = Throw err <->
                 SimplePeerMesh.step (mesh (run s es)) e = Throw err).
Proof.
  split.
  - revert s. induction es as [|e es IH]; intros s; [reflexivity|].
    simpl run. rewrite IH. destruct e as [e'|r what|room|ev f|ev f].
    + simpl socket_events. simpl SimplePeerMesh.run. now rewrite mesh_after_socket.
    + simpl socket_events. rewrite mesh_after_call; [reflexivity|discriminate].
    + reflexivity.
    + reflexivity.
    + simpl socket_events. rewrite mesh_after_call; [reflexivity|discriminate].
  - generalize (run s es). clear s es. intros s e err.
    destruct e as [n|id|id|id data|r|r|m]; simpl; try (split; discriminate).
    + unfold on_destroy, SimplePeerMesh.on_destroy.
      destruct (get id (SimplePeerMesh.peers (mesh s))) as [r|]; [|split; discriminate].
      destruct (nth_error (SimplePeerMesh.heap (mesh s)) r) as [p|]; [|split; discriminate].
      destruct (Peer_destroy p); [split; discriminate|].
      split; intros H; injection H as ->; reflexivity.
    + destruct (nth_error (SimplePeerMesh.heap (mesh s)) r) as [p|]; [|split; discriminate].
      destruct (destroyed p); split; discriminate.
    + destruct (nth_error (SimplePeerMesh.heap (mesh s)) r) as [p|]; [|split; discriminate].
      destruct (destroyed p); split; discriminate.
Qed.

(** X18.  The loop of [fire] ends although listeners add and remove
    listeners while it runs: after at most one call per listener of the
    event, and one more per [join] callback among them, its index is past
    the end of the array.  Further steps would change nothing. *)
Theorem fire_loop_ends (s : Mesh) (event : string) :
  let r := fire_from (steps_left event 0 s) event 0 s in
  nth_error (listeners event (snd r)) (fst r) = None /\
  List.length (calls_since s (snd r)) <= steps_left event 0 s /\
  (forall extra, fire_from (steps_left event 0 s + extra) event 0 s = r).
Proof.
  cbv zeta. split; [|split].
  - apply fire_from_done. lia.
  - destruct (called_fire_from (steps_left event 0 s) event 0 s) as (calls & E & Hlen).
    now rewrite (calls_since_app _ _ _ E).
  - intros extra. apply fire_from_more. lia.
Qed.

(** X19.  A listener that removes itself while [fire] runs makes the loop
    pass over the listener registered right behind it.  When a pending
    [join]'s room-count callback is preceded only by functions of the
    application, [fire('roomCount', n)] calls that callback and does not
    call the listener that follows it, be it a function of the application
    or the callback of a second [join]: that listener moves into the place
    just visited and is still registered afterwards. *)
Theorem listener_behind_join_callback_is_skipped
  (s : Mesh) (n : Z) (pre : list Listener) (j : nat) (g : Listener) (rest : list Listener) :
  let s' := fire (SimplePeerMesh.FRoomCount n) s in
  listeners "roomCount" s = pre ++ roomCountEventCallback j :: g :: rest ->
  Forall (fun f => is_Handler f = true) pre ->
  ~ In g pre -> ~ In g rest -> g <> roomCountEventCallback j ->
  In (roomCountEventCallback j) (calls_since s s') /\
  ~ In g (calls_since s s') /\
  exists rest', listeners "roomCount" s' = pre ++ g :: rest'.
Proof.
  cbv zeta. intros Harr Hpre Hgpre Hgrest Hgj. unfold fire, fire_event.
  set (s1 := with_mesh (SimplePeerMesh.fire (SimplePeerMesh.FRoomCount n) (mesh s)) s).
  change (event_name (SimplePeerMesh.FRoomCount n)) with "roomCount".
  assert (Harr1 : listeners "roomCount" s1
                  = pre ++ roomCountEventCallback j :: g :: rest) by exact Harr.
  assert (Hfuel : exists fuel, steps_left "roomCount" 0 s1 = List.length pre + S fuel).
  { pose proof (steps_left_length "roomCount" s1) as H.
    rewrite Harr1, length_app in H. simpl in H.
    exists (steps_left "roomCount" 0 s1 - List.length pre - 1). lia. }
  destruct Hfuel as [fuel ->].
  rewrite fire_from_handlers; [| assumption |].
  2: { intros k Hk. rewrite Harr1. simpl. now rewrite nth_error_app1. }
  simpl fire_from.
  replace (nth_error (listeners "roomCount" (log_calls pre s1)) (List.length pre))
    with (Some (roomCountEventCallback j)).
  2: { change (listeners "roomCount" (log_calls pre s1)) with (listeners "roomCount" s1).
       rewrite Harr1. rewrite nth_error_app2, Nat.sub_diag by lia. reflexivity. }
  destruct (roomCount_loop_passes_over fuel pre g (S (List.length pre))
              (call (roomCountEventCallback j) (log_calls pre s1)) rest)
    as (calls & rest' & Hc & Hnot & Hl).
  - rewrite listeners_call. cbv zeta.
    change (String.eqb "roomCount" "fullConnect") with false.
    change (String.eqb "roomCount" "roomCount") with true. cbv iota.
    change (listeners "roomCount" (log_calls pre s1)) with (listeners "roomCount" s1).
    replace (if (SimplePeerMesh.roomCount (mesh (log_calls pre s1)) =? 1)%Z
             then listeners "roomCount" s1 else listeners "roomCount" s1)
      with (listeners "roomCount" s1) by (now destruct (_ =? 1)%Z).
    rewrite Harr1.
    rewrite indexOf_first
      by (apply Forall_Handler_absent; [assumption | reflexivity]).
    apply splice_at.
  - assumption.
  - assumption.
  - lia.
  - rewrite called_call in Hc. change (called (log_calls pre s1)) with (called s ++ pre) in Hc.
    assert (E : calls_since s
                  (snd (fire_from fuel "roomCount" (S (List.length pre))
                          (call (roomCountEventCallback j) (log_calls pre s1))))
                = pre ++ roomCountEventCallback j :: calls).
    { apply calls_since_app. rewrite Hc, <- !app_assoc. reflexivity. }
    change (0 + List.length pre) with (List.length pre).
    rewrite E. split; [|split].
    + apply in_or_app. right. left. reflexivity.
    + intros H. apply in_app_or in H as [H|[H|H]]; [contradiction|congruence|contradiction].
    + exists rest'. exact Hl.
Qed.

Lemma listener_behind_join_callback_is_skipped_witness :
  let s := run constructor [CallOn "roomCount" 4; CallJoin "room"; CallJoin "room"] in
  let s' := fire (SimplePeerMesh.FRoomCount 1) s in
  In (roomCountEventCallback 0) (calls_since s s') /\
  ~ In (roomCountEventCallback 1) (calls_since s s') /\
  listeners "roomCount" s' = [Handler 4; roomCountEventCallback 1].
Proof.
  cbv zeta.
  destruct (listener_behind_join_callback_is_skipped
              (run constructor [CallOn "roomCount" 4; CallJoin "room"; CallJoin "room"])
              1 [Handler 4] 0 (roomCountEventCallback 1) [])
    as (Hcalled & Hskipped & _).
  - vm_compute. reflexivity.
  - repeat constructor.
  - intros [H|[]]. discriminate.
  - intros [].
  - discriminate.
  - split; [exact Hcalled|]. split; [exact Hskipped|]. vm_compute. reflexivity.
Defined.

(** X20.  A [join] called while only functions of the application listen
    for ['roomCount'] and ['fullConnect'] is settled by the next room
    count exactly when the mesh is complete at that count: alone in the
    room its room-count callback resolves it, and otherwise its
    full-connect callback is registered before the check of the same
    event runs and is called by it.  When the mesh is not complete the
    promise stays pending with that callback registered last.  Either way
    the room-count callback is called once, after the functions
    registered before it, and is gone afterwards. *)
Theorem lone_join_settled_by_room_count (s : Mesh) (room : string) (n : Z) :
  let j := fst (join room s) in
  let s' := after (snd (join room s)) (Socket (SimplePeerMesh.SocketRoomCount n)) in
  let complete :=
    (n <=? Z.of_nat (SimplePeerMesh.getConnectedPeerCount (mesh s)) + 1)%Z in
  let callback := fullConnectEventCallback j (closures s) in
  Forall (fun f => is_Handler f = true) (listeners "roomCount" s) ->
  Forall (fun f => is_Handler f = true) (listeners "fullConnect" s) ->
  nth_error (promises s') j = Some (if complete then Fulfilled else Pending) /\
  listeners "roomCount" s' = listeners "roomCount" s /\
  listeners "fullConnect" s'
    = (if complete then listeners "fullConnect" s
       else listeners "fullConnect" s ++ [callback]) /\
  calls_since s s'
    = listeners "roomCount" s ++ [roomCountEventCallback j] ++
      (if complete
       then listeners "fullConnect" s ++ (if (n =? 1)%Z then [] else [callback])
       else []).
Proof.
  cbv zeta. intros Hrc Hfc.
  set (j := List.length (promises s)).
  set (hs := listeners "roomCount" s) in *.
  set (hf := listeners "fullConnect" s) in *.
  set (count := SimplePeerMesh.getConnectedPeerCount (mesh s)).
  change (fst (join room s)) with j.
  set (s0 := snd (join room s)).
  assert (L0 : listeners "roomCount" s0 = hs ++ [roomCountEventCallback j]).
  { unfold s0, join. cbn [snd]. rewrite listeners_on_eq. reflexivity. }
  assert (L0' : listeners "fullConnect" s0 = hf).
  { unfold s0, join. cbn [snd]. rewrite listeners_on_ne by discriminate. reflexivity. }
  assert (P0 : promises s0 = promises s ++ [Pending]) by reflexivity.
  assert (C0 : called s0 = called s) by reflexivity.
  assert (K0 : closures s0 = closures s) by reflexivity.
  assert (M0 : mesh s0 = mesh s) by reflexivity.
  clearbody s0.
  unfold after. cbn [step]. unfold on_roomCount.
  set (sa := with_mesh (SimplePeerMesh.with_roomCount n (mesh s0)) s0).
  set (sb := log_calls hs
               (with_mesh (SimplePeerMesh.fire (SimplePeerMesh.FRoomCount n) (mesh sa)) sa)).
  assert (Lb : listeners "roomCount" sb = hs ++ [roomCountEventCallback j]) by exact L0.
  assert (Lb' : listeners "fullConnect" sb = hf) by exact L0'.
  assert (Pb : promises sb = promises s ++ [Pending]) by exact P0.
  assert (Cb : called sb = called s ++ hs).
  { unfold sb, log_calls. cbn [called]. now rewrite <- C0. }
  assert (Kb : closures sb = closures s) by exact K0.
  assert (Rb : SimplePeerMesh.roomCount (mesh sb) = n) by reflexivity.
  assert (Nb : SimplePeerMesh.getConnectedPeerCount (mesh sb) = count).
  { unfold count. rewrite <- M0. reflexivity. }
  assert (Hself : ~ In (roomCountEventCallback j) hs)
    by (apply Forall_Handler_absent; [assumption | reflexivity]).
  assert (Hfire : fire (SimplePeerMesh.FRoomCount n) sa
                  = call (roomCountEventCallback j) sb).
  { apply fire_over_handlers_and_one; [exact L0 | exact Hrc |].
    fold sb. rewrite listeners_call. cbv zeta.
    change (String.eqb (event_name (SimplePeerMesh.FRoomCount n)) "fullConnect")
      with false.
    change (String.eqb (event_name (SimplePeerMesh.FRoomCount n)) "roomCount")
      with true. cbv iota.
    change (event_name (SimplePeerMesh.FRoomCount n)) with "roomCount".
    replace (if (SimplePeerMesh.roomCount (mesh sb) =? 1)%Z
             then listeners "roomCount" sb else listeners "roomCount" sb)
      with (listeners "roomCount" sb) by (now destruct (_ =? 1)%Z).
    rewrite Lb, splice_self_last by assumption.
    apply nth_error_None. lia. }
  rewrite Hfire. clear Hfire.
  set (sc := call (roomCountEventCallback j) sb).
  assert (Lc : listeners "roomCount" sc = hs).
  { unfold sc. rewrite listeners_call. cbv zeta.
    change (String.eqb "roomCount" "fullConnect") with false.
    change (String.eqb "roomCount" "roomCount") with true. cbv iota.
    replace (if (SimplePeerMesh.roomCount (mesh sb) =? 1)%Z
             then listeners "roomCount" sb else listeners "roomCount" sb)
      with (listeners "roomCount" sb) by (now destruct (_ =? 1)%Z).
    now rewrite Lb, splice_self_last. }
  assert (Lc' : listeners "fullConnect" sc
                = if (n =? 1)%Z then hf
                  else hf ++ [fullConnectEventCallback j (closures s)]).
  { unfold sc. rewrite listeners_call. cbv zeta.
    change (String.eqb "fullConnect" "fullConnect") with true.
    change (String.eqb "fullConnect" "roomCount") with false. cbv iota.
    now rewrite Rb, Lb', Kb. }
  assert (Pc : promises sc
               = if (n =? 1)%Z then promises s ++ [Fulfilled]
                 else promises s ++ [Pending]).
  { unfold sc. rewrite promises_call, Rb, Pb. unfold j.
    now rewrite update_nth_last. }
  assert (Cc : called sc = called s ++ hs ++ [roomCountEventCallback j]).
  { unfold sc. rewrite called_call, Cb. now rewrite <- app_assoc. }
  assert (Rc : SimplePeerMesh.roomCount (mesh sc) = n)
    by (unfold sc; now rewrite mesh_call).
  assert (Nc : SimplePeerMesh.getConnectedPeerCount (mesh sc) = count)
    by (unfold sc; now rewrite mesh_call).
  clearbody sc. clear sb Lb Lb' Pb Cb Kb Rb Nb.
  unfold checkFullConnect. rewrite Rc, Nc.
  destruct (n <=? Z.of_nat count + 1)%Z eqn:Hcomplete.
  2: { rewrite Pc, Lc, Lc'.
       assert (Hn : (n =? 1)%Z = false) by lia. rewrite Hn.
       split; [unfold j; apply nth_error_app_last|].
       split; [reflexivity|]. split; [reflexivity|].
       apply calls_since_app. exact Cc. }
  destruct (n =? 1)%Z eqn:Hn.
  - rewrite fire_over_handlers
      by (change (event_name SimplePeerMesh.FFullConnect) with "fullConnect";
          now rewrite Lc').
    change (event_name SimplePeerMesh.FFullConnect) with "fullConnect".
    rewrite Lc'.
    change (promises (log_calls hf (with_mesh _ sc))) with (promises sc).
    change (listeners "roomCount" (log_calls hf (with_mesh _ sc)))
      with (listeners "roomCount" sc).
    change (listeners "fullConnect" (log_calls hf (with_mesh _ sc)))
      with (listeners "fullConnect" sc).
    rewrite Pc, Lc, Lc'.
    split; [unfold j; apply nth_error_app_last|].
    split; [reflexivity|]. split; [reflexivity|].
    apply calls_since_app. unfold log_calls. cbn [called with_mesh].
    rewrite Cc, app_nil_r, <- !app_assoc. reflexivity.
  - set (cb := fullConnectEventCallback j (closures s)) in *.
    set (sd := log_calls hf
                 (with_mesh (SimplePeerMesh.fire SimplePeerMesh.FFullConnect (mesh sc)) sc)).
    assert (Ld : listeners "fullConnect" sd = hf ++ [cb]) by exact Lc'.
    assert (Ld' : listeners "roomCount" sd = hs) by exact Lc.
    assert (Pd : promises sd = promises s ++ [Pending]) by exact Pc.
    assert (Cd : called sd = called s ++ hs ++ [roomCountEventCallback j] ++ hf).
    { unfold sd, log_calls. cbn [called with_mesh]. rewrite Cc, <- !app_assoc. reflexivity. }
    assert (Hcb : ~ In cb hf)
      by (apply Forall_Handler_absent; [assumption | reflexivity]).
    assert (Hfire : fire SimplePeerMesh.FFullConnect sc = call cb sd).
    { apply fire_over_handlers_and_one; [exact Lc' | exact Hfc |].
      fold sd. rewrite listeners_call. unfold cb at 1.
      change (String.eqb (event_name SimplePeerMesh.FFullConnect) "fullConnect")
        with true. cbv iota.
      change (event_name SimplePeerMesh.FFullConnect) with "fullConnect".
      fold cb. rewrite Ld, splice_self_last by assumption.
      apply nth_error_None. lia. }
    rewrite Hfire. clear Hfire.
    split; [|split; [|split]].
    + rewrite promises_call. unfold cb. rewrite Pd. unfold j.
      rewrite update_nth_last. apply nth_error_app_last.
    + rewrite listeners_call. unfold cb.
      change (String.eqb "roomCount" "fullConnect") with false. cbv iota. exact Ld'.
    + rewrite listeners_call. unfold cb at 1.
      change (String.eqb "fullConnect" "fullConnect") with true. cbv iota.
      fold cb. now rewrite Ld, splice_self_last.
    + apply calls_since_app. rewrite called_call, Cd, <- !app_assoc. reflexivity.
Qed.

Lemma lone_join_settled_by_room_count_witness :
  let s := run constructor
               [CallOn "fullConnect" 9;
                Socket (SimplePeerMesh.SocketInitialize "a");
                Socket (SimplePeerMesh.PeerConnects 0)] in
  let s0 := snd (join "room" s) in
  nth_error (promises (after s0 (Socket (SimplePeerMesh.SocketRoomCount 2)))) 0
    = Some Fulfilled /\
  nth_error (promises (after s0 (Socket (SimplePeerMesh.SocketRoomCount 3)))) 0
    = Some Pending.
Proof.
  cbv zeta.
  destruct (lone_join_settled_by_room_count
              (run constructor
                   [CallOn "fullConnect" 9;
                    Socket (SimplePeerMesh.SocketInitialize "a");
                    Socket (SimplePeerMesh.PeerConnects 0)]) "room" 2)
    as (Hcomplete & _);
    [vm_compute; repeat constructor | vm_compute; repeat constructor |].
  destruct (lone_join_settled_by_room_count
              (run constructor
                   [CallOn "fullConnect" 9;
                    Socket (SimplePeerMesh.SocketInitialize "a");
                    Socket (SimplePeerMesh.PeerConnects 0)]) "room" 3)
    as (Hwaiting & _);
    [vm_compute; repeat constructor | vm_compute; repeat constructor |].
  vm_compute in Hcomplete, Hwaiting. vm_compute. split; [exact Hcomplete | exact Hwaiting].
Defined.

(** X21.  The promise of a [join] is settled only by a call of one of
    that [join]'s own two callbacks, and only from pending to fulfilled:
    whatever the event, a promise that exists either stays as it was or
    goes from pending to fulfilled, it is never rejected, and it stays as
    it was whenever none of the calls made during the event is a callback
    of that [join]. *)
Theorem join_promise_settled_only_by_its_callbacks
  (s : Mesh) (e : Event) (j : nat) (p : Promise) :
  nth_error (promises s) j = Some p ->
  exists p',
    nth_error (promises (after s e)) j = Some p' /\
    (p' = p \/ (p = Pending /\ p' = Fulfilled)) /\
    ((forall f, In f (calls_since s (after s e)) -> owner f <> Some j) -> p' = p).
Proof.
  intros Hp. destruct (settles_after j s e) as (calls & Hc & H).
  rewrite (calls_since_app _ _ _ Hc). exact (H p Hp).
Qed.

Lemma join_promise_settled_only_by_its_callbacks_witness :
  let s := run constructor [CallJoin "room"; CallJoin "room"] in
  nth_error (promises (after s (Socket (SimplePeerMesh.SocketRoomCount 1)))) 1
    = Some Pending.
Proof.
  cbv zeta.
  destruct (join_promise_settled_only_by_its_callbacks
              (run constructor [CallJoin "room"; CallJoin "room"])
              (Socket (SimplePeerMesh.SocketRoomCount 1)) 1 Pending)
    as (p' & Hp' & _ & Hsame); [vm_compute; reflexivity|].
  rewrite Hp'. f_equal. apply Hsame.
  vm_compute. intros f [<-|[]]. discriminate.
Defined.

(** X22.  A [join] is settled through the registry alone: once neither
    of its callbacks is registered for any event, its promise stays as it
    is whatever happens afterwards.  A pending [join] whose room-count
    callback was removed, as [off] does when it is given a function that
    was never registered, stays pending for good; there is no timeout. *)
Theorem join_without_callbacks_never_settles (s : Mesh) (es : list Event) (j : nat) :
  j < List.length (promises s) ->
  (forall event f, In f (listeners event s) -> owner f <> Some j) ->
  nth_error (promises (run s es)) j = nth_error (promises s) j.
Proof.
  revert s. induction es as [|e es IH]; intros s Hj H; [reflexivity|].
  destruct (unregistered_after j s e Hj H) as (Hu & Hp & Hj').
  simpl run. rewrite IH by assumption. exact Hp.
Qed.

Lemma join_without_callbacks_never_settles_witness :
  let s := run constructor [CallJoin "room"; CallOff "roomCount" 7] in
  nth_error (promises s) 0 = Some Pending /\
  nth_error (promises (run s [Socket (SimplePeerMesh.SocketRoomCount 1);
                              Socket (SimplePeerMesh.SocketRoomCount 1)])) 0
    = Some Pending.
Proof.
  cbv zeta.
  assert (E : _events (run constructor [CallJoin "room"; CallOff "roomCount" 7])
              = [("roomCount", [])]) by (vm_compute; reflexivity).
  split; [vm_compute; reflexivity|].
  rewrite (join_without_callbacks_never_settles
             (run constructor [CallJoin "room"; CallOff "roomCount" 7])
             [Socket (SimplePeerMesh.SocketRoomCount 1);
              Socket (SimplePeerMesh.SocketRoomCount 1)] 0).
  - vm_compute. reflexivity.
  - vm_compute. lia.
  - intros event f. unfold listeners. rewrite E. cbn [get].
    destruct (String.eqb "roomCount" event); intros [].
Defined.

(** * Further properties of [SimplePeerMesh] *)


(** X28.  While only functions of the application are registered for an
    event, [fire] calls them in the order they were registered, once per
    registration (a function registered twice is called twice), and
    leaves the registry and the promises as they were. *)
Theorem fire_calls_in_registration_order (s : Mesh) (f : SimplePeerMesh.Fired) :
  Forall (fun g => is_Handler g = true) (listeners (event_name f) s) ->
  calls_since s (fire f s) = listeners (event_name f) s /\
  _events (fire f s) = _events s /\ promises (fire f s) = promises s.
Proof.
  intros Hall. rewrite fire_over_handlers by assumption.
  split; [|split; reflexivity].
  apply calls_since_app. reflexivity.
Qed.

Lemma fire_calls_in_registration_order_witness :
  let s := run constructor [CallOn "connect" 1; CallOn "connect" 2; CallOn "connect" 1] in
  calls_since s (fire (SimplePeerMesh.FConnect "a") s) = [Handler 1; Handler 2; Handler 1].
Proof.
  cbv zeta.
  destruct (fire_calls_in_registration_order
              (run constructor [CallOn "connect" 1; CallOn "connect" 2; CallOn "connect" 1])
              (SimplePeerMesh.FConnect "a")) as (Hcalls & _);
    [vm_compute; repeat constructor|].
  rewrite Hcalls. vm_compute. reflexivity.
Defined.

(** * [join], in [MultiPeerMesh] and in [SimplePeerMesh] *)

(** C3, as stated, fails: a [join] told a room count of 3 is fulfilled
    with no peer connected when the next room count is 1.  Both classes
    test the connected count against the room count in force when the
    check runs, not against the count the [join] was told. *)
Lemma join_resolves_below_told_count :
  (let s0 := MultiPeerMesh.run (MultiPeerMesh.constructor "app" true)
                               [MultiPeerMesh.CallJoin "room" ""] in
   let s := MultiPeerMesh.after s0 (MultiPeerMesh.RelayRoomCount 3) in
   let s' := MultiPeerMesh.after s (MultiPeerMesh.RelayRoomCount 1) in
   nth_error (MultiPeerMesh.joins s0) 0 = Some MultiPeerMesh.JAwaitRoomCount /\
   MultiPeerMesh.joinPromise s 0 = Pending /\
   MultiPeerMesh.joinPromise s' 0 = Fulfilled /\
   MultiPeerMesh.getConnectedPeerCount s' = 0) /\
  (let s := run constructor [CallJoin "room"; Socket (SimplePeerMesh.SocketRoomCount 3)] in
   let s' := after s (Socket (SimplePeerMesh.SocketRoomCount 1)) in
   promises s = [Pending] /\ promises s' = [Fulfilled] /\
   SimplePeerMesh.getConnectedPeerCount (mesh s') = 0) /\
  ~ MeshSpec.join_waits_for_told_count.
Proof.
  split; [vm_compute; repeat split|]. split; [vm_compute; repeat split|].
  intros H.
  specialize (H "app" true [MultiPeerMesh.CallJoin "room" ""] 3%Z []
                (MultiPeerMesh.RelayRoomCount 1) 0).
  cbv zeta in H. vm_compute in H.
  specialize (H eq_refl eq_refl eq_refl eq_refl). apply H. reflexivity.
Qed.

(** The [join] of [SimplePeerMesh] has no timer: its promise is never
    rejected. *)
Lemma SimplePeerMesh_join_never_rejected (es : list Event) (j : nat) :
  nth_error (promises (run constructor es)) j <> Some Rejected.
Proof.
  intros H. apply nth_error_In in H.
  pose proof (unrejected_run es constructor (Forall_nil _)) as Hall.
  rewrite Forall_forall in Hall. now apply (Hall _ H).
Qed.

(** The loop of [fire] passes over the room-count callback of a second
    pending [join]: at room count 1 the first is fulfilled and the second
    is left pending. *)
Lemma SimplePeerMesh_second_join_left_pending :
  promises (run constructor [CallJoin "room"; CallJoin "room";
                             Socket (SimplePeerMesh.SocketRoomCount 1)])
  = [Fulfilled; Pending].
Proof. vm_compute. reflexivity. Qed.

(** C3, amended.  In every reachable state of [MultiPeerMesh], for every
    [join] call [j]:
    - if it is waiting for its first room count and the count arrives as
      1, its promise is fulfilled by that very event, whatever the peers;
    - if its promise turns from pending to fulfilled in any other way, the
      event announced full-connect, so the connected count is then at
      least the room count in force after the event minus one, which need
      not be the count the [join] was told;
    - if the timer of its full-connect wait fires while it is pending, or
      its room-count wait times out, its promise is rejected.
    In every reachable state of [SimplePeerMesh], for every [join] call
    [j]:
    - if its room-count callback is registered with only functions of the
      application before it and the room count arrives as 1, its promise
      is fulfilled by that very event;
    - if its promise turns from pending to fulfilled, the connected count
      after the event is at least the room count in force minus one. *)
Theorem join_resolves_at_count_in_force :
  (forall app trick (es : list MultiPeerMesh.Event) (e : MultiPeerMesh.Event) (j : nat),
      let s := MultiPeerMesh.run (MultiPeerMesh.constructor app trick) es in
      let s' := MultiPeerMesh.after s e in
      (nth_error (MultiPeerMesh.joins s) j = Some MultiPeerMesh.JAwaitRoomCount ->
       e = MultiPeerMesh.RelayRoomCount 1 ->
       MultiPeerMesh.joinPromise s' j = Fulfilled) /\
      (MultiPeerMesh.joinPromise s j = Pending ->
       MultiPeerMesh.joinPromise s' j = Fulfilled ->
       (nth_error (MultiPeerMesh.joins s) j = Some MultiPeerMesh.JAwaitRoomCount /\
        e = MultiPeerMesh.RelayRoomCount 1) \/
       (In MultiPeerMesh.NFullConnect (MultiPeerMesh.fresh s e) /\
        exists n, MultiPeerMesh.roomCount s' = Some n /\
                  (n - 1 <= Z.of_nat (MultiPeerMesh.getConnectedPeerCount s'))%Z)) /\
      (forall w, nth_error (MultiPeerMesh.joins s) j
                 = Some (MultiPeerMesh.JAwaitFullConnect w) ->
                 MultiPeerMesh.joinPromise s j = Pending ->
                 e = MultiPeerMesh.WaitTimeout w ->
                 MultiPeerMesh.joinPromise s' j = Rejected) /\
      (nth_error (MultiPeerMesh.joins s) j = Some MultiPeerMesh.JAwaitRoomCount ->
       e = MultiPeerMesh.RoomCountTimeout j ->
       MultiPeerMesh.joinPromise s' j = Rejected)) /\
  (forall (es : list Event) (e : Event) (j : nat),
      let s := run constructor es in
      let s' := after s e in
      (forall pre rest,
          listeners "roomCount" s = pre ++ roomCountEventCallback j :: rest ->
          Forall (fun f => is_Handler f = true) pre ->
          nth_error (promises s) j = Some Pending ->
          e = Socket (SimplePeerMesh.SocketRoomCount 1) ->
          nth_error (promises s') j = Some Fulfilled) /\
      (nth_error (promises s) j = Some Pending ->
       nth_error (promises s') j = Some Fulfilled ->
       (SimplePeerMesh.roomCount (mesh s') - 1
        <= Z.of_nat (SimplePeerMesh.getConnectedPeerCount (mesh s')))%Z)).
Proof.
  split.
  - intros app trick es e j. exact (join_promise_cases app trick es e j).
  - intros es e j. cbv zeta.
    pose proof (placed_run es _ placed_constructor) as Hpl.
    split.
    + intros pre rest Harr Hpre Hp ->. eapply first_callback_resolved; eauto.
    + intros Hp Hf. pose proof (after_fulfils j _ e Hpl Hp Hf) as Hc.
      unfold complete in Hc. apply Z.leb_le in Hc. lia.
Qed.

Lemma join_resolves_at_count_in_force_witness :
  (let s := MultiPeerMesh.run (MultiPeerMesh.constructor "app" true)
              [MultiPeerMesh.RelayInitialize "a"; MultiPeerMesh.CallJoin "room" ""] in
   nth_error (MultiPeerMesh.joins s) 0 = Some MultiPeerMesh.JAwaitRoomCount /\
   MultiPeerMesh.joinPromise (MultiPeerMesh.after s (MultiPeerMesh.RelayRoomCount 1)) 0
     = Fulfilled) /\
  (let s := MultiPeerMesh.run (MultiPeerMesh.constructor "app" true)
              [MultiPeerMesh.CallJoin "room" ""; MultiPeerMesh.RelayRoomCount 2;
               MultiPeerMesh.RelayInitialize "a"] in
   let s' := MultiPeerMesh.after s (MultiPeerMesh.PeerConnects 0) in
   MultiPeerMesh.joinPromise s 0 = Pending /\
   MultiPeerMesh.joinPromise s' 0 = Fulfilled /\
   ((nth_error (MultiPeerMesh.joins s) 0 = Some MultiPeerMesh.JAwaitRoomCount /\
     MultiPeerMesh.PeerConnects 0 = MultiPeerMesh.RelayRoomCount 1) \/
    (In MultiPeerMesh.NFullConnect (MultiPeerMesh.fresh s (MultiPeerMesh.PeerConnects 0)) /\
     exists n, MultiPeerMesh.roomCount s' = Some n /\
               (n - 1 <= Z.of_nat (MultiPeerMesh.getConnectedPeerCount s'))%Z))) /\
  (let s := MultiPeerMesh.run (MultiPeerMesh.constructor "app" true)
              [MultiPeerMesh.CallJoin "room" ""; MultiPeerMesh.RelayRoomCount 2] in
   nth_error (MultiPeerMesh.joins s) 0 = Some (MultiPeerMesh.JAwaitFullConnect 0) /\
   MultiPeerMesh.joinPromise s 0 = Pending /\
   MultiPeerMesh.joinPromise (MultiPeerMesh.after s (MultiPeerMesh.WaitTimeout 0)) 0
     = Rejected) /\
  (let s := MultiPeerMesh.run (MultiPeerMesh.constructor "app" true)
              [MultiPeerMesh.CallJoin "room" ""] in
   MultiPeerMesh.joinPromise (MultiPeerMesh.after s (MultiPeerMesh.RoomCountTimeout 0)) 0
     = Rejected) /\
  (let s := run constructor [CallOn "roomCount" 5; CallJoin "room"; CallJoin "room"] in
   listeners "roomCount" s
     = [Handler 5; roomCountEventCallback 0; roomCountEventCallback 1] /\
   nth_error (promises (after s (Socket (SimplePeerMesh.SocketRoomCount 1)))) 0
     = Some Fulfilled) /\
  (let s := run constructor [CallJoin "room"; Socket (SimplePeerMesh.SocketRoomCount 2);
                             Socket (SimplePeerMesh.SocketInitialize "a")] in
   let s' := after s (Socket (SimplePeerMesh.PeerConnects 0)) in
   nth_error (promises s) 0 = Some Pending /\
   nth_error (promises s') 0 = Some Fulfilled /\
   (SimplePeerMesh.roomCount (mesh s') - 1
    <= Z.of_nat (SimplePeerMesh.getConnectedPeerCount (mesh s')))%Z).
Proof.
  cbv zeta.
  destruct join_resolves_at_count_in_force as [Hmesh Hsimple].
  split; [|split; [|split; [|split; [|split]]]].
  - split; [vm_compute; reflexivity|].
    destruct (Hmesh "app" true
                [MultiPeerMesh.RelayInitialize "a"; MultiPeerMesh.CallJoin "room" ""]
                (MultiPeerMesh.RelayRoomCount 1) 0) as (Halone & _).
    apply Halone; vm_compute; reflexivity.
  - split; [vm_compute; reflexivity|]. split; [vm_compute; reflexivity|].
    destruct (Hmesh "app" true
                [MultiPeerMesh.CallJoin "room" ""; MultiPeerMesh.RelayRoomCount 2;
                 MultiPeerMesh.RelayInitialize "a"]
                (MultiPeerMesh.PeerConnects 0) 0) as (_ & Honly & _).
    apply Honly; vm_compute; reflexivity.
  - split; [vm_compute; reflexivity|]. split; [vm_compute; reflexivity|].
    destruct (Hmesh "app" true
                [MultiPeerMesh.CallJoin "room" ""; MultiPeerMesh.RelayRoomCount 2]
                (MultiPeerMesh.WaitTimeout 0) 0) as (_ & _ & Htimeout & _).
    apply (Htimeout 0); vm_compute; reflexivity.
  - destruct (Hmesh "app" true [MultiPeerMesh.CallJoin "room" ""]
                (MultiPeerMesh.RoomCountTimeout 0) 0) as (_ & _ & _ & Hroom).
    apply Hroom; vm_compute; reflexivity.
  - split; [vm_compute; reflexivity|].
    destruct (Hsimple [CallOn "roomCount" 5; CallJoin "room"; CallJoin "room"]
                (Socket (SimplePeerMesh.SocketRoomCount 1)) 0) as (Hfirst & _).
    apply (Hfirst [Handler 5] [roomCountEventCallback 1]);
      [vm_compute; reflexivity | repeat constructor | vm_compute; reflexivity | reflexivity].
  - split; [vm_compute; reflexivity|]. split; [vm_compute; reflexivity|].
    destruct (Hsimple [CallJoin "room"; Socket (SimplePeerMesh.SocketRoomCount 2);
                       Socket (SimplePeerMesh.SocketInitialize "a")]
                (Socket (SimplePeerMesh.PeerConnects 0)) 0) as (_ & Honly).
    apply Honly; vm_compute; reflexivity.
Defined.
